(** * MantaFlow particle systems and vortex filaments

    A shallow embedding of [source/particle.h] (the compactable particle
    store and its connected variant) and of [source/vortexfilament.cpp]
    (vortex rings, the Biot-Savart kernel, remeshing, the doubly discrete
    Darboux update and ring construction), with the properties of the
    design document stated and settled against the embedded code. *)

From Stdlib Require Import ZArith Lia Bool String Reals Lra Psatz.
From Stdlib Require PrimFloat Uint63.
From stdpp Require Import base list gmap.

Set Default Proof Using "Type".
Local Open Scope Z_scope.

(** ** Reals of the solver

    [Real] is a build-time typedef of the solver (single or double
    precision).  The embedding keeps it abstract: a carrier with the
    operations the two source files use.  Nothing is assumed about them
    here; laws are added as hypotheses where a statement needs them. *)

Class RealOps (Real : Type) := {
  flit : Z -> Z -> Real;          (* the literal num/den, e.g. 1e-6 = flit 1 1000000 *)
  fadd : Real -> Real -> Real;
  fsub : Real -> Real -> Real;
  fmul : Real -> Real -> Real;
  fdiv : Real -> Real -> Real;
  fneg : Real -> Real;
  fsqrt : Real -> Real;
  fltb : Real -> Real -> bool     (* a < b *)
}.

(** The functions of the C math library that the sources call. *)
Class LibM (Real : Type) := {
  fsin : Real -> Real;
  fcos : Real -> Real;
  ftan : Real -> Real;
  flog : Real -> Real;
  M_PI : Real
}.

(** [Vec3]: three components, as in vectorbase.h. *)
Record Vec3 (Real : Type) := mkVec3 { vx : Real; vy : Real; vz : Real }.
Arguments mkVec3 {Real} _ _ _.
Arguments vx {Real} _.
Arguments vy {Real} _.
Arguments vz {Real} _.

(** ** ParticleBase::ParticleType *)

Definition PNONE : Z := 0.
Definition PDELETE : Z := Z.shiftl 1 10.
Definition PINVALID : Z := Z.shiftl 1 30.

(** chunk size for compression *)
Definition DELETE_PART : Z := 20.

(** [(flag & PDELETE) != 0] *)
Definition is_deleted (f : Z) : bool := negb (Z.land f PDELETE =? 0).

Section Store.
Context {Real : Type}.

(** struct BasicParticleData *)
Record BasicParticleData := mkParticle { pos : Vec3 Real; flag : Z }.

(** The fields of [ParticleSystem<S>]: [mData], [mDeletes], [mDeleteChunk]. *)
Record ParticleSystem := mkSys {
  mData : list BasicParticleData;
  mDeletes : Z;
  mDeleteChunk : Z
}.

(** struct VortexRing (vortexfilament.h is not part of the sources; the
    fields are those this code reads and writes). *)
Record VortexRing := mkRing {
  circulation : Real;
  indices : list Z;
  rflag : Z
}.

(** [ConnectedParticleSystem<DATA,CON>]: the particle system plus
    [mSegments]. *)
Record ConnectedParticleSystem := mkCSys {
  psys : ParticleSystem;
  mSegments : list VortexRing
}.

Definition set_flag (f : Z) (d : BasicParticleData) : BasicParticleData :=
  {| pos := pos d; flag := f |}.

(** [isActive(i)] on a record. *)
Definition active (d : BasicParticleData) : bool := negb (is_deleted (flag d)).

(** [size()]; named [sys_size] to keep clear of the [size] of finite maps. *)
Definition sys_size (s : ParticleSystem) : Z := Z.of_nat (length (mData s)).

(** [int add(const S& data)]: push_back, recompute the chunk, return the
    new slot. *)
Definition add (d : BasicParticleData) (s : ParticleSystem) : ParticleSystem * Z :=
  let data := mData s ++ [d] in
  ({| mData := data;
      mDeletes := mDeletes s;
      mDeleteChunk := Z.quot (Z.of_nat (length data)) DELETE_PART |},
   Z.of_nat (length data) - 1).

(** The first half of [kill(i)]: [mData[i].flag |= PDELETE; ++mDeletes].
    A slot outside the vector is undefined behaviour: [None]. *)
Definition mark_deleted (i : nat) (s : ParticleSystem) : option ParticleSystem :=
  d ← mData s !! i;
  Some {| mData := <[i := set_flag (Z.lor (flag d) PDELETE) d]> (mData s);
          mDeletes := mDeletes s + 1;
          mDeleteChunk := mDeleteChunk s |}.

(** ** ParticleSystem<S>::compress *)

(** The inner [while] at slot [i]:
    [while ((mData[i].flag & PDELETE) != 0) { nextRead--; mData[i] =
    mData[nextRead]; mData[nextRead].flag = 0; }].
    Recursion is on [nextRead], which strictly decreases; decrementing
    below zero or touching a slot outside the vector is [None]. *)
Fixpoint refill (i : nat) (nextRead : nat) (data : list BasicParticleData)
  {struct nextRead} : option (list BasicParticleData * nat) :=
  match data !! i with
  | None => None
  | Some d =>
    if is_deleted (flag d) then
      match nextRead with
      | O => None
      | S nr =>
        match data !! nr with
        | None => None
        | Some t => refill i nr (<[nr := set_flag 0 t]> (<[i := t]> data))
        end
      end
    else Some (data, nextRead)
  end.

(** The outer [for (size_t i=0; i<mData.size(); i++)]; [todo] counts the
    slots still to visit. *)
Fixpoint compress_loop (todo i nextRead : nat) (data : list BasicParticleData)
  : option (list BasicParticleData * nat) :=
  match todo with
  | O => Some (data, nextRead)
  | S todo' =>
    match refill i nextRead data with
    | None => None
    | Some (data', nr') => compress_loop todo' (S i) nr' data'
    end
  end.

(** [mData.resize(nextRead)], for [nextRead] not above the size. *)
Definition resize (n : nat) (data : list BasicParticleData) := take n data.

Definition compress (s : ParticleSystem) : option ParticleSystem :=
  let sz := length (mData s) in
  match compress_loop sz 0 sz (mData s) with
  | None => None
  | Some (data, nextRead) =>
    let data' := resize nextRead data in
    Some {| mData := data';
            mDeletes := 0;
            mDeleteChunk := Z.quot (Z.of_nat (length data')) DELETE_PART |}
  end.

(** [kill(i)]: [mData[i].flag |= PDELETE; if (++mDeletes > mDeleteChunk)
    compress();].  [compress] is virtual: this is [kill] on a plain
    particle system, [connected_kill] below is [kill] on a connected
    one. *)
Definition kill (i : nat) (s : ParticleSystem) : option ParticleSystem :=
  s1 ← mark_deleted i s;
  if mDeleteChunk s1 <? mDeletes s1 then compress s1 else Some s1.

(** ** VortexRing::renumber and ConnectedParticleSystem::compress *)

(** [_renumber[k]].  A read outside the table is not defined by the
    language; its value is left to [oob]. *)
Definition table_read (oob : Z -> Z) (table : list Z) (k : Z) : Z :=
  if (0 <=? k) && (k <? Z.of_nat (length table))
  then default (oob k) (table !! Z.to_nat k)
  else oob k.

(** [for (i...) indices[i] = _renumber[indices[i]];] *)
Definition ring_renumber (oob : Z -> Z) (table : list Z) (r : VortexRing) : VortexRing :=
  {| circulation := circulation r;
     indices := table_read oob table <$> indices r;
     rflag := rflag r |}.

(** The reordering loop
    [for (int i=0; i<nextRead; i++) if (dead) { nextRead--; data[i] =
    data[nextRead]; data[nextRead].flag = 0; renumber_back[i] = nextRead; }
    else renumber_back[i] = i;]
    [todo] bounds the number of iterations still possible. *)
Fixpoint reorder (todo i nextRead : nat) (data : list BasicParticleData)
  (rb : list Z) : option (list BasicParticleData * list Z * nat) :=
  match todo with
  | O => Some (data, rb, nextRead)
  | S todo' =>
    if (i <? nextRead)%nat then
      match data !! i with
      | None => None
      | Some d =>
        if is_deleted (flag d) then
          let nr := pred nextRead in
          match data !! nr with
          | None => None
          | Some t =>
            reorder todo' (S i) nr (<[nr := set_flag 0 t]> (<[i := t]> data))
                    (<[i := Z.of_nat nr]> rb)
          end
        else reorder todo' (S i) nextRead data (<[i := Z.of_nat i]> rb)
      end
    else Some (data, rb, nextRead)
  end.

(** [for (int i=0; i<nextRead; i++) renumber[renumber_back[i]] = i;]
    (an entry of [renumber_back] below the cursor is never negative or
    past the table; the model writes nothing for one). *)
Fixpoint accel (n i : nat) (rb table : list Z) : list Z :=
  match n with
  | O => table
  | S n' =>
    match rb !! i with
    | Some k =>
      accel n' (S i) rb
            (if 0 <=? k then <[Z.to_nat k := Z.of_nat i]> table else table)
    | None => table
    end
  end.

(** The data and the renumbering table that
    [ConnectedParticleSystem::compress] computes. *)
Definition connected_reorder (data : list BasicParticleData)
  : option (list BasicParticleData * list Z * nat) :=
  let sz := length data in
  match reorder sz 0 sz data (replicate sz (-1)) with
  | None => None
  | Some (data', rb, nextRead) =>
    Some (data', accel nextRead 0 rb (replicate sz (-1)), nextRead)
  end.

Definition connected_compress (oob : Z -> Z) (s : ConnectedParticleSystem)
  : option ConnectedParticleSystem :=
  match connected_reorder (mData (psys s)) with
  | None => None
  | Some (data, renumber, nextRead) =>
    let data' := resize nextRead data in
    Some {| psys := {| mData := data';
                       mDeletes := 0;
                       mDeleteChunk := Z.quot (Z.of_nat (length data')) DELETE_PART |};
            mSegments := ring_renumber oob renumber <$> mSegments s |}
  end.

(** [kill] on a connected system: the virtual [compress] is the
    connected one. *)
Definition connected_kill (oob : Z -> Z) (i : nat) (s : ConnectedParticleSystem)
  : option ConnectedParticleSystem :=
  s1 ← mark_deleted i (psys s);
  let s' := {| psys := s1; mSegments := mSegments s |} in
  if mDeleteChunk s1 <? mDeletes s1 then connected_compress oob s' else Some s'.

Definition connected_add (d : BasicParticleData) (s : ConnectedParticleSystem)
  : ConnectedParticleSystem * Z :=
  let '(p, n) := add d (psys s) in
  ({| psys := p; mSegments := mSegments s |}, n).





(** Number of records without the delete flag. *)
Definition live_count (s : ParticleSystem) : Z :=
  Z.of_nat (length (filter (λ d, active d = true) (mData s))).

(** ** clear and clone *)

(** [clear()]: [mDeleteChunk = mDeletes = 0; mData.clear();] *)
Definition clear (s : ParticleSystem) : ParticleSystem :=
  {| mData := []; mDeletes := 0; mDeleteChunk := 0 |}.

(** [ParticleSystem<S>::clone()]: the receiver after its [compress()], and
    the new system, which the constructor starts with [mDeletes(0),
    mDeleteChunk(0)] and which is then given the compacted [mData].
    (Names and parents belong to PbClass, which is not among the
    sources.) *)
Definition clone (s : ParticleSystem) : option (ParticleSystem * ParticleSystem) :=
  s1 ← compress s;
  Some (s1, {| mData := mData s1; mDeletes := 0; mDeleteChunk := 0 |}).

(** The calls a client can make on a plain store, and a run of them;
    [SysClone] continues on the clone. *)
Inductive sys_op :=
  | SysAdd (d : BasicParticleData)
  | SysKill (i : nat)
  | SysCompress
  | SysClear
  | SysClone.

Definition sys_step (o : sys_op) (s : ParticleSystem) : option ParticleSystem :=
  match o with
  | SysAdd d => Some (fst (add d s))
  | SysKill i => kill i s
  | SysCompress => compress s
  | SysClear => Some (clear s)
  | SysClone => snd <$> clone s
  end.

Fixpoint sys_run (os : list sys_op) (s : ParticleSystem) : option ParticleSystem :=
  match os with
  | [] => Some s
  | o :: os' => s' ← sys_step o s; sys_run os' s'
  end.

(** Number of records with the delete flag. *)
Definition dead_count (s : ParticleSystem) : Z :=
  Z.of_nat (length (filter (λ d, active d = false) (mData s))).

End Store.

(** ** Vectors and quaternions

    vectorbase.h and quaternion.h are not among the sources.  The helpers
    the two files call are given their textbook meaning over the
    operations of [RealOps]. *)

Section Vectors.
Context {Real : Type} {ops : RealOps Real} {libm : LibM Real}.

(** [(Real) n] *)
Definition fint (n : Z) : Real := flit n 1.

(** Modelled from the spec: [square] of the absent vectorbase.h. *)
Definition square (a : Real) : Real := fmul a a.

(** Modelled from the spec: the vector operators of the absent
    vectorbase.h ([Vec3(0.)], [+], [-], scalar [*]), componentwise. *)
Definition vzero : Vec3 Real := mkVec3 (fint 0) (fint 0) (fint 0).
Definition vadd (a b : Vec3 Real) : Vec3 Real :=
  mkVec3 (fadd (vx a) (vx b)) (fadd (vy a) (vy b)) (fadd (vz a) (vz b)).
Definition vsub (a b : Vec3 Real) : Vec3 Real :=
  mkVec3 (fsub (vx a) (vx b)) (fsub (vy a) (vy b)) (fsub (vz a) (vz b)).
Definition vscale (c : Real) (a : Vec3 Real) : Vec3 Real :=
  mkVec3 (fmul c (vx a)) (fmul c (vy a)) (fmul c (vz a)).
(** Modelled from the spec: [dot], [cross], [normSquare] and [norm] of
    the absent vectorbase.h, with their textbook meaning. *)
Definition dot (a b : Vec3 Real) : Real :=
  fadd (fadd (fmul (vx a) (vx b)) (fmul (vy a) (vy b))) (fmul (vz a) (vz b)).
Definition cross (a b : Vec3 Real) : Vec3 Real :=
  mkVec3 (fsub (fmul (vy a) (vz b)) (fmul (vz a) (vy b)))
         (fsub (fmul (vz a) (vx b)) (fmul (vx a) (vz b)))
         (fsub (fmul (vx a) (vy b)) (fmul (vy a) (vx b))).
Definition normSquare (a : Vec3 Real) : Real := dot a a.
Definition norm (a : Vec3 Real) : Real := fsqrt (normSquare a).
(** Modelled from the spec: [getNormalized] of the absent vectorbase.h,
    the vector divided by its norm. *)
Definition getNormalized (a : Vec3 Real) : Vec3 Real :=
  vscale (fdiv (fint 1) (norm a)) a.

(** Modelled from the spec: [normalize] of the absent vectorbase.h.  It
    rescales its argument in place; the model returns the new value. *)
Definition normalize (a : Vec3 Real) : Vec3 Real := getNormalized a.

(** Modelled from the spec: the class [Quaternion] of the absent
    quaternion.h, with the constructor [Quaternion(imag, real)], [imag()],
    the Hamilton product and the inverse (conjugate over squared norm). *)
Record Quaternion := mkQuat { qx : Real; qy : Real; qz : Real; qw : Real }.

Definition quat (im : Vec3 Real) (re : Real) : Quaternion :=
  mkQuat (vx im) (vy im) (vz im) re.
Definition qimag (q : Quaternion) : Vec3 Real := mkVec3 (qx q) (qy q) (qz q).
Definition qmul (a b : Quaternion) : Quaternion :=
  mkQuat
    (fsub (fadd (fadd (fmul (qw a) (qx b)) (fmul (qx a) (qw b))) (fmul (qy a) (qz b)))
          (fmul (qz a) (qy b)))
    (fsub (fadd (fadd (fmul (qw a) (qy b)) (fmul (qy a) (qw b))) (fmul (qz a) (qx b)))
          (fmul (qx a) (qz b)))
    (fsub (fadd (fadd (fmul (qw a) (qz b)) (fmul (qz a) (qw b))) (fmul (qx a) (qy b)))
          (fmul (qy a) (qx b)))
    (fsub (fsub (fsub (fmul (qw a) (qw b)) (fmul (qx a) (qx b))) (fmul (qy a) (qy b)))
          (fmul (qz a) (qz b))).
Definition qinverse (q : Quaternion) : Quaternion :=
  let mag := fdiv (fint 1)
    (fadd (fadd (fadd (square (qx q)) (square (qy q))) (square (qz q))) (square (qw q))) in
  mkQuat (fmul (fneg (qx q)) mag) (fmul (fneg (qy q)) mag) (fmul (fneg (qz q)) mag)
         (fmul (qw q) mag).

(** ** VortexRing accessors *)

(** Modelled from the spec: [size], [idx0], [idx1] and [idx] of the absent
    vortexfilament.h.  A ring of length N has edge [j] from [indices[j]]
    to [indices[(j+1) mod N]]; [idx] wraps around cyclically. *)
Definition ring_size (r : @VortexRing Real) : Z := Z.of_nat (length (indices r)).
Definition idx0 (r : @VortexRing Real) (j : Z) : option Z :=
  if 0 <=? j then indices r !! Z.to_nat j else None.
Definition idx1 (r : @VortexRing Real) (j : Z) : option Z :=
  if ring_size r =? 0 then None
  else indices r !! Z.to_nat (Z.rem (j + 1) (ring_size r)).
Definition idx (r : @VortexRing Real) (j : Z) : option Z :=
  if ring_size r =? 0 then None
  else let k := Z.rem (j + ring_size r) (ring_size r) in
       if 0 <=? k then indices r !! Z.to_nat k else None.

(** [v[k]] on a vector of positions, [None] outside it. *)
Definition at_index {A} (v : list A) (k : Z) : option A :=
  if 0 <=? k then v !! Z.to_nat k else None.

(** ** FilamentIntegrator::kernel *)

Record FilamentIntegrator := mkFI {
  mDt : Real; mCutoff2 : Real; mA2 : Real; mStrength : Real;
  mRings : list (@VortexRing Real)
}.

(** The constructor: [mCutoff2(square(cutoff))], [mA2(square(regularization))],
    [mStrength = 0.25 / M_PI * scale * dt]. *)
Definition mkFilamentIntegrator (dt regularization cutoff scale : Real)
  (rings : list (@VortexRing Real)) : FilamentIntegrator :=
  {| mDt := dt; mCutoff2 := square cutoff; mA2 := square regularization;
     mStrength := fmul (fmul (fdiv (flit 25 100) M_PI) scale) dt;
     mRings := rings |}.

(** [r0_2 > mCutoff2 || r1_2 > mCutoff2 || r0_2 < 1e-6 || r1_2 < 1e-6] *)
Definition edge_skipped (fi : FilamentIntegrator) (r0_2 r1_2 : Real) : bool :=
  fltb (mCutoff2 fi) r0_2 || fltb (mCutoff2 fi) r1_2
  || fltb r0_2 (flit 1 1000000) || fltb r1_2 (flit 1 1000000).

(** [A * cp] for an edge that is not skipped (the source writes [a2] for
    the regularisation member [mA2]). *)
Definition edge_term (fi : FilamentIntegrator) (str : Real) (r0 r1 : Vec3 Real) : Vec3 Real :=
  let r0_2 := normSquare r0 in
  let r1_2 := normSquare r1 in
  let e := getNormalized (vsub r1 r0) in
  let r0n := fdiv (fint 1) (fsqrt (fadd (mA2 fi) r0_2)) in
  let r1n := fdiv (fint 1) (fsqrt (fadd (mA2 fi) r1_2)) in
  let cp := cross r0 e in
  let A := fdiv (fmul str (fsub (fmul (dot r1 e) r1n) (fmul (dot r0 e) r0n)))
                (fadd (mA2 fi) (normSquare cp)) in
  vscale A cp.

(** One pass of the inner loop body at edge [j]. *)
Definition kernel_edge (fi : FilamentIntegrator) (y : list (Vec3 Real)) (xi : Vec3 Real)
  (r : @VortexRing Real) (str : Real) (u : Vec3 Real) (j : nat) : option (Vec3 Real) :=
  i0 ← idx0 r (Z.of_nat j); p0 ← at_index y i0;
  i1 ← idx1 r (Z.of_nat j); p1 ← at_index y i1;
  let r0 := vsub p0 xi in
  let r1 := vsub p1 xi in
  if edge_skipped fi (normSquare r0) (normSquare r1) then Some u
  else Some (vadd u (edge_term fi str r0 r1)).

(** A loop [for (j = 0; j < n; j++) u = body(u, j)] whose body may be
    undefined. *)
Fixpoint for_loop {A} (body : A -> nat -> option A) (n j : nat) (u : A) : option A :=
  match n with
  | O => Some u
  | S n' => u' ← body u j; for_loop body n' (S j) u'
  end.

Definition kernel_ring (fi : FilamentIntegrator) (y : list (Vec3 Real)) (xi : Vec3 Real)
  (u : Vec3 Real) (r : @VortexRing Real) : option (Vec3 Real) :=
  if negb (Z.land (rflag r) PDELETE =? 0) then Some u
  else for_loop (kernel_edge fi y xi r (fmul (mStrength fi) (circulation r)))
                (length (indices r)) 0 u.

Fixpoint kernel_rings (fi : FilamentIntegrator) (y : list (Vec3 Real)) (xi : Vec3 Real)
  (rings : list (@VortexRing Real)) (u : Vec3 Real) : option (Vec3 Real) :=
  match rings with
  | [] => Some u
  | r :: rest => u' ← kernel_ring fi y xi u r; kernel_rings fi y xi rest u'
  end.

Definition kernel (fi : FilamentIntegrator) (y : list (Vec3 Real)) (xi : Vec3 Real)
  : option (Vec3 Real) :=
  kernel_rings fi y xi (mRings fi) vzero.

(** ** Darboux transforms *)

Definition darbouxStep (Si lTi : Vec3 Real) (r : Real) : Vec3 Real :=
  let rlTS := quat (vsub lTi Si) (fneg r) in
  let lT := quat lTi (fint 0) in
  qimag (qmul (qmul rlTS lT) (qinverse rlTS)).

(** [gamma[(i+1)%N] - gamma[i]]; [None] outside the vector. *)
Definition edge_vec (gamma : list (Vec3 Real)) (i : nat) : option (Vec3 Real) :=
  a ← gamma !! i;
  b ← gamma !! ((i + 1) mod length gamma)%nat;
  Some (vsub b a).

Definition monodromy (gamma : list (Vec3 Real)) (lT_1 : Vec3 Real) (r : Real)
  : option (Vec3 Real) :=
  for_loop (λ lT i, Si ← edge_vec gamma i; Some (darbouxStep Si lT r))
           (length gamma) 0 lT_1.

(** The loop of [powerMethod]; [iters] counts the iterations left.  The
    result is the flag and the value left in [lT]. *)
Fixpoint power_iter (gamma : list (Vec3 Real)) (r : Real) (iters : nat) (lT : Vec3 Real)
  : option (bool * Vec3 Real) :=
  match iters with
  | O => Some (false, lT)
  | S n =>
    lT' ← monodromy gamma lT r;
    if fltb (norm (vsub lT' lT)) (flit 1 10000) then Some (true, lT')
    else power_iter gamma r n lT'
  end.

Definition maxIter : nat := 100.

Definition powerMethod (gamma : list (Vec3 Real)) (l r : Real)
  : option (bool * Vec3 Real) :=
  power_iter gamma r maxIter (mkVec3 (fint 0) (fint 0) l).

(** [darboux(from, to, l, r)]: the flag and the new contents of [to]
    ([to] is untouched when the power method fails). *)
Definition darboux (from to : list (Vec3 Real)) (l r : Real)
  : option (bool * list (Vec3 Real)) :=
  '(ok, lT) ← powerMethod from l r;
  if negb ok then Some (false, to)
  else
    '(to', _) ← for_loop
      (λ '(to, lT) i,
         p ← from !! i;
         Si ← edge_vec from i;
         if decide (i < length to)%nat
         then Some (<[i := vadd p lT]> to, darbouxStep Si lT r)
         else None)
      (length from) 0 (to, lT);
    Some (true, to').

End Vectors.

(** ** VortexFilamentSystem *)

Section Filaments.
Context {Real : Type} {ops : RealOps Real} {libm : LibM Real}.

Abbreviation System := (@ConnectedParticleSystem Real).
Abbreviation Particle := (@BasicParticleData Real).
Abbreviation Ring := (@VortexRing Real).

(** [mData[k].pos], [None] outside the store. *)
Definition pos_at (data : list Particle) (k : Z) : option (Vec3 Real) :=
  pos <$> at_index data k.

(** *** addRing *)

(** The in-plane basis [(u, v)] of [addRing]. *)
Definition ring_basis (normal : Vec3 Real) : Vec3 Real * Vec3 Real :=
  let normal := normalize normal in
  let worldup :=
    if fltb (norm (vsub normal (mkVec3 (fint 0) (fint 1) (fint 0)))) (flit 1 100000)
    then mkVec3 (fint 1) (fint 0) (fint 0)
    else mkVec3 (fint 0) (fint 1) (fint 0) in
  let u := normalize (cross normal worldup) in
  let v := normalize (cross normal u) in
  (u, v).

(** The point of the loop body at step [i]. *)
Definition ring_point (position : Vec3 Real) (radius : Real) (u v : Vec3 Real)
  (number i : nat) : Vec3 Real :=
  let phi := fmul (fmul (fdiv (fint (Z.of_nat i)) (fint (Z.of_nat number))) M_PI) (flit 2 1) in
  vadd position (vscale radius (vadd (vscale (fcos phi) u) (vscale (fsin phi) v))).

(** [for (int i=0; i<number; i++) { ...; int num = add(BasicParticleData(p));
    ring.indices.push_back(num); }] *)
Fixpoint ring_loop (position : Vec3 Real) (radius : Real) (u v : Vec3 Real)
  (number todo i : nat) (sys : @ParticleSystem Real) (ring : Ring)
  : @ParticleSystem Real * Ring :=
  match todo with
  | O => (sys, ring)
  | S todo' =>
    let p := ring_point position radius u v number i in
    let '(sys', num) := add (mkParticle p 0) sys in
    ring_loop position radius u v number todo' (S i) sys'
      {| circulation := circulation ring;
         indices := indices ring ++ [num];
         rflag := rflag ring |}
  end.

Definition addRing (position : Vec3 Real) (circ radius : Real) (normal : Vec3 Real)
  (number : nat) (s : System) : System :=
  let '(u, v) := ring_basis normal in
  let '(sys, ring) :=
    ring_loop position radius u v number number 0 (psys s) (mkRing circ [] 0) in
  {| psys := sys; mSegments := mSegments s ++ [ring] |}.

(** *** remesh

    interpol.h is not among the sources: [hermiteSpline] and [crTangent]
    are parameters. *)

Section Remesh.
Variable hermiteSpline : Vec3 Real -> Vec3 Real -> Vec3 Real -> Vec3 Real -> Real -> Vec3 Real.
Variable crTangent : Vec3 Real -> Vec3 Real -> Vec3 Real -> Vec3 Real.

(** [insert.insert(pair<int,int>(k, v))] on a [std::map]: no effect when
    the key is present. *)
Definition map_insert_new (k v : Z) (m : gmap Z Z) : gmap Z Z :=
  match m !! k with
  | Some _ => m
  | None => <[k := v]> m
  end.

(** The body of the scan at edge [j]; the state is the particle store,
    the [insert] map and [offset]. *)
Definition scan_edge (maxLen2 : Real) (r : Ring)
  (st : @ParticleSystem Real * gmap Z Z * Z) (j : nat)
  : option (@ParticleSystem Real * gmap Z Z * Z) :=
  let '(sys, ins, offset) := st in
  i0 ← idx0 r (Z.of_nat j); p0 ← pos_at (mData sys) i0;
  i1 ← idx1 r (Z.of_nat j); p1 ← pos_at (mData sys) i1;
  let l2 := normSquare (vsub p1 p0) in
  if fltb maxLen2 l2 then
    im ← idx r (Z.of_nat j - 1); p_1 ← pos_at (mData sys) im;
    i2 ← idx r (Z.of_nat j + 2); p2 ← pos_at (mData sys) i2;
    let mp := hermiteSpline p0 p1 (crTangent p_1 p0 p1) (crTangent p0 p1 p2) (flit 5 10) in
    let '(sys', num) := add (mkParticle mp 0) sys in
    Some (sys', map_insert_new (Z.of_nat j + offset) num ins, offset + 1)
  else Some (sys, ins, offset).

(** [for (int j=newLen-1; j>=0; j--)] of the renumbering; [n] is [j+1]. *)
Fixpoint splice (ins : gmap Z Z) (n : nat) (num : Z) (inds : list Z) : option (list Z) :=
  match n with
  | O => Some inds
  | S j =>
    match ins !! Z.of_nat j with
    | None => x ← at_index inds num; splice ins j (num - 1) (<[j := x]> inds)
    | Some v => splice ins j num (<[j := v]> inds)
    end
  end.

(** The [for(;;)] on one ring.  [fuel] bounds the number of passes;
    running out of it, like an access outside a vector, gives [None]. *)
Fixpoint remesh_ring (fuel : nat) (maxLen2 : Real) (sys : @ParticleSystem Real) (r : Ring)
  : option (@ParticleSystem Real * Ring) :=
  match fuel with
  | O => None
  | S fuel' =>
    let oldLen := length (indices r) in
    '(sys', ins, _) ← for_loop (scan_edge maxLen2 r) oldLen 0 (sys, ∅, 1);
    if decide (size ins = 0)%nat then Some (sys', r)
    else
      let newLen := (oldLen + size ins)%nat in
      inds ← splice ins newLen (Z.of_nat oldLen - 1)
                    (indices r ++ replicate (size ins) 0);
      remesh_ring fuel' maxLen2 sys'
        {| circulation := circulation r; indices := inds; rflag := rflag r |}
  end.

(** [for (int i=0; i < segSize(); i++)]; [todo] counts the rings left. *)
Fixpoint remesh_loop (fuel : nat) (maxLen2 : Real) (todo i : nat) (s : System)
  : option System :=
  match todo with
  | O => Some s
  | S todo' =>
    r ← mSegments s !! i;
    '(sys', r') ← remesh_ring fuel maxLen2 (psys s) r;
    remesh_loop fuel maxLen2 todo' (S i)
      {| psys := sys'; mSegments := <[i := r']> (mSegments s) |}
  end.

Definition remesh (fuel : nat) (maxLen : Real) (s : System) : option System :=
  remesh_loop fuel (fmul maxLen maxLen) (length (mSegments s)) 0 s.

End Remesh.

(** *** doublyDiscreteUpdate

    [FilamentKernel], used by [evaluateRefU], is declared nowhere in the
    sources: its [evaluate] is a parameter. *)

Section Darboux.
Variable filamentKernel :
  Vec3 Real -> Vec3 Real -> Real -> Real -> Real -> Real -> Vec3 Real -> Vec3 Real.

Definition evaluateRefU (N : nat) (L circ reg : Real) : option Real :=
  let l := fdiv L (fint (Z.of_nat N)) in
  let r := fdiv (fmul (flit 5 10) l) (fsin (fdiv M_PI (fint (Z.of_nat N)))) in
  let angle i := fdiv (fmul (fmul (flit 2 1) M_PI) (fint (Z.of_nat i))) (fint (Z.of_nat N)) in
  let pos := (λ i, mkVec3 (fmul r (fcos (angle i))) (fmul r (fsin (angle i))) (fint 0))
               <$> seq 0 N in
  sum ← for_loop
    (λ sum i,
       a ← pos !! i; b ← pos !! S i; x ← pos !! 0%nat;
       Some (vadd sum (filamentKernel a b circ (fint 1) (flit 10000000000 1) reg x)))
    (N - 2) 1 vzero;
  Some (norm sum).

Definition fwd_failed : string := "Fwd Darboux correction failed, skipped.".
Definition bwd_failed : string := "Bwd Darboux correction failed, skipped.".

(** What [doublyDiscreteUpdate] computes for one ring before the two
    transforms: the curve [gamma], the edge length [l] and [ra]. *)
Definition ring_params (dt reg : Real) (data : list Particle) (r : Ring)
  : option (list (Vec3 Real) * Real * Real) :=
  let N := length (indices r) in
  L ← for_loop
    (λ L i,
       i0 ← idx0 r (Z.of_nat i); p0 ← pos_at data i0;
       i1 ← idx1 r (Z.of_nat i); p1 ← pos_at data i1;
       Some (fadd L (norm (vsub p0 p1))))
    N 0 (fint 0);
  gamma ← mapM (pos_at data) (indices r);
  let U := fmul (fdiv (fmul (flit 5 10) (circulation r)) L)
                (fsub (flog (fdiv (fmul (flit 4 1) L) (fmul M_PI reg))) (fint 1)) in
  Ur ← evaluateRefU N L (circulation r) reg;
  let d := fmul (fmul (flit 5 10) dt) (fsub U Ur) in
  let l := fsqrt (fadd (square (fdiv L (fint (Z.of_nat N)))) (square d)) in
  let ra := fmul d (ftan (fmul M_PI (fsub (flit 5 10) (fdiv (fint 1) (fint (Z.of_nat N)))))) in
  Some (gamma, l, ra).

(** [mData[r.indices[i]].pos = gamma[i]] for all [i]. *)
Fixpoint copy_back (inds : list Z) (gamma : list (Vec3 Real)) (data : list Particle)
  : option (list Particle) :=
  match inds, gamma with
  | k :: inds', g :: gamma' =>
    d ← at_index data k;
    copy_back inds' gamma' (<[Z.to_nat k := mkParticle g (flag d)]> data)
  | [], _ => Some data
  | _ :: _, [] => None
  end.

(** The loop body for ring [r]; the state is the particle vector and the
    text written to [cout]. *)
Definition update_ring (dt reg : Real) (st : list Particle * list string) (r : Ring)
  : option (list Particle * list string) :=
  let '(data, out) := st in
  if negb (Z.land (rflag r) PDELETE =? 0) then Some (data, out)
  else
    '(gamma, l, ra) ← ring_params dt reg data r;
    let eta := replicate (length (indices r)) vzero in
    '(ok1, eta') ← darboux gamma eta l ra;
    if negb ok1 then Some (data, out ++ [fwd_failed])
    else
      '(ok2, gamma') ← darboux eta' gamma l (fneg ra);
      if negb ok2 then Some (data, out ++ [bwd_failed])
      else data' ← copy_back (indices r) gamma' data; Some (data', out).

Fixpoint update_rings (dt reg : Real) (rings : list Ring) (st : list Particle * list string)
  : option (list Particle * list string) :=
  match rings with
  | [] => Some st
  | r :: rest => st' ← update_ring dt reg st r; update_rings dt reg rest st'
  end.

(** [doublyDiscreteUpdate(reg)], with the solver's [dt] and the text
    already on [cout] as inputs. *)
Definition doublyDiscreteUpdate (dt reg : Real) (s : System) (out : list string)
  : option (System * list string) :=
  '(data, out') ← update_rings dt reg (mSegments s) (mData (psys s), out);
  Some ({| psys := {| mData := data; mDeletes := mDeletes (psys s);
                      mDeleteChunk := mDeleteChunk (psys s) |};
           mSegments := mSegments s |}, out').

End Darboux.

(** *** KnAdvectInGrid

    The grids and the integrators belong to other parts of the solver:
    [integrateMeshMAC], [isInBounds] and [isObstacle] are parameters. *)

Inductive IntegrationMode := EULER | RK2 | RK4.

Section Advect.
Context {MACGrid FlagGrid : Type}.
Variable integrateMeshMAC : IntegrationMode -> Vec3 Real -> MACGrid -> Real -> Vec3 Real.
Variable isInBounds : FlagGrid -> Vec3 Real -> Z -> bool.
Variable isObstacle : FlagGrid -> Vec3 Real -> bool.

(** The kernel body on the record of particle [i]. *)
Definition KnAdvectInGrid (mode : IntegrationMode) (vel : MACGrid) (flaggrid : FlagGrid)
  (dt : Real) (d : Particle) : Particle :=
  if negb (active d) then d
  else
    let p := vadd (pos d) (integrateMeshMAC mode (pos d) vel dt) in
    if (negb (isInBounds flaggrid p 1) || isObstacle flaggrid p) && fltb (fint 5) (vx p)
    then mkParticle p (Z.lor (flag d) PDELETE)
    else mkParticle p (flag d).

(** [advectInGrid]: the kernel over all particles, [None] for the thrown
    [Error("invalid integration mode")]. *)
Definition advectInGrid (flaggrid : FlagGrid) (vel : MACGrid) (dt : Real)
  (integrationMode : option IntegrationMode) (s : @ParticleSystem Real)
  : option (@ParticleSystem Real) :=
  mode ← integrationMode;
  Some {| mData := KnAdvectInGrid mode vel flaggrid dt <$> mData s;
          mDeletes := mDeletes s; mDeleteChunk := mDeleteChunk s |}.

End Advect.

End Filaments.

(** ** Interpolation helpers

    interpol.h is not among the sources.  The remesher takes its two
    functions as parameters; these definitions are used where it is run
    on concrete data. *)

Section Interpolation.
Context {Real : Type} {ops : RealOps Real}.

(** Modelled from the spec: [crTangent] of the absent interpol.h, the
    Catmull-Rom tangent at [b] between [a] and [c]. *)
Definition crTangent (a b c : Vec3 Real) : Vec3 Real :=
  vscale (flit 5 10) (vsub c a).

(** Modelled from the spec: [hermiteSpline] of the absent interpol.h, the
    cubic Hermite interpolation between [p0] and [p1] with tangents [m0]
    and [m1]. *)
Definition hermiteSpline (p0 p1 m0 m1 : Vec3 Real) (t : Real) : Vec3 Real :=
  let t2 := fmul t t in
  let t3 := fmul t2 t in
  vadd (vadd (vadd
    (vscale (fadd (fsub (fmul (flit 2 1) t3) (fmul (flit 3 1) t2)) (flit 1 1)) p0)
    (vscale (fadd (fsub t3 (fmul (flit 2 1) t2)) t) m0))
    (vscale (fadd (fmul (flit (-2) 1) t3) (fmul (flit 3 1) t2)) p1))
    (vscale (fsub t3 t2) m1).

End Interpolation.

(** ** Two carriers for [Real]

    The exact one: the real numbers, with the comparison decided by
    [Rlt_dec]. *)

#[export] Instance R_ops : RealOps R := {|
  flit n d := (IZR n / IZR d)%R;
  fadd := Rplus; fsub := Rminus; fmul := Rmult; fdiv := Rdiv;
  fneg := Ropp; fsqrt := sqrt;
  fltb a b := if Rlt_dec a b then true else false
|}.

#[export] Instance R_libm : LibM R := {|
  fsin := sin; fcos := cos; ftan := tan; flog := ln; M_PI := PI
|}.

(** The machine one: binary64 with the IEEE operations of the kernel, for
    running the code on concrete inputs. *)

Abbreviation float := PrimFloat.float.

Definition float_of_Z (n : Z) : float :=
  if n <? 0 then PrimFloat.opp (PrimFloat.of_uint63 (Uint63.of_Z (- n)))
  else PrimFloat.of_uint63 (Uint63.of_Z n).

#[export] Instance float_ops : RealOps float := {|
  flit n d := PrimFloat.div (float_of_Z n) (float_of_Z d);
  fadd := PrimFloat.add; fsub := PrimFloat.sub; fmul := PrimFloat.mul;
  fdiv := PrimFloat.div; fneg := PrimFloat.opp; fsqrt := PrimFloat.sqrt;
  fltb := PrimFloat.ltb
|}.

(** There is no math library for the kernel's floats.  The stand-ins are
    truncated power series (sine and cosine around 0, the logarithm
    through the inverse hyperbolic tangent); they are good enough near
    the expansion point and are only used to run the code. *)

Fixpoint series (term : float) (x2 : float) (k : Z) (n : nat) (acc : float) : float :=
  match n with
  | O => acc
  | S n' =>
    let term' := PrimFloat.div (PrimFloat.mul (PrimFloat.opp term) x2)
                               (float_of_Z ((k + 1) * (k + 2))) in
    series term' x2 (k + 2) n' (PrimFloat.add acc term')
  end.

Definition float_sin (x : float) : float := series x (PrimFloat.mul x x) 1 16 x.
Definition float_cos (x : float) : float :=
  series (float_of_Z 1) (PrimFloat.mul x x) 0 16 (float_of_Z 1).

Fixpoint atanh_series (z z2 : float) (k : Z) (n : nat) (acc : float) : float :=
  match n with
  | O => acc
  | S n' =>
    let z' := PrimFloat.mul z z2 in
    atanh_series z' z2 (k + 2) n'
      (PrimFloat.add acc (PrimFloat.div z' (float_of_Z (k + 2))))
  end.

Definition float_log (x : float) : float :=
  let z := PrimFloat.div (PrimFloat.sub x (float_of_Z 1)) (PrimFloat.add x (float_of_Z 1)) in
  PrimFloat.mul (float_of_Z 2) (atanh_series z (PrimFloat.mul z z) 1 40 z).

#[export] Instance float_libm : LibM float := {|
  fsin := float_sin; fcos := float_cos;
  ftan x := PrimFloat.div (float_sin x) (float_cos x);
  flog := float_log;
  M_PI := PrimFloat.div (float_of_Z 3141592653589793) (float_of_Z 1000000000000000)
|}.

(** * Vocabulary of the statements and concrete data *)

Section StoreVocabulary.
Context {Real : Type}.
Implicit Types (data orig : list (@BasicParticleData Real)).

(** Index [k] names a slot of [data] that holds a live record. *)
Definition refers_live data (k : Z) : Prop :=
  0 <= k < Z.of_nat (length data)
  /\ exists d, data !! Z.to_nat k = Some d /\ active d = true.

(** Every index stored in every live ring names a live particle. *)
Definition live_rings_ok (s : @ConnectedParticleSystem Real) : Prop :=
  forall r, r ∈ mSegments s -> is_deleted (rflag r) = false ->
  forall k, k ∈ indices r -> refers_live (mData (psys s)) k.


(** The loop invariant of [ParticleSystem::compress] at slot [i] with read
    cursor [nr]: slots from [nr] on and slots below [i] carry no delete
    flag, and the live records below the cursor are those of the original
    vector. *)
Record compress_inv orig (i nr : nat) data : Prop := {
  ci_len : length data = length orig;
  ci_nr : (nr <= length data)%nat;
  ci_tail : forall k d, (nr <= k)%nat -> data !! k = Some d -> active d = true;
  ci_head : forall k d, (k < i)%nat -> (k < nr)%nat -> data !! k = Some d -> active d = true;
  ci_perm : filter (λ x, active x = true) (take nr data)
              ≡ₚ filter (λ x, active x = true) orig
}.

(** Invariant of [reorder] at slot [i] with read cursor [nr]: the slots
    in [i, nr) are untouched; every slot [j] below both has its
    back-number [k], holds the original record [k], and [k] is [j] itself
    or a vacated tail slot; back-numbers are pairwise distinct; every
    live original record outside [i, nr) has been given a slot. *)
Record reorder_inv orig (i nr : nat) data (rb : list Z) : Prop := {
  ri_len : length data = length orig;
  ri_rb : length rb = length orig;
  ri_nr : (nr <= length orig)%nat;
  ri_mid : forall j, (i <= j < nr)%nat -> data !! j = orig !! j;
  ri_low : forall j, (j < i)%nat -> (j < nr)%nat ->
      exists k, rb !! j = Some (Z.of_nat k) /\ (k < length orig)%nat
        /\ data !! j = orig !! k /\ (k = j \/ (nr <= k)%nat);
  ri_inj : forall j1 j2 k, (j1 < i)%nat -> (j1 < nr)%nat -> (j2 < i)%nat -> (j2 < nr)%nat ->
      rb !! j1 = Some k -> rb !! j2 = Some k -> j1 = j2;
  ri_cov : forall k d, orig !! k = Some d -> active d = true ->
      (k < i)%nat \/ (nr <= k)%nat ->
      exists j, (j < i)%nat /\ (j < nr)%nat /\ rb !! j = Some (Z.of_nat k)
}.

(** The bookkeeping of deletions: flagged records are counted by
    [mDeletes], which stays within [mDeleteChunk], which stays within a
    twentieth of the size. *)
Definition chunk_inv (s : @ParticleSystem Real) : Prop :=
  dead_count s <= mDeletes s /\ mDeletes s <= mDeleteChunk s
  /\ mDeleteChunk s <= Z.quot (sys_size s) DELETE_PART.

(** A call that brings no delete flag in from outside. *)
Definition op_clean (o : @sys_op Real) : Prop :=
  match o with SysAdd d => active d = true | _ => True end.

(** Invariant of [ParticleSystem::compress] about where records sit:
    while slot [i] is refilled with read cursor [nr], the slots strictly
    between the two are untouched, a live original record in a slot up to
    [i] is still there, and every slot below the cursor holds the original
    record of the same slot or of a slot from the cursor on. *)
Record stable_inv orig (i nr : nat) data : Prop := {
  si_len : length data = length orig;
  si_mid : forall k, (i < k < nr)%nat -> data !! k = orig !! k;
  si_low : forall k d, (k <= i)%nat -> (k < nr)%nat ->
      orig !! k = Some d -> active d = true -> data !! k = Some d;
  si_src : forall k, (k < nr)%nat -> (k < length orig)%nat ->
      exists m, (m < length orig)%nat /\ data !! k = orig !! m /\ (m = k \/ (nr <= m)%nat)
}.

(** [data'] is [data] with some positions replaced, in slots named by
    [inds] only; sizes and flags are as before. *)
Definition moved_only (inds : list Z) data data' : Prop :=
  length data' = length data
  /\ forall (k : nat) d, data !! k = Some d ->
       exists d', data' !! k = Some d' /\ flag d' = flag d
                  /\ (Z.of_nat k ∉ inds -> d' = d).

(** The indices stored in the rings without the delete flag. *)
Definition live_indices (rings : list (@VortexRing Real)) : list Z :=
  concat ((λ r, if is_deleted (rflag r) then [] else indices r) <$> rings).

(** The text on [cout] grew by failure messages only. *)
Definition only_failures (out out' : list string) : Prop :=
  exists msgs, out' = out ++ msgs
    /\ Forall (λ m, m = fwd_failed \/ m = bwd_failed) msgs.

(** Number of indices stored in all rings. *)
Definition total_indices (s : @ConnectedParticleSystem Real) : nat :=
  sum_list ((λ r, length (indices r)) <$> mSegments s).

(** [x] is an index of the particles that [s'] has and [s] had not. *)
Definition fresh_in (s s' : @ConnectedParticleSystem Real) (x : Z) : Prop :=
  sys_size (psys s) <= x < sys_size (psys s').

End StoreVocabulary.

Section KernelVocabulary.
Context {Real : Type} {ops : RealOps Real}.
Implicit Types (fi : @FilamentIntegrator Real) (xi p : Vec3 Real) (r : @VortexRing Real)
  (data : list (@BasicParticleData Real)).

(** Squared distance to the query above the squared cutoff. *)
Definition far fi xi p : Prop := fltb (mCutoff2 fi) (normSquare (vsub p xi)) = true.

(** Squared distance to the query below the minimum 1e-6. *)
Definition near xi p : Prop := fltb (normSquare (vsub p xi)) (flit 1 1000000) = true.

(** Edge [j] of ring [r] is defined on [data] and is not longer than the
    threshold, as the scan tests it. *)
Definition edge_short (maxLen2 : Real) data r (j : nat) : Prop :=
  exists i0 p0 i1 p1,
    idx0 r (Z.of_nat j) = Some i0 /\ pos_at data i0 = Some p0
    /\ idx1 r (Z.of_nat j) = Some i1 /\ pos_at data i1 = Some p1
    /\ fltb maxLen2 (normSquare (vsub p1 p0)) = false.

(** All edges of [r] are. *)
Definition ring_short (maxLen2 : Real) data r : Prop :=
  forall j, (j < length (indices r))%nat -> edge_short maxLen2 data r j.

(** The integrator [fi] over another list of rings. *)
Definition with_rings fi (rings : list (@VortexRing Real)) : @FilamentIntegrator Real :=
  {| mDt := mDt fi; mCutoff2 := mCutoff2 fi; mA2 := mA2 fi; mStrength := mStrength fi;
     mRings := rings |}.

(** The rings without the delete flag. *)
Definition live_rings (rings : list (@VortexRing Real)) : list (@VortexRing Real) :=
  filter (λ r, is_deleted (rflag r) = false) rings.

(** Every index of [r] names a slot of the position vector [y]. *)
Definition ring_in_range (y : list (Vec3 Real)) r : Prop :=
  forall k, k ∈ indices r -> 0 <= k < Z.of_nat (length y).

End KernelVocabulary.

Section RemeshVocabulary.
Context {Real : Type} {ops : RealOps Real}.
Variable hermite : Vec3 Real -> Vec3 Real -> Vec3 Real -> Vec3 Real -> Real -> Vec3 Real.
Variable tangent : Vec3 Real -> Vec3 Real -> Vec3 Real -> Vec3 Real.
Implicit Types (r : @VortexRing Real) (data : list (@BasicParticleData Real)).

(** The index list after one pass: every old index, followed by the new
    particle of its edge when the edge was split. *)
Definition layout (inds : list Z) (mids : list (option Z)) : list (bool * Z) :=
  concat (zip_with (λ x m, (false, x) :: match m with Some v => [(true, v)] | None => [] end)
                   inds mids).
Definition interleave (inds : list Z) (mids : list (option Z)) : list Z :=
  snd <$> layout inds mids.

(** The [insert] map that belongs to a layout: the positions of the new
    particles, each with its index. *)
Definition map_of_layout (ins : gmap Z Z) (L : list (bool * Z)) : Prop :=
  forall q : Z, ins !! q =
    if 0 <=? q then
      match L !! Z.to_nat q with
      | Some (true, v) => Some v
      | _ => None
      end
    else None.

Definition olds (L : list (bool * Z)) : list Z :=
  snd <$> filter (λ e, fst e = false) L.

(** [ins] and the layout agree below the length of the layout. *)
Definition agrees (ins : gmap Z Z) (L : list (bool * Z)) : Prop :=
  forall q, (q < length L)%nat ->
    ins !! Z.of_nat q = match L !! q with Some (true, v) => Some v | _ => None end.

(** Edge [j] of [r] compares longer than the threshold on [data], and
    [data'] is [data] with the Hermite midpoint of that edge appended, in
    slot [v]. *)
Definition edge_split (maxLen2 : Real) data r (j : nat) (v : Z) data' : Prop :=
  exists i0 p0 i1 p1 im p_1 i2 p2,
    idx0 r (Z.of_nat j) = Some i0 /\ pos_at data i0 = Some p0
    /\ idx1 r (Z.of_nat j) = Some i1 /\ pos_at data i1 = Some p1
    /\ fltb maxLen2 (normSquare (vsub p1 p0)) = true
    /\ idx r (Z.of_nat j - 1) = Some im /\ pos_at data im = Some p_1
    /\ idx r (Z.of_nat j + 2) = Some i2 /\ pos_at data i2 = Some p2
    /\ v = Z.of_nat (length data)
    /\ data' = data ++ [mkParticle (hermite p0 p1 (tangent p_1 p0 p1) (tangent p0 p1 p2)
                                            (flit 5 10)) 0].

(** What the scan did from edge [j] on, one entry per edge: [Some v] for
    an edge that was split with its midpoint stored in slot [v], [None]
    for an edge that was short. *)
Fixpoint scan_steps (maxLen2 : Real) r (j : nat) data (mids : list (option Z)) data'
  : Prop :=
  match mids with
  | [] => data' = data
  | m :: rest =>
    exists data1,
      match m with
      | Some v => edge_split maxLen2 data r j v data1
      | None => data1 = data /\ edge_short maxLen2 data r j
      end
      /\ scan_steps maxLen2 r (S j) data1 rest data'
  end.

End RemeshVocabulary.

Section ExactVocabulary.
Local Open Scope R_scope.
Implicit Types (n u v : Vec3 R).




(** The start value [Vec3(0,0,l)] of the power method. *)
Definition seed (l : R) : Vec3 R := mkVec3 (fint 0) (fint 0) l.


(** The unit square in the plane z = 0. *)
Definition unit_square : list (Vec3 R) :=
  [mkVec3 0 0 0; mkVec3 1 0 0; mkVec3 1 1 0; mkVec3 0 1 0].

(** The unit normal opposite to the reference axis [worldup = (0,1,0)]. *)
Definition down : Vec3 R := mkVec3 0 (-1) 0.

(** [u] and [v] are unit vectors, orthogonal to each other and to [n]. *)
Definition frame n u v : Prop :=
  normSquare u = 1 /\ normSquare v = 1 /\ dot u v = 0 /\ dot n u = 0 /\ dot n v = 0.

(** The squared norm of a quaternion. *)
Definition qnorm2 (q : @Quaternion R) : R :=
  qx q * qx q + qy q * qy q + qz q * qz q + qw q * qw q.


End ExactVocabulary.

(** ** Concrete stores

    Positions are irrelevant to the store, so the examples take integers
    for [Real]. *)

Definition pt (n : Z) : @BasicParticleData Z := mkParticle (mkVec3 n 0 0) 0.

Definition no_oob : Z -> Z := λ _, -1.

Definition empty_store : @ConnectedParticleSystem Z := mkCSys (mkSys [] 0 0) [].

(** [n] insertions into a fresh store. *)
Definition fill (n : nat) : @ConnectedParticleSystem Z :=
  fold_left (λ s i, fst (connected_add (pt (Z.of_nat i)) s)) (seq 0 n) empty_store.

(** A three-particle store with a dead middle particle and one live ring
    on the two others. *)
Definition small_store : @ConnectedParticleSystem Z :=
  mkCSys (mkSys [pt 0; mkParticle (mkVec3 1 0 0) PDELETE; pt 2] 1 0)
         [mkRing 1 [0; 2] 0].




(** Twenty-one insertions into a plain store, then [kill(0)] and
    [kill(5)]: the second kill exceeds the threshold 1. *)
Definition twenty_one_two_kills : list (@sys_op Z) :=
  ((λ i, SysAdd (pt (Z.of_nat i))) <$> seq 0 21) ++ [SysKill 0; SysKill 5].

(** Three live particles and a live ring on the first and the last. *)
Definition clean_store : @ConnectedParticleSystem Z :=
  mkCSys (psys (fill 3)) [mkRing 1 [0; 2] 0].

(** ** Concrete data on machine floats *)

Definition fv (a b c : Z) : Vec3 float :=
  mkVec3 (float_of_Z a) (float_of_Z b) (float_of_Z c).

(** The unit square in the plane z = 0. *)
Definition square_pts : list (Vec3 float) := [fv 0 0 0; fv 1 0 0; fv 1 1 0; fv 0 1 0].

(** A live ring on the square and a dead ring with stale indices;
    regularisation 0.1, cutoff 2. *)
Definition square_rings : list (@VortexRing float) :=
  [mkRing (flit 1 1) [0; 1; 2; 3] 0; mkRing (flit 1 1) [7; 8] PDELETE].

Definition square_fi : @FilamentIntegrator float :=
  mkFilamentIntegrator (flit 1 10) (flit 1 10) (flit 2 1) (flit 1 1) square_rings.

(** Four points, three of them on the x axis, and one ring through them;
    regularisation 0, cutoff 20. *)
Definition line_pts : list (Vec3 float) := [fv 0 0 0; fv 1 0 0; fv 2 0 0; fv 1 1 0].

Definition line_fi : @FilamentIntegrator float :=
  mkFilamentIntegrator (flit 1 10) (flit 0 1) (flit 20 1) (flit 1 1)
                       [mkRing (flit 1 1) [0; 1; 2; 3] 0].

(** Two particles at the same place joined in a ring, and two more. *)
Definition flat_data : list (@BasicParticleData float) :=
  [mkParticle (fv 1 2 3) 0; mkParticle (fv 1 2 3) 0;
   mkParticle (fv 0 0 0) 0; mkParticle (fv 1 0 0) 0].

Definition flat_ring : @VortexRing float := mkRing (flit 1 1) [0; 1] 0.

Definition no_kernel :
  Vec3 float -> Vec3 float -> float -> float -> float -> float -> Vec3 float -> Vec3 float :=
  λ _ _ _ _ _ _ _, vzero.

(** The curve of that ring. *)
Definition flat_gamma : list (Vec3 float) := [fv 1 2 3; fv 1 2 3].

Definition nan3 : Vec3 float := mkVec3 PrimFloat.nan PrimFloat.nan PrimFloat.nan.

(** A toy grid: the flow moves every particle by [dt] along x, the domain
    is x < 4, there are no obstacles. *)
Definition toy_flow : IntegrationMode -> Vec3 float -> unit -> float -> Vec3 float :=
  λ _ _ _ dt, mkVec3 dt (float_of_Z 0) (float_of_Z 0).

Definition toy_bounds : unit -> Vec3 float -> Z -> bool :=
  λ _ p _, PrimFloat.ltb (vx p) (float_of_Z 4).

Definition toy_obstacle : unit -> Vec3 float -> bool := λ _ _, false.

(** Two particles 4 apart and one ring through them that carries the
    delete flag. *)
Definition dead_pair : @ConnectedParticleSystem float :=
  mkCSys (mkSys [mkParticle (fv 0 0 0) 0; mkParticle (fv 4 0 0) 0] 0 0)
         [mkRing (flit 1 1) [0; 1] PDELETE].

(** The unit square and a fifth particle, a live ring through the corners
    of the square and a flagged ring with a stale index. *)
Definition square_store : @ConnectedParticleSystem float :=
  mkCSys (mkSys ((λ p, mkParticle p 0) <$> (square_pts ++ [fv 5 5 5])) 0 0)
         [mkRing (flit 1 1) [0; 1; 2; 3] 0; mkRing (flit 1 1) [4; 7] PDELETE].

(** The same store with the corners of the square two places on. *)
Definition square_store_moved : @ConnectedParticleSystem float :=
  mkCSys (mkSys ((λ p, mkParticle p 0) <$> [fv 1 1 0; fv 0 1 0; fv 0 0 0; fv 1 0 0; fv 5 5 5])
                0 0)
         (mSegments square_store).

(** Two particles 4 apart joined by a live ring, and the store after
    [remesh(3)]. *)
Definition live_pair : @ConnectedParticleSystem float :=
  mkCSys (mkSys [mkParticle (fv 0 0 0) 0; mkParticle (fv 4 0 0) 0] 0 0)
         [mkRing (flit 1 1) [0; 1] 0].

Definition live_pair_remeshed : @ConnectedParticleSystem float :=
  mkCSys (mkSys [mkParticle (fv 0 0 0) 0; mkParticle (fv 4 0 0) 0;
                 mkParticle (fv 2 0 0) 0; mkParticle (fv 2 0 0) 0] 0 0)
         [mkRing (flit 1 1) [0; 2; 1; 3] 0].

(** ** Concrete data on exact reals *)

(** Two points on the z axis. *)
Definition zaxis_pair : list (Vec3 R) := [mkVec3 0 0 0; mkVec3 0 0 2]%R.



(** The unit normal along z, and an empty store over the reals. *)
Definition ez : Vec3 R := (mkVec3 0 0 1)%R.

Definition empty_exact : @ConnectedParticleSystem R := mkCSys (mkSys [] 0 0) [].

(** * Properties *)

(** ** Compaction of the plain particle store *)

Section StoreFacts.
Context {Real : Type}.
Implicit Types (d t : @BasicParticleData Real) (data orig : list (@BasicParticleData Real)).

Lemma is_deleted_lor f : is_deleted (Z.lor f PDELETE) = true.
Proof.
  unfold is_deleted. rewrite Z.land_lor_distr_l, Z.land_diag.
  destruct (Z.lor (Z.land f PDELETE) PDELETE =? 0) eqn:E; [|done].
  apply Z.eqb_eq, Z.lor_eq_0_iff in E as [_ E]. done.
Qed.

(** Overwriting a dead slot with [t] leaves the same live records as
    appending [t]. *)
Lemma filter_active_insert_dead data i d t :
  data !! i = Some d -> active d = false ->
  filter (λ x, active x = true) (<[i:=t]> data)
    ≡ₚ filter (λ x, active x = true) (data ++ [t]).
Proof.
  revert i. induction data as [|x l IH]; intros [|i] Hi Hd; simplify_eq/=.
  - rewrite (filter_cons_False _ d) by (rewrite Hd; done).
    apply filter_Permutation. by rewrite Permutation_app_comm.
  - rewrite !filter_cons. destruct (decide _); rewrite (IH i) by done; done.
Qed.

Lemma filter_active_skip_dead data d :
  active d = false ->
  filter (λ x, active x = true) (data ++ [d]) = filter (λ x, active x = true) data.
Proof.
  intros Hd. rewrite filter_app, filter_cons_False by (rewrite Hd; done).
  by rewrite filter_nil, app_nil_r.
Qed.

Lemma compress_inv_init orig : compress_inv orig 0 (length orig) orig.
Proof.
  split; try done; try lia.
  - intros k d Hk Hd. apply lookup_lt_Some in Hd. lia.
  - by rewrite firstn_all.
Qed.

Lemma refill_inv orig nr : forall i data,
  (i < length orig)%nat ->
  compress_inv orig i nr data ->
  exists data' nr', refill i nr data = Some (data', nr')
    /\ compress_inv orig (S i) nr' data'.
Proof.
  induction nr as [|n IH]; intros i data Hi [Hlen Hnr Htail Hhead Hperm].
  - destruct (lookup_lt_is_Some_2 data i) as [d Hd]; [lia|].
    assert (active d = true) as Hact by (eapply Htail; [|done]; lia).
    exists data, 0%nat. split.
    + simpl. rewrite Hd. unfold active in Hact.
      destruct (is_deleted (flag d)); done.
    + split; try done. intros; lia.
  - destruct (lookup_lt_is_Some_2 data i) as [d Hd]; [lia|].
    simpl. rewrite Hd.
    destruct (is_deleted (flag d)) eqn:Hdead.
    + assert (i < S n)%nat as Hin.
      { destruct (decide (i < S n)%nat); [done|].
        assert (active d = true) as Hact by (eapply Htail; [|done]; lia).
        unfold active in Hact. rewrite Hdead in Hact. done. }
      destruct (lookup_lt_is_Some_2 data n) as [t Ht]; [lia|].
      rewrite Ht. apply IH; [done|].
      assert (active d = false) as Hd' by (unfold active; by rewrite Hdead).
      split.
      * by rewrite !length_insert.
      * rewrite !length_insert. lia.
      * intros k x Hk Hx. destruct (decide (k = n)) as [->|Hkn].
        -- rewrite list_lookup_insert_eq in Hx by (rewrite length_insert; lia).
           by simplify_eq.
        -- rewrite !list_lookup_insert_ne in Hx by lia.
           eapply Htail; [|done]. lia.
      * intros k x Hk1 Hk2 Hx.
        rewrite !list_lookup_insert_ne in Hx by lia.
        eapply Hhead; [done| |done]. lia.
      * rewrite <- Hperm. rewrite take_insert_ge by lia.
        rewrite (take_S_r data n t) by done.
        destruct (decide (i = n)) as [->|Hne].
        -- simplify_eq. rewrite take_insert_ge by lia.
           by rewrite filter_active_skip_dead.
        -- rewrite take_insert_lt by lia.
           apply (filter_active_insert_dead _ i d); [|done].
           rewrite lookup_take_lt by lia. done.
    + exists data, (S n). split; [done|]. split; try done.
      intros k x Hk1 Hk2 Hx. destruct (decide (k = i)) as [->|].
      * simplify_eq. unfold active. by rewrite Hdead.
      * eapply Hhead; [|done|done]. lia.
Qed.

Lemma compress_loop_inv orig todo : forall i nr data,
  (i + todo = length orig)%nat ->
  compress_inv orig i nr data ->
  exists data' nr', compress_loop todo i nr data = Some (data', nr')
    /\ compress_inv orig (length orig) nr' data'.
Proof.
  induction todo as [|todo IH]; intros i nr data Hsum Hinv.
  - exists data, nr. split; [done|]. by replace (length orig) with i by lia.
  - destruct (refill_inv orig nr i data) as (data1 & nr1 & Hr & Hinv1); [lia|done|].
    simpl. rewrite Hr. apply IH; [lia|done].
Qed.

Lemma filter_active_all data :
  (forall k d, data !! k = Some d -> active d = true) ->
  filter (λ x, active x = true) data = data.
Proof.
  induction data as [|x l IH]; intros H; [done|].
  rewrite filter_cons_True by (apply (H 0%nat); done).
  f_equal. apply IH. intros k d Hk. by apply (H (S k)).
Qed.

(** [ParticleSystem::compress] is defined on every store, keeps exactly
    the live records (as a multiset) and leaves no delete flag. *)
Lemma compress_spec (s : @ParticleSystem Real) :
  exists s', compress s = Some s'
    /\ mData s' ≡ₚ filter (λ x, active x = true) (mData s)
    /\ (forall d, d ∈ mData s' -> Z.land (flag d) PDELETE = 0)
    /\ mDeletes s' = 0
    /\ mDeleteChunk s' = Z.quot (sys_size s') DELETE_PART.
Proof.
  destruct (compress_loop_inv (mData s) (length (mData s)) 0 (length (mData s)) (mData s))
    as (data & nr & Hloop & [Hlen Hnr Htail Hhead Hperm]);
    [done|apply compress_inv_init|].
  unfold compress. rewrite Hloop. eexists; split; [done|]. simpl.
  assert (forall k d, resize nr data !! k = Some d -> active d = true) as Hall.
  { intros k d Hk. unfold resize in Hk. apply lookup_take_Some in Hk as [Hk Hlt].
    eapply Hhead; [|done|done]. apply lookup_lt_Some in Hk. lia. }
  repeat split; try done.
  - rewrite <- Hperm. unfold resize in *. by rewrite filter_active_all.
  - intros d [k Hk]%list_elem_of_lookup. apply Hall in Hk.
    unfold active, is_deleted in Hk. rewrite !negb_true_iff, negb_false_iff in Hk.
    by apply Z.eqb_eq.
Qed.


(** ** The reordering loop of the connected store *)

Lemma reorder_inv_init orig :
  reorder_inv orig 0 (length orig) orig (replicate (length orig) (-1)).
Proof.
  split; try done; try lia.
  - by rewrite length_replicate.
  - intros k d Hk _ [?|?]; [lia|]. apply lookup_lt_Some in Hk. lia.
Qed.

Lemma reorder_inv_live orig i nr data rb d :
  reorder_inv orig i nr data rb -> (i < nr)%nat ->
  data !! i = Some d -> is_deleted (flag d) = false ->
  reorder_inv orig (S i) nr data (<[i:=Z.of_nat i]> rb).
Proof.
  intros [Hlen Hrb Hnr Hmid Hlow Hinj Hcov] Hi Hd Hlive. split; try done.
  - by rewrite length_insert.
  - intros j Hj. apply Hmid. lia.
  - intros j Hj1 Hj2. destruct (decide (j = i)) as [->|Hne].
    + exists i. rewrite list_lookup_insert_eq by lia.
      repeat split; [lia| |by left]. apply Hmid. lia.
    + rewrite list_lookup_insert_ne by done. apply Hlow; lia.
  - intros j1 j2 k Hj1 Hj1' Hj2 Hj2' H1 H2.
    destruct (decide (j1 = i)) as [->|Hn1], (decide (j2 = i)) as [->|Hn2]; [done| | |].
    + rewrite list_lookup_insert_eq in H1 by lia. simplify_eq.
      rewrite list_lookup_insert_ne in H2 by done.
      destruct (Hlow j2) as (k & Hk & _ & _ & Hor); [lia..|]. rewrite Hk in H2.
      simplify_eq. lia.
    + rewrite list_lookup_insert_eq in H2 by lia. simplify_eq.
      rewrite list_lookup_insert_ne in H1 by done.
      destruct (Hlow j1) as (k & Hk & _ & _ & Hor); [lia..|]. rewrite Hk in H1.
      simplify_eq. lia.
    + rewrite list_lookup_insert_ne in H1, H2 by done.
      apply (Hinj j1 j2 k); lia || done.
  - intros k x Hk Hx Hor. destruct (decide (k = i)) as [->|Hne].
    + exists i. rewrite list_lookup_insert_eq by lia. repeat split; lia.
    + destruct (Hcov k x Hk Hx) as (j & Hj1 & Hj2 & Hj); [lia|].
      exists j. rewrite list_lookup_insert_ne by lia. repeat split; lia || done.
Qed.

Lemma reorder_inv_dead orig i nr data rb d t :
  reorder_inv orig i (S nr) data rb -> (i <= nr)%nat ->
  data !! i = Some d -> is_deleted (flag d) = true ->
  data !! nr = Some t ->
  reorder_inv orig (S i) nr (<[nr:=set_flag 0 t]> (<[i:=t]> data))
              (<[i:=Z.of_nat nr]> rb).
Proof.
  intros [Hlen Hrb Hnr Hmid Hlow Hinj Hcov] Hi Hd Hdead Ht.
  assert (orig !! i = Some d) as Hoi by (rewrite <- Hmid by lia; done).
  assert (orig !! nr = Some t) as Hon by (rewrite <- Hmid by lia; done).
  split.
  - by rewrite !length_insert.
  - by rewrite length_insert.
  - lia.
  - intros j Hj. rewrite !list_lookup_insert_ne by lia. apply Hmid. lia.
  - intros j Hj1 Hj2. destruct (decide (j = i)) as [->|Hne].
    + exists nr. rewrite list_lookup_insert_eq by lia.
      rewrite list_lookup_insert_ne by lia.
      rewrite list_lookup_insert_eq by lia.
      repeat split; [lia|done|by right].
    + rewrite !list_lookup_insert_ne by lia.
      destruct (Hlow j) as (k & Hk & Hk' & Hdk & Hor); [lia..|].
      exists k. repeat split; try done.
      destruct Hor as [->|?]; [by left|]. right.
      destruct (decide (k = nr)) as [->|]; [|lia].
      lia.
  - intros j1 j2 k Hj1 Hj1' Hj2 Hj2' H1 H2.
    destruct (decide (j1 = i)) as [->|Hn1], (decide (j2 = i)) as [->|Hn2]; [done| | |].
    + rewrite list_lookup_insert_eq in H1 by lia. simplify_eq.
      rewrite list_lookup_insert_ne in H2 by done.
      destruct (Hlow j2) as (k & Hk & _ & _ & Hor); [lia..|]. rewrite Hk in H2.
      simplify_eq. lia.
    + rewrite list_lookup_insert_eq in H2 by lia. simplify_eq.
      rewrite list_lookup_insert_ne in H1 by done.
      destruct (Hlow j1) as (k & Hk & _ & _ & Hor); [lia..|]. rewrite Hk in H1.
      simplify_eq. lia.
    + rewrite list_lookup_insert_ne in H1, H2 by done.
      apply (Hinj j1 j2 k); lia || done.
  - intros k x Hk Hx Hor.
    assert (k <> i) as Hki.
    { intros ->. simplify_eq. unfold active in Hx. by rewrite Hdead in Hx. }
    destruct (decide (k = nr)) as [->|Hkn].
    + exists i. rewrite list_lookup_insert_eq by lia. repeat split; lia.
    + destruct (Hcov k x Hk Hx) as (j & Hj1 & Hj2 & Hj); [lia|].
      exists j. rewrite list_lookup_insert_ne by lia. repeat split; lia || done.
Qed.

Lemma reorder_spec orig todo : forall i nr data rb,
  (i + todo = length orig)%nat ->
  reorder_inv orig i nr data rb ->
  exists data' rb' nr' i', reorder todo i nr data rb = Some (data', rb', nr')
    /\ (nr' <= i')%nat /\ reorder_inv orig i' nr' data' rb'.
Proof.
  induction todo as [|todo IH]; intros i nr data rb Hsum Hinv.
  - exists data, rb, nr, i. split; [done|]. split; [|done].
    destruct Hinv. lia.
  - simpl. destruct (Nat.ltb_spec i nr) as [Hlt|Hge].
    + pose proof (ri_len _ _ _ _ _ Hinv) as Hlen.
      pose proof (ri_nr _ _ _ _ _ Hinv) as Hnr.
      destruct (lookup_lt_is_Some_2 data i) as [d Hd]; [lia|]. rewrite Hd.
      destruct (is_deleted (flag d)) eqn:Hdead.
      * destruct nr as [|nr]; [lia|]. simpl.
        destruct (lookup_lt_is_Some_2 data nr) as [t Ht]; [lia|]. rewrite Ht.
        apply IH; [lia|]. eapply reorder_inv_dead; try done. lia.
      * apply IH; [lia|]. eapply reorder_inv_live; done.
    + exists data, rb, nr, i. done.
Qed.

(** Slots of the table that no later back-number names keep their
    value. *)
Lemma accel_keep rb k m : forall i table,
  (forall j, (i <= j < i + m)%nat -> rb !! j <> Some (Z.of_nat k)) ->
  accel m i rb table !! k = table !! k.
Proof.
  induction m as [|m IHm]; intros i table Hno; [done|].
  simpl. destruct (rb !! i) as [k'|] eqn:Hk'; [|done].
  rewrite IHm by (intros j Hj; apply Hno; lia).
  destruct (0 <=? k') eqn:Hpos; [|done].
  apply list_lookup_insert_ne. intros <-.
  apply (Hno i); [lia|]. rewrite Hk'. f_equal.
  apply Z.leb_le in Hpos. lia.
Qed.

(** The acceleration table: on distinct in-range back-numbers, slot
    [rb[j]] of the table ends up holding [j]. *)
Lemma accel_spec rb n : forall i table,
  (forall j, (i <= j < i + n)%nat ->
     exists k, rb !! j = Some (Z.of_nat k) /\ (k < length table)%nat) ->
  (forall j1 j2 k, (i <= j1 < i + n)%nat -> (i <= j2 < i + n)%nat ->
     rb !! j1 = Some k -> rb !! j2 = Some k -> j1 = j2) ->
  length (accel n i rb table) = length table
  /\ (forall j k, (i <= j < i + n)%nat -> rb !! j = Some (Z.of_nat k) ->
        accel n i rb table !! k = Some (Z.of_nat j)).
Proof.
  induction n as [|n IH]; intros i table Hrng Hinj; [split; [done|intros; lia]|].
  simpl. destruct (Hrng i) as (k0 & Hk0 & Hlt0); [lia|]. rewrite Hk0.
  replace (0 <=? Z.of_nat k0) with true by (symmetry; apply Z.leb_le; lia).
  rewrite Nat2Z.id.
  destruct (IH (S i) (<[k0:=Z.of_nat i]> table)) as [Hlen Hget].
  { intros j Hj. destruct (Hrng j) as (k & Hk & Hlt); [lia|].
    exists k. by rewrite length_insert. }
  { intros j1 j2 k Hj1 Hj2. apply Hinj; lia. }
  rewrite length_insert in Hlen. split; [done|].
  intros j k Hj Hk. destruct (decide (j = i)) as [->|Hne].
  - rewrite Hk0 in Hk. apply (inj Some), (inj Z.of_nat) in Hk. subst k0.
    rewrite accel_keep.
    + by apply list_lookup_insert_eq.
    + intros j Hj' Hjk.
      assert (j = i) by (apply (Hinj j i (Z.of_nat k)); lia || done). lia.
  - apply Hget; [lia|done].
Qed.

(** What the reordering and its table guarantee for a live record: its
    old slot [k] is renumbered to one slot [j] below the new size, and
    that slot holds the record. *)
Lemma connected_reorder_live orig :
  exists data' table nr,
    connected_reorder orig = Some (data', table, nr)
    /\ (nr <= length orig)%nat
    /\ length data' = length orig
    /\ length table = length orig
    /\ forall k d, orig !! k = Some d -> active d = true ->
         exists j, (j < nr)%nat /\ table !! k = Some (Z.of_nat j)
                   /\ data' !! j = Some d.
Proof.
  destruct (reorder_spec orig (length orig) 0 (length orig) orig
              (replicate (length orig) (-1)))
    as (data' & rb & nr & i & Hre & Hle & Hinv); [done|apply reorder_inv_init|].
  unfold connected_reorder. rewrite Hre.
  destruct Hinv as [Hlen Hrb Hnr Hmid Hlow Hinj Hcov].
  destruct (accel_spec rb nr 0 (replicate (length orig) (-1))) as [Hal Hget].
  { intros j Hj. destruct (Hlow j) as (k & Hk & Hlt & _); [lia..|].
    exists k. by rewrite length_replicate. }
  { intros j1 j2 k Hj1 Hj2. apply Hinj; lia. }
  rewrite length_replicate in Hal.
  eexists _, _, _. split; [done|]. repeat split; try done.
  intros k d Hk Hd.
  destruct (Hcov k d Hk Hd) as (j & Hj1 & Hj2 & Hj).
  { apply lookup_lt_Some in Hk. lia. }
  exists j. split; [done|]. split; [apply Hget; [lia|done]|].
  destruct (Hlow j) as (k' & Hk' & _ & Hdk & _); [lia..|].
  rewrite Hk' in Hj. simplify_eq. by rewrite Hdk.
Qed.


(** ** Topology consistency under compaction *)

Lemma table_read_in oob (table : list Z) k v :
  table !! k = Some v -> table_read oob table (Z.of_nat k) = v.
Proof.
  intros Hk. unfold table_read. pose proof (lookup_lt_Some _ _ _ Hk).
  replace (0 <=? Z.of_nat k) with true by (symmetry; apply Z.leb_le; lia).
  replace (Z.of_nat k <? Z.of_nat (length table)) with true
    by (symmetry; apply Z.ltb_lt; lia).
  simpl. by rewrite Nat2Z.id, Hk.
Qed.

(** C2. If every index stored in every live ring names a live particle,
    then [ConnectedParticleSystem::compress] is defined and afterwards
    every index stored in every live ring is in range for the shrunken
    store (so never -1 and never past the end) and names a live record;
    moreover it names the very record it named before.  The statement is
    about an arbitrary store, hence about the store reached after any
    interleaving of deletions and compactions. *)
Theorem connected_compress_live_rings oob (s : @ConnectedParticleSystem Real) :
  live_rings_ok s ->
  exists s', connected_compress oob s = Some s'
    /\ live_rings_ok s'
    /\ length (mSegments s') = length (mSegments s)
    /\ forall i r r' p k k',
         mSegments s !! i = Some r -> mSegments s' !! i = Some r' ->
         is_deleted (rflag r) = false ->
         indices r !! p = Some k -> indices r' !! p = Some k' ->
         mData (psys s') !! Z.to_nat k' = mData (psys s) !! Z.to_nat k.
Proof.
  intros Hok.
  destruct (connected_reorder_live (mData (psys s)))
    as (data' & table & nr & Hre & Hnr & Hlen & Htl & Hlive).
  unfold connected_compress. rewrite Hre. eexists; split; [done|]. simpl.
  assert (forall r k, r ∈ mSegments s -> is_deleted (rflag r) = false ->
            k ∈ indices r ->
            refers_live (resize nr data') (table_read oob table k)
            /\ resize nr data' !! Z.to_nat (table_read oob table k)
               = mData (psys s) !! Z.to_nat k) as Hkey.
  { intros r k Hr Hlr Hk.
    destruct (Hok r Hr Hlr k Hk) as [Hrng (d & Hd & Hact)].
    destruct (Hlive _ _ Hd Hact) as (j & Hj & Htab & Hdj).
    assert (table_read oob table k = Z.of_nat j) as ->.
    { rewrite <- (Z2Nat.id k) by lia. by apply table_read_in. }
    rewrite Nat2Z.id.
    assert (resize nr data' !! j = Some d) as Hres
      by (unfold resize; by rewrite lookup_take_lt).
    split; [|by rewrite Hres, Hd].
    split; [unfold resize; rewrite length_take; lia|].
    exists d. by rewrite Nat2Z.id. }
  split; [|split; [by rewrite length_fmap|]].
  - intros r' [r [-> Hr]]%list_elem_of_fmap Hlr k' [k [-> Hk]]%list_elem_of_fmap.
    by apply (Hkey r k).
  - intros i r r' p k k' Hi Hi' Hlr Hp Hp'.
    rewrite list_lookup_fmap, Hi in Hi'. simplify_eq/=.
    rewrite list_lookup_fmap, Hp in Hp'. simplify_eq/=.
    apply (Hkey r k); [by eapply list_elem_of_lookup_2|done|by eapply list_elem_of_lookup_2].
Qed.

(** ** Segments are never removed *)








(** ** Insertion and deletion marking *)



(** ** More on compaction: what is kept, and where *)

Lemma active_no_flag d : active d = true <-> Z.land (flag d) PDELETE = 0.
Proof.
  unfold active, is_deleted. rewrite negb_involutive. apply Z.eqb_eq.
Qed.

(** X1. [ParticleSystem::compress] is defined on every store (its loops
    never leave the vector, whatever the flags).  Afterwards the store
    holds exactly the records that had no delete flag (as a multiset),
    its size is the former live count, and the deletion counter is 0 with
    the threshold recomputed from the new size. *)
Theorem compress_exact (s : @ParticleSystem Real) :
  exists s', compress s = Some s'
    /\ mData s' ≡ₚ filter (λ x, active x = true) (mData s)
    /\ (forall d, d ∈ mData s' -> active d = true)
    /\ sys_size s' = live_count s
    /\ mDeletes s' = 0
    /\ mDeleteChunk s' = Z.quot (sys_size s') DELETE_PART.
Proof.
  destruct (compress_spec s) as (s' & Hs & Hperm & Hno & Hdel & Hchunk).
  exists s'. split; [done|]. split; [done|].
  split; [intros d Hd; by apply active_no_flag, Hno|].
  split; [|done]. unfold sys_size, live_count. by rewrite Hperm.
Qed.

Lemma stable_inv_init orig : stable_inv orig 0 (length orig) orig.
Proof.
  split; [done|done| |].
  - intros k d _ _ Hd _. done.
  - intros k Hk _. exists k. auto.
Qed.

Lemma refill_stable orig nr : forall i data data' nr',
  stable_inv orig i nr data ->
  refill i nr data = Some (data', nr') ->
  stable_inv orig i nr' data' /\ (nr' <= nr)%nat.
Proof.
  induction nr as [|n IH]; intros i data data' nr' Hinv Hre.
  - simpl in Hre. destruct (data !! i) as [d|]; [|done].
    destruct (is_deleted (flag d)); [done|]. by simplify_eq.
  - simpl in Hre. destruct (data !! i) as [d|] eqn:Hd; [|done].
    destruct (is_deleted (flag d)) eqn:Hdead; [|by simplify_eq].
    destruct (data !! n) as [t|] eqn:Ht; [|done].
    apply IH in Hre; [destruct Hre; split; [done|lia]|].
    destruct Hinv as [Hlen Hmid Hlow Hsrc].
    pose proof (lookup_lt_Some _ _ _ Hd) as Hi.
    pose proof (lookup_lt_Some _ _ _ Ht) as Hn.
    split.
    + by rewrite !length_insert.
    + intros k Hk. rewrite !list_lookup_insert_ne by lia. apply Hmid. lia.
    + intros k x Hk1 Hk2 Hox Hx.
      destruct (decide (k = i)) as [->|Hne].
      * specialize (Hlow i x ltac:(lia) ltac:(lia) Hox Hx).
        rewrite Hd in Hlow. simplify_eq. unfold active in Hx. by rewrite Hdead in Hx.
      * rewrite !list_lookup_insert_ne by lia. apply Hlow; [lia|lia|done|done].
    + intros k Hk Hko. destruct (decide (k = i)) as [->|Hne].
      * rewrite list_lookup_insert_ne by lia.
        rewrite list_lookup_insert_eq by lia.
        exists n. split; [lia|]. split; [|lia].
        rewrite <- (Hmid n) by lia. done.
      * rewrite !list_lookup_insert_ne by lia.
        destruct (Hsrc k) as (m & Hm & Hdm & Hor); [lia|done|].
        exists m. split; [done|]. split; [done|]. lia.
Qed.

Lemma stable_next orig i nr data :
  stable_inv orig i nr data -> stable_inv orig (S i) nr data.
Proof.
  intros [Hlen Hmid Hlow Hsrc]. split; try done.
  - intros k Hk. apply Hmid. lia.
  - intros k d Hk1 Hk2 Hox Hx. destruct (decide (k = S i)) as [->|Hne].
    + rewrite Hmid by lia. done.
    + apply Hlow; [lia|done..].
Qed.

Lemma compress_loop_stable orig todo : forall i nr data data' nr',
  stable_inv orig i nr data ->
  compress_loop todo i nr data = Some (data', nr') ->
  stable_inv orig (i + todo) nr' data' /\ (nr' <= nr)%nat.
Proof.
  induction todo as [|todo IH]; intros i nr data data' nr' Hinv Hloop.
  - simpl in Hloop. simplify_eq. by rewrite Nat.add_0_r.
  - simpl in Hloop. destruct (refill i nr data) as [[data1 nr1]|] eqn:Hr; [|done].
    apply refill_stable with (orig := orig) in Hr as [Hr Hle]; [|done].
    apply stable_next in Hr. apply IH in Hloop as [H1 H2]; [|done].
    split; [|lia]. by replace (i + S todo)%nat with (S i + todo)%nat by lia.
Qed.

(** X2. Where [ParticleSystem::compress] leaves the records: a live
    record in a slot below the new size stays in its slot (its index
    remains valid), and every slot of the result holds the record that
    was there or one moved down from the part that was cut off.  Live
    records from the cut-off tail are the only ones whose index
    changes. *)
Theorem compress_keeps_slots (s : @ParticleSystem Real) :
  exists s', compress s = Some s'
    /\ (length (mData s') <= length (mData s))%nat
    /\ (forall k d, (k < length (mData s'))%nat -> mData s !! k = Some d ->
          active d = true -> mData s' !! k = Some d)
    /\ (forall k, (k < length (mData s'))%nat ->
          exists m, mData s' !! k = mData s !! m
                    /\ (m = k \/ (length (mData s') <= m < length (mData s))%nat)).
Proof.
  destruct (compress_spec s) as (s' & Hs & _). exists s'. split; [done|].
  unfold compress in Hs.
  destruct (compress_loop _ _ _ _) as [[data nr]|] eqn:Hloop; [|done].
  apply compress_loop_stable with (orig := mData s) in Hloop as [[Hlen Hmid Hlow Hsrc] Hle];
    [|apply stable_inv_init].
  simplify_eq. simpl. unfold resize.
  assert (length (take nr data) = nr) as Hnr by (rewrite length_take; lia).
  rewrite Hnr. split; [done|]. split.
  - intros k d Hk Hd Hact. rewrite lookup_take_lt by done.
    apply Hlow; [|done..]. apply lookup_lt_Some in Hd. lia.
  - intros k Hk. rewrite lookup_take_lt by done.
    destruct (Hsrc k) as (m & Hm & Hdm & Hor); [done|lia|].
    exists m. split; [done|]. lia.
Qed.

Lemma refill_live i nr data d :
  data !! i = Some d -> active d = true -> refill i nr data = Some (data, nr).
Proof.
  intros Hd Hact. unfold active in Hact. apply negb_true_iff in Hact.
  destruct nr; simpl; rewrite Hd, Hact; done.
Qed.

Lemma compress_loop_live data todo : forall i nr,
  (forall d, d ∈ data -> active d = true) ->
  (i + todo <= length data)%nat ->
  compress_loop todo i nr data = Some (data, nr).
Proof.
  induction todo as [|todo IH]; intros i nr Hall Hle; [done|].
  simpl. destruct (lookup_lt_is_Some_2 data i) as [d Hd]; [lia|].
  rewrite (refill_live i nr data d) by (try apply Hall; try done; by eapply list_elem_of_lookup_2).
  apply IH; [done|lia].
Qed.

Lemma compress_live (s : @ParticleSystem Real) :
  (forall d, d ∈ mData s -> active d = true) ->
  compress s = Some {| mData := mData s; mDeletes := 0;
                       mDeleteChunk := Z.quot (sys_size s) DELETE_PART |}.
Proof.
  intros Hall. unfold compress.
  rewrite compress_loop_live by (done || lia).
  unfold resize. by rewrite firstn_all.
Qed.

(** X3. On a store without delete flags [ParticleSystem::compress] only
    resets the counters: the records stay as they are, in their slots.
    Hence compacting twice is compacting once. *)
Theorem compress_idempotent (s : @ParticleSystem Real) :
  ((forall d, d ∈ mData s -> active d = true) ->
   compress s = Some {| mData := mData s; mDeletes := 0;
                        mDeleteChunk := Z.quot (sys_size s) DELETE_PART |})
  /\ forall s', compress s = Some s' -> compress s' = Some s'.
Proof.
  split; [apply compress_live|].
  intros s' Hs'. destruct (compress_spec s) as (s2 & Hs2 & _ & Hno & Hdel & Hchunk).
  rewrite Hs' in Hs2. simplify_eq.
  rewrite compress_live by (intros d Hd; by apply active_no_flag, Hno).
  destruct s2 as [data dels chunk]. unfold sys_size in *. simpl in *. by subst.
Qed.

(** X24. Adding a record and killing it at the index [add] returned is
    always defined and gives back the live records the store had: either
    the flagged record sits at the end of the vector, or the kill has
    compacted and no flagged record is left. *)
Theorem add_then_kill (s : @ParticleSystem Real) d :
  exists s2, kill (Z.to_nat (snd (add d s))) (fst (add d s)) = Some s2
    /\ filter (λ x, active x = true) (mData s2)
         ≡ₚ filter (λ x, active x = true) (mData s)
    /\ (mData s2 = mData s ++ [set_flag (Z.lor (flag d) PDELETE) d]
        \/ forall x, x ∈ mData s2 -> active x = true).
Proof.
  assert (active (set_flag (Z.lor (flag d) PDELETE) d) = false) as Hdead
    by (unfold active; simpl; by rewrite is_deleted_lor).
  unfold add, kill, mark_deleted. cbn [fst snd mData mDeletes mDeleteChunk].
  rewrite length_app. cbn [length].
  replace (Z.to_nat (Z.of_nat (length (mData s) + 1) - 1)) with (length (mData s)) by lia.
  rewrite lookup_app_r, Nat.sub_diag by lia. cbn [lookup list_lookup mbind option_bind].
  rewrite insert_app_r_alt, Nat.sub_diag by lia. cbn [insert list_insert].
  cbn [mDeletes mDeleteChunk].
  destruct (_ <? _).
  - match goal with |- context [compress ?c] =>
      destruct (compress_spec c) as (s2 & Hs2 & Hperm & Hno & _) end.
    exists s2. split; [done|]. split.
    + rewrite (filter_active_all (mData s2)).
      * rewrite Hperm. cbn [mData]. by rewrite filter_active_skip_dead.
      * intros k x Hk. apply active_no_flag, Hno. by eapply list_elem_of_lookup_2.
    + right. intros x Hx. by apply active_no_flag, Hno.
  - eexists. split; [done|]. cbn [mData].
    split; [by rewrite filter_active_skip_dead|by left].
Qed.

(** ** The bookkeeping of deletions *)

Lemma dead_count_live (s : @ParticleSystem Real) :
  (forall d, d ∈ mData s -> active d = true) -> dead_count s = 0.
Proof.
  intros Hall. unfold dead_count.
  replace (filter (λ d, active d = false) (mData s)) with (@nil (@BasicParticleData Real)); [done|].
  symmetry. induction (mData s) as [|x l IH]; [done|].
  rewrite filter_cons_False.
  - apply IH. intros d Hd. apply Hall. by apply elem_of_cons; right.
  - rewrite Hall by (apply elem_of_cons; by left). done.
Qed.

Lemma filter_dead_insert data i t :
  (length (filter (λ d, active d = false) (<[i:=t]> data))
   <= S (length (filter (λ d, active d = false) data)))%nat.
Proof.
  revert i. induction data as [|x l IH]; intros i; [simpl; lia|].
  destruct i as [|i]; simpl.
  - rewrite !filter_cons. repeat destruct (decide _); simpl; lia.
  - rewrite !filter_cons. specialize (IH i). destruct (decide _); simpl; lia.
Qed.

Lemma compress_chunk_inv (s s' : @ParticleSystem Real) :
  compress s = Some s' -> chunk_inv s' /\ dead_count s' = 0.
Proof.
  intros Hs. destruct (compress_spec s) as (s2 & Hs2 & _ & Hno & Hdel & Hchunk).
  rewrite Hs in Hs2. simplify_eq.
  assert (dead_count s2 = 0) as Hz
    by (apply dead_count_live; intros d Hd; by apply active_no_flag, Hno).
  split; [|done]. unfold chunk_inv. rewrite Hz, Hdel, Hchunk.
  split; [lia|]. split; [|lia].
  apply Z.quot_pos; [unfold sys_size; lia|done].
Qed.

Lemma sys_step_chunk_inv o (s s' : @ParticleSystem Real) :
  op_clean o -> chunk_inv s -> sys_step o s = Some s' -> chunk_inv s'.
Proof.
  intros Hclean (Hd & Hm & Hc) Hstep. destruct o as [d|i| | |]; simpl in *.
  - simplify_eq. unfold chunk_inv, dead_count, sys_size in *. simpl.
    rewrite filter_app, filter_cons_False, filter_nil, app_nil_r by (rewrite Hclean; done).
    split; [done|]. split; [|lia].
    etrans; [apply Hm|]. etrans; [apply Hc|].
    rewrite !Z.quot_div_nonneg by (done || lia).
    apply Z.div_le_mono; [done|]. rewrite length_app. simpl. lia.
  - unfold kill, mark_deleted in Hstep.
    destruct (mData s !! i) as [x|] eqn:Hx; [|done]. simpl in Hstep.
    destruct (Z.ltb_spec (mDeleteChunk s) (mDeletes s + 1)) as [Hlt|Hge].
    + by apply compress_chunk_inv in Hstep as [? _].
    + simplify_eq. unfold chunk_inv, dead_count, sys_size in *. simpl.
      rewrite length_insert. split; [|lia].
      pose proof (filter_dead_insert (mData s) i (set_flag (Z.lor (flag x) PDELETE) x)).
      lia.
  - by apply compress_chunk_inv in Hstep as [? _].
  - simplify_eq. unfold chunk_inv, dead_count, sys_size. simpl. done.
  - unfold clone in Hstep. destruct (compress s) as [s1|] eqn:Hs1; [|done].
    simpl in Hstep. simplify_eq.
    apply compress_chunk_inv in Hs1 as [(_ & _ & H3) Hz].
    unfold chunk_inv, dead_count, sys_size in *. simpl.
    split; [lia|]. split; [done|].
    apply Z.quot_pos; [lia|done].
Qed.

(** X4. On a plain store driven by [add] (of records without the delete
    flag), [kill], [compress], [clear] and [clone] only, the bookkeeping
    is an invariant: the flagged records number at most [mDeletes], which
    is at most [mDeleteChunk], which is at most a twentieth of the size.
    So at no time do more than size/20 records carry the delete flag. *)
Theorem dead_share_bounded os : forall s s' : @ParticleSystem Real,
  Forall op_clean os -> chunk_inv s -> sys_run os s = Some s' ->
  chunk_inv s' /\ DELETE_PART * dead_count s' <= sys_size s'.
Proof.
  induction os as [|o os IH]; intros s s' Hclean Hinv Hrun.
  - simpl in Hrun. simplify_eq. split; [done|].
    destruct Hinv as (Hd & Hm & Hc).
    assert (dead_count s' <= Z.quot (sys_size s') DELETE_PART) as Hle by lia.
    rewrite Z.quot_div_nonneg in Hle by (unfold sys_size; done || lia).
    pose proof (Z.mul_div_le (sys_size s') DELETE_PART ltac:(done)).
    unfold DELETE_PART in *. lia.
  - simpl in Hrun. destruct (sys_step o s) as [s1|] eqn:Hstep; [|done].
    simpl in Hrun. inversion Hclean; subst.
    eapply IH; [done| |done]. by eapply sys_step_chunk_inv.
Qed.

(** X5. [ParticleSystem::clone] compacts the receiver as a side effect and
    hands out a copy of the compacted records whose counters are both 0
    (the threshold is not recomputed from the size).  On the clone the
    first [kill] therefore always compacts at once, whatever its size:
    the killed record is gone and no flag is left. *)
Theorem clone_compacts_and_resets (s : @ParticleSystem Real) :
  exists s1 c, clone s = Some (s1, c)
    /\ compress s = Some s1
    /\ mData c = mData s1
    /\ mData c ≡ₚ filter (λ x, active x = true) (mData s)
    /\ mDeletes c = 0 /\ mDeleteChunk c = 0
    /\ forall i, (i < length (mData c))%nat ->
         exists c', kill i c = Some c'
           /\ (forall d, d ∈ mData c' -> active d = true)
           /\ S (length (mData c')) = length (mData c).
Proof.
  destruct (compress_spec s) as (s1 & Hs1 & Hperm & Hno & Hdel & Hchunk).
  exists s1, {| mData := mData s1; mDeletes := 0; mDeleteChunk := 0 |}.
  unfold clone. rewrite Hs1. simpl. repeat split; try done.
  intros i Hi. destruct (lookup_lt_is_Some_2 _ _ Hi) as [x Hx].
  unfold kill, mark_deleted. simpl. rewrite Hx. simpl.
  set (c1 := {| mData := _ |}).
  destruct (compress_spec c1) as (c' & Hc' & Hperm' & Hno' & _).
  exists c'. split; [done|]. split; [intros d Hd; by apply active_no_flag, Hno'|].
  rewrite Hperm'. subst c1. simpl.
  assert (active (set_flag (Z.lor (flag x) PDELETE) x) = false) as Hdead
    by (unfold active; simpl; by rewrite is_deleted_lor).
  rewrite <- (take_drop_middle _ _ _ Hx) at 2.
  rewrite insert_take_drop by done.
  rewrite !filter_app, !filter_cons, Hdead. simpl.
  assert (forall l : list (@BasicParticleData Real), (forall d, d ∈ l -> d ∈ mData s1) ->
            filter (λ y, active y = true) l = l) as Hall.
  { intros l Hl. apply filter_active_all. intros k d Hk.
    apply active_no_flag, Hno, Hl. by eapply list_elem_of_lookup_2. }
  rewrite !Hall.
  - rewrite !length_app. simpl. lia.
  - intros d Hd. apply list_elem_of_lookup in Hd as [k Hk].
    rewrite lookup_drop in Hk. by eapply list_elem_of_lookup_2.
  - intros d Hd. apply list_elem_of_lookup in Hd as [k Hk].
    apply lookup_take_Some in Hk as [Hk _]. by eapply list_elem_of_lookup_2.
Qed.

(** ** More on the compaction of the connected store *)


Lemma reorder_live data todo : forall i rb,
  (forall d, d ∈ data -> active d = true) ->
  (i + todo = length data)%nat -> length rb = length data ->
  exists rb', reorder todo i (length data) data rb = Some (data, rb', length data)
    /\ length rb' = length data
    /\ (forall j, (i <= j < length data)%nat -> rb' !! j = Some (Z.of_nat j))
    /\ (forall j, (j < i)%nat -> rb' !! j = rb !! j).
Proof.
  induction todo as [|todo IH]; intros i rb Hall Hsum Hrb.
  - exists rb. repeat split; try done. intros; lia.
  - simpl. destruct (Nat.ltb_spec i (length data)) as [Hlt|]; [|lia].
    destruct (lookup_lt_is_Some_2 data i) as [d Hd]; [lia|]. rewrite Hd.
    assert (is_deleted (flag d) = false) as ->.
    { apply negb_true_iff. apply Hall. by eapply list_elem_of_lookup_2. }
    destruct (IH (S i) (<[i:=Z.of_nat i]> rb)) as (rb' & Hre & Hl & Hid & Hold);
      [done|lia|by rewrite length_insert|].
    exists rb'. split; [done|]. split; [done|]. split.
    + intros j Hj. destruct (decide (j = i)) as [->|Hne]; [|apply Hid; lia].
      rewrite Hold by lia. apply list_lookup_insert_eq. lia.
    + intros j Hj. rewrite Hold by lia. apply list_lookup_insert_ne. lia.
Qed.

(** X7. With nothing to delete, [ConnectedParticleSystem::compress]
    changes neither the particle records nor any ring whose indices are
    in range (the renumbering table is the identity); it only resets the
    counter and recomputes the threshold. *)
Theorem connected_compress_nothing_to_do oob (s : @ConnectedParticleSystem Real) :
  (forall d, d ∈ mData (psys s) -> active d = true) ->
  (forall r k, r ∈ mSegments s -> k ∈ indices r -> 0 <= k < sys_size (psys s)) ->
  connected_compress oob s
  = Some {| psys := {| mData := mData (psys s); mDeletes := 0;
                       mDeleteChunk := Z.quot (sys_size (psys s)) DELETE_PART |};
            mSegments := mSegments s |}.
Proof.
  intros Hall Hrng. set (data := mData (psys s)).
  destruct (reorder_live data (length data) 0 (replicate (length data) (-1)))
    as (rb & Hre & Hl & Hid & _); [done|done|by rewrite length_replicate|].
  unfold connected_compress, connected_reorder. fold data. rewrite Hre.
  destruct (accel_spec rb (length data) 0 (replicate (length data) (-1))) as [Hal Hget].
  { intros j Hj. exists j. rewrite length_replicate. split; [apply Hid|]; lia. }
  { intros j1 j2 k Hj1 Hj2 H1 H2. rewrite Hid in H1, H2 by lia. simplify_eq. lia. }
  unfold resize. rewrite firstn_all. unfold sys_size. fold data.
  do 2 f_equal.
  rewrite <- (list_fmap_id (mSegments s)) at 2.
  apply Forall_fmap_ext_1, Forall_forall. intros r Hr. destruct r as [c inds f].
  unfold ring_renumber. simpl. f_equal.
  rewrite <- (list_fmap_id inds) at 2.
  apply Forall_fmap_ext_1, Forall_forall. intros k Hk.
  specialize (Hrng _ k Hr Hk). unfold sys_size in Hrng. fold data in Hrng.
  rewrite <- (Z2Nat.id k) at 1 by lia.
  apply table_read_in. rewrite (Hget (Z.to_nat k) (Z.to_nat k)).
  - f_equal. simpl. lia.
  - lia.
  - apply Hid. lia.
Qed.

End StoreFacts.

(** ** The Biot-Savart kernel *)

Section KernelFacts.
Context {Real : Type} {ops : RealOps Real}.
Implicit Types (fi : @FilamentIntegrator Real) (y : list (Vec3 Real))
  (xi p u : Vec3 Real) (r : @VortexRing Real).

Lemma for_loop_id {A} (body : A -> nat -> option A) n : forall j (u : A),
  (forall k, (j <= k < j + n)%nat -> body u k = Some u) ->
  for_loop body n j u = Some u.
Proof.
  induction n as [|n IH]; intros j u Hb; [done|].
  simpl. rewrite Hb by lia. simpl. apply IH. intros k Hk. apply Hb. lia.
Qed.

Lemma idx0_elem r (j : nat) :
  (j < length (indices r))%nat ->
  exists k, idx0 r (Z.of_nat j) = Some k /\ k ∈ indices r.
Proof.
  intros Hj. destruct (lookup_lt_is_Some_2 (indices r) j Hj) as [k Hk].
  exists k. split; [|by eapply list_elem_of_lookup_2].
  unfold idx0. replace (0 <=? Z.of_nat j) with true by (symmetry; apply Z.leb_le; lia).
  by rewrite Nat2Z.id.
Qed.

Lemma idx1_elem r (j : nat) :
  (j < length (indices r))%nat ->
  exists k, idx1 r (Z.of_nat j) = Some k /\ k ∈ indices r.
Proof.
  intros Hj. unfold idx1, ring_size.
  replace (Z.of_nat (length (indices r)) =? 0) with false
    by (symmetry; apply Z.eqb_neq; lia).
  pose proof (Z.rem_bound_pos (Z.of_nat j + 1) (Z.of_nat (length (indices r)))) as Hb.
  destruct (lookup_lt_is_Some_2 (indices r)
              (Z.to_nat (Z.rem (Z.of_nat j + 1) (Z.of_nat (length (indices r))))))
    as [k Hk]; [lia|].
  exists k. split; [done|]. by eapply list_elem_of_lookup_2.
Qed.

Lemma kernel_edge_skip fi y xi r str u j i0 p0 i1 p1 :
  idx0 r (Z.of_nat j) = Some i0 -> at_index y i0 = Some p0 ->
  idx1 r (Z.of_nat j) = Some i1 -> at_index y i1 = Some p1 ->
  far fi xi p0 \/ far fi xi p1 \/ near xi p0 \/ near xi p1 ->
  kernel_edge fi y xi r str u j = Some u.
Proof.
  intros H0 Hp0 H1 Hp1 Hskip. unfold kernel_edge.
  rewrite H0. simpl. rewrite Hp0. simpl. rewrite H1. simpl. rewrite Hp1. simpl.
  unfold edge_skipped. unfold far, near in Hskip.
  destruct Hskip as [H|[H|[H|H]]]; rewrite H; by rewrite ?orb_true_r.
Qed.

Lemma kernel_rings_id fi y xi rings : forall u,
  (forall r, r ∈ rings -> kernel_ring fi y xi u r = Some u) ->
  kernel_rings fi y xi rings u = Some u.
Proof.
  induction rings as [|r rest IH]; intros u Hr; [done|].
  simpl. rewrite Hr by apply list_elem_of_here. simpl.
  apply IH. intros r' Hr'. apply Hr. by apply list_elem_of_further.
Qed.

(** C5. In [FilamentIntegrator::kernel]:
    - an edge leaves the accumulated velocity exactly as it was whenever
      the squared distance of either endpoint to the query exceeds the
      squared cutoff or is below 1e-6;
    - a ring flagged PDELETE leaves it as it was, whatever its indices;
    - hence a query farther than the cutoff from every vertex of every
      live ring gets exactly the zero vector;
    - an edge with an endpoint at the query itself is skipped as soon as
      the squared length of [xi - xi] compares below 1e-6 (it is 0 for
      every finite [xi]), so the division by its length never happens. *)
Theorem kernel_guards fi y xi :
  (forall r str u (j : nat) i0 p0 i1 p1,
     idx0 r (Z.of_nat j) = Some i0 -> at_index y i0 = Some p0 ->
     idx1 r (Z.of_nat j) = Some i1 -> at_index y i1 = Some p1 ->
     far fi xi p0 \/ far fi xi p1 \/ near xi p0 \/ near xi p1 ->
     kernel_edge fi y xi r str u j = Some u)
  /\ (forall r u, is_deleted (rflag r) = true -> kernel_ring fi y xi u r = Some u)
  /\ ((forall r, r ∈ mRings fi -> is_deleted (rflag r) = false ->
       forall k, k ∈ indices r -> exists p, at_index y k = Some p /\ far fi xi p) ->
      kernel fi y xi = Some vzero)
  /\ (forall r str u (j : nat) i0 p0 i1 p1,
        idx0 r (Z.of_nat j) = Some i0 -> at_index y i0 = Some p0 ->
        idx1 r (Z.of_nat j) = Some i1 -> at_index y i1 = Some p1 ->
        p0 = xi \/ p1 = xi -> near xi xi ->
        kernel_edge fi y xi r str u j = Some u).
Proof.
  split; [|split; [|split]].
  - intros. by eapply kernel_edge_skip.
  - intros r u Hdead. unfold kernel_ring. unfold is_deleted in Hdead.
    by rewrite Hdead.
  - intros Hfar. unfold kernel. apply kernel_rings_id. intros r Hr.
    unfold kernel_ring. destruct (negb _) eqn:Hflag; [done|].
    apply for_loop_id. intros j Hj.
    destruct (idx0_elem r j) as (i0 & Hi0 & Hin0); [lia|].
    destruct (idx1_elem r j) as (i1 & Hi1 & Hin1); [lia|].
    destruct (Hfar r Hr Hflag i0 Hin0) as (p0 & Hp0 & Hf0).
    destruct (Hfar r Hr Hflag i1 Hin1) as (p1 & Hp1 & Hf1).
    eapply kernel_edge_skip; eauto.
  - intros r str u j i0 p0 i1 p1 H0 Hp0 H1 Hp1 Heq Hnear.
    eapply kernel_edge_skip; eauto.
    destruct Heq as [Heq|Heq]; subst; auto.
Qed.


(** ** Where the kernel reads *)

Lemma at_index_is_Some {A} (v : list A) k :
  is_Some (at_index v k) <-> 0 <= k < Z.of_nat (length v).
Proof.
  unfold at_index. destruct (Z.leb_spec 0 k) as [Hk|Hk].
  - rewrite lookup_lt_is_Some. lia.
  - split; [intros [? ?]; done|lia].
Qed.

Lemma for_loop_defined {A} (body : A -> nat -> option A) n : forall j (u : A),
  (forall v k, (j <= k < j + n)%nat -> is_Some (body v k)) ->
  is_Some (for_loop body n j u).
Proof.
  induction n as [|n IH]; intros j u Hb; [done|].
  simpl. destruct (Hb u j) as [u' Hu']; [lia|]. rewrite Hu'. simpl.
  apply IH. intros v k Hk. apply Hb. lia.
Qed.

Lemma for_loop_Some_inv {A} (body : A -> nat -> option A) n : forall j (u u' : A),
  for_loop body n j u = Some u' ->
  forall k, (j <= k < j + n)%nat -> exists v, is_Some (body v k).
Proof.
  induction n as [|n IH]; intros j u u' H k Hk; [lia|].
  simpl in H. destruct (body u j) as [u1|] eqn:Hb; [|done]. simpl in H.
  destruct (decide (k = j)) as [->|Hne]; [by exists u; rewrite Hb|].
  eapply IH; [done|lia].
Qed.

Lemma kernel_edge_is_Some fi y xi r str u (j : nat) :
  is_Some (kernel_edge fi y xi r str u j)
  <-> exists i0 i1, idx0 r (Z.of_nat j) = Some i0 /\ idx1 r (Z.of_nat j) = Some i1
        /\ 0 <= i0 < Z.of_nat (length y) /\ 0 <= i1 < Z.of_nat (length y).
Proof.
  unfold kernel_edge. split.
  - intros [u' H].
    destruct (idx0 r _) as [i0|]; [|done]. simpl in H.
    destruct (at_index y i0) as [p0|] eqn:H0; [|done]. simpl in H.
    destruct (idx1 r _) as [i1|]; [|done]. simpl in H.
    destruct (at_index y i1) as [p1|] eqn:H1; [|done].
    exists i0, i1. split; [done|]. split; [done|].
    split; apply at_index_is_Some; by eexists.
  - intros (i0 & i1 & -> & -> & H0 & H1). simpl.
    apply at_index_is_Some in H0 as [p0 ->]. apply at_index_is_Some in H1 as [p1 ->].
    simpl. destruct (edge_skipped _ _ _); done.
Qed.

Lemma kernel_ring_is_Some fi y xi u r :
  is_deleted (rflag r) = false ->
  is_Some (kernel_ring fi y xi u r) <-> ring_in_range y r.
Proof.
  intros Hlive. unfold kernel_ring. unfold is_deleted in Hlive. rewrite Hlive.
  split.
  - intros [u' H] k Hk. apply list_elem_of_lookup in Hk as [j Hj].
    destruct (for_loop_Some_inv _ _ _ _ _ H j) as [v Hv].
    { apply lookup_lt_Some in Hj. lia. }
    apply kernel_edge_is_Some in Hv as (i0 & i1 & H0 & _ & Hr & _).
    unfold idx0 in H0. rewrite (proj2 (Z.leb_le 0 (Z.of_nat j))), Nat2Z.id in H0 by lia.
    by simplify_eq.
  - intros Hrng. apply for_loop_defined. intros v j Hj.
    apply kernel_edge_is_Some.
    destruct (idx0_elem r j) as (i0 & H0 & Hi0); [lia|].
    destruct (idx1_elem r j) as (i1 & H1 & Hi1); [lia|].
    exists i0, i1. auto.
Qed.

Lemma kernel_rings_is_Some fi y xi rings : forall u,
  is_Some (kernel_rings fi y xi rings u)
  <-> forall r, r ∈ rings -> is_deleted (rflag r) = false -> ring_in_range y r.
Proof.
  induction rings as [|r rest IH]; intros u.
  - split; [intros _ r Hr; by apply elem_of_nil in Hr|done].
  - simpl. destruct (is_deleted (rflag r)) eqn:Hd.
    + assert (kernel_ring fi y xi u r = Some u) as ->
        by (unfold kernel_ring; unfold is_deleted in Hd; by rewrite Hd).
      simpl. rewrite IH. split.
      * intros H r' [Heq|Hr']%elem_of_cons Hl; [congruence|by apply H].
      * intros H r' Hr'. apply H. by apply elem_of_cons; right.
    + split.
      * intros [u' H]. destruct (kernel_ring fi y xi u r) as [u1|] eqn:Hk; [|done].
        simpl in H. intros r' [Heq|Hr']%elem_of_cons Hl.
        -- subst r'. apply (kernel_ring_is_Some fi y xi u r Hd). by rewrite Hk.
        -- eapply IH; [by eexists|done|done].
      * intros H. destruct (proj2 (kernel_ring_is_Some fi y xi u r Hd)) as [u1 ->].
        { apply H; [by apply elem_of_cons; left|done]. }
        simpl. apply IH. intros r' Hr'. apply H. by apply elem_of_cons; right.
Qed.

Lemma kernel_rings_live fi fi' y xi rings : forall u,
  mCutoff2 fi' = mCutoff2 fi -> mA2 fi' = mA2 fi -> mStrength fi' = mStrength fi ->
  kernel_rings fi' y xi (live_rings rings) u = kernel_rings fi y xi rings u.
Proof.
  intros u Hc Ha Hs. revert u. induction rings as [|r rest IH]; intros u; [done|].
  unfold live_rings. rewrite filter_cons. destruct (decide _) as [Hl|Hd]; simpl.
  - assert (kernel_ring fi' y xi u r = kernel_ring fi y xi u r) as ->.
    { unfold kernel_ring, kernel_edge, edge_skipped, edge_term. by rewrite Hc, Ha, Hs. }
    destruct (kernel_ring fi y xi u r); [apply IH|done].
  - assert (kernel_ring fi y xi u r = Some u) as ->.
    { unfold kernel_ring. unfold is_deleted in Hd. destruct (Z.land _ _ =? 0); done. }
    simpl. apply IH.
Qed.

(** X9. [FilamentIntegrator::kernel] reads the position vector only at
    the indices of rings without the delete flag: it is defined exactly
    when every index of every live ring names a slot of [y]; stale or
    out-of-range indices in flagged rings are never read.  Its value is
    that of the kernel over the live rings alone. *)
Theorem kernel_defined_iff fi y xi :
  (is_Some (kernel fi y xi)
   <-> forall r, r ∈ mRings fi -> is_deleted (rflag r) = false -> ring_in_range y r)
  /\ kernel (with_rings fi (live_rings (mRings fi))) y xi = kernel fi y xi.
Proof.
  split; [apply kernel_rings_is_Some|].
  unfold kernel. by apply kernel_rings_live.
Qed.


End KernelFacts.

(** ** The shape of the Darboux transform *)

Section DarbouxShape.
Context {Real : Type} {ops : RealOps Real}.
Implicit Types (gamma from to : list (Vec3 Real)) (lT : Vec3 Real) (l r : Real).

Lemma edge_vec_defined gamma i :
  (i < length gamma)%nat -> is_Some (edge_vec gamma i).
Proof.
  intros Hi. destruct (lookup_lt_is_Some_2 gamma i Hi) as [a Ha].
  destruct (lookup_lt_is_Some_2 gamma ((i + 1) mod length gamma)) as [b Hb].
  { apply Nat.mod_upper_bound. lia. }
  unfold edge_vec. rewrite Ha. simpl. rewrite Hb. done.
Qed.

Lemma monodromy_loop_defined gamma r n : forall j lT,
  (j + n <= length gamma)%nat ->
  is_Some (for_loop (λ lT i, Si ← edge_vec gamma i; Some (darbouxStep Si lT r)) n j lT).
Proof.
  induction n as [|n IH]; intros j lT Hj; [done|].
  simpl. destruct (edge_vec_defined gamma j) as [Si HSi]; [lia|].
  rewrite HSi. simpl. apply IH. lia.
Qed.

Lemma power_iter_defined gamma r iters : forall lT,
  is_Some (power_iter gamma r iters lT).
Proof.
  induction iters as [|n IH]; intros lT; [done|].
  simpl. destruct (monodromy_loop_defined gamma r (length gamma) 0 lT) as [lT' H]; [lia|].
  unfold monodromy. rewrite H. simpl. destruct (fltb _ _); [done|apply IH].
Qed.

Lemma darboux_loop_shape from r n : forall j to lT to' lT',
  for_loop
    (λ '(to, lT) i,
       p ← from !! i;
       Si ← edge_vec from i;
       if decide (i < length to)%nat
       then Some (<[i := vadd p lT]> to, darbouxStep Si lT r)
       else None)
    n j (to, lT) = Some (to', lT') ->
  length to' = length to
  /\ (j + n <= length to \/ n = 0)%nat
  /\ forall k, (k < j \/ j + n <= k)%nat -> to' !! k = to !! k.
Proof.
  induction n as [|n IH]; intros j to lT to' lT' H.
  - simpl in H. simplify_eq. split; [done|]. split; [by right|done].
  - simpl in H. destruct (from !! j) as [p|]; [|done]. simpl in H.
    destruct (edge_vec from j) as [Si|]; [|done]. simpl in H.
    destruct (decide (j < length to)%nat) as [Hj|]; [|done]. simpl in H.
    apply IH in H as (Hlen & Hle & Hframe). rewrite length_insert in Hlen, Hle.
    split; [done|]. split; [left; lia|].
    intros k Hk. rewrite Hframe by lia. apply list_lookup_insert_ne. lia.
Qed.

Lemma darboux_loop_defined from r n : forall j to lT,
  (j + n <= length from)%nat -> (j + n <= length to)%nat ->
  is_Some (for_loop
    (λ '(to, lT) i,
       p ← from !! i;
       Si ← edge_vec from i;
       if decide (i < length to)%nat
       then Some (<[i := vadd p lT]> to, darbouxStep Si lT r)
       else None)
    n j (to, lT)).
Proof.
  induction n as [|n IH]; intros j to lT Hf Ht; [done|].
  simpl. destruct (lookup_lt_is_Some_2 from j) as [p Hp]; [lia|]. rewrite Hp. simpl.
  destruct (edge_vec_defined from j) as [Si HSi]; [lia|]. rewrite HSi. simpl.
  rewrite decide_True by lia. simpl. apply IH; [lia|]. rewrite length_insert. lia.
Qed.

Lemma darboux_shape from to l r ok to' :
  darboux from to l r = Some (ok, to') ->
  length to' = length to
  /\ (ok = false -> to' = to)
  /\ (ok = true -> (length from <= length to)%nat)
  /\ forall k, (length from <= k)%nat -> to' !! k = to !! k.
Proof.
  intros H. unfold darboux in H.
  destruct (powerMethod from l r) as [[ok1 lT]|]; [|done]. simpl in H.
  destruct ok1; simpl in H; [|by simplify_eq].
  destruct (for_loop _ _ _ _) as [[to1 lT1]|] eqn:Hloop; [|done].
  simpl in H. simplify_eq.
  apply darboux_loop_shape in Hloop as (Hlen & Hle & Hframe).
  split; [done|]. split; [done|]. split; [intros _; lia|].
  intros k Hk. apply Hframe. lia.
Qed.

Lemma darboux_defined from to l r :
  (length from <= length to)%nat -> is_Some (darboux from to l r).
Proof.
  intros Hle. unfold darboux, powerMethod.
  destruct (power_iter_defined from r maxIter (mkVec3 (fint 0) (fint 0) l)) as [[ok lT] H].
  rewrite H. simpl. destruct ok; simpl; [|done].
  destruct (darboux_loop_defined from r (length from) 0 to lT) as [[to1 lT1] H1]; [lia..|].
  rewrite H1. done.
Qed.

(** X14. [darboux(from, to, l, r)] writes the first [from.size()] slots
    of [to] and nothing else: the length of [to] and its slots from
    [from.size()] on are as before, and [to] is untouched when the power
    method fails.  It is defined whenever [to] is at least as long as
    [from]; with a shorter [to] and a converged power method it writes
    past the end of [to]. *)
Theorem darboux_writes_in_range from to l r :
  (forall ok to', darboux from to l r = Some (ok, to') ->
     length to' = length to
     /\ (ok = false -> to' = to)
     /\ (ok = true -> (length from <= length to)%nat)
     /\ forall k, (length from <= k)%nat -> to' !! k = to !! k)
  /\ ((length from <= length to)%nat -> is_Some (darboux from to l r))
  /\ ((length to < length from)%nat -> forall lT,
        powerMethod from l r = Some (true, lT) -> darboux from to l r = None).
Proof.
  split; [|split].
  - intros ok to'. apply darboux_shape.
  - apply darboux_defined.
  - intros Hlt lT Hpow. unfold darboux. rewrite Hpow. simpl.
    destruct (for_loop _ _ _ _) as [[to1 lT1]|] eqn:Hloop; [|done].
    apply darboux_loop_shape in Hloop as (_ & Hle & _). lia.
Qed.

End DarbouxShape.

(** ** Non-convergence in the doubly discrete update *)

Section DarbouxFacts.
Context {Real : Type} {ops : RealOps Real} {libm : LibM Real}.
Variable filamentKernel :
  Vec3 Real -> Vec3 Real -> Real -> Real -> Real -> Real -> Vec3 Real -> Vec3 Real.

Lemma darboux_power_fails (from to : list (Vec3 Real)) l r lT :
  powerMethod from l r = Some (false, lT) ->
  darboux from to l r = Some (false, to).
Proof. intros H. unfold darboux. rewrite H. done. Qed.

(** C3. For a live ring of [doublyDiscreteUpdate]: when the power method
    of the forward transform, or that of the backward transform, returns
    false (no convergence within its 100 iterations), the loop body
    leaves the particle vector exactly as it was -- in particular every
    position the ring refers to, with nothing of the forward result
    written back --, appends one diagnostic line to the output, raises
    nothing, and the loop goes on with the next ring from that state. *)
Theorem update_ring_not_converged dt reg data out r gamma l ra lT :
  is_deleted (rflag r) = false ->
  ring_params filamentKernel dt reg data r = Some (gamma, l, ra) ->
  powerMethod gamma l ra = Some (false, lT)
  \/ (exists eta, darboux gamma (replicate (length (indices r)) vzero) l ra
                    = Some (true, eta)
                  /\ powerMethod eta l (fneg ra) = Some (false, lT)) ->
  exists msg, (msg = fwd_failed \/ msg = bwd_failed)
    /\ update_ring filamentKernel dt reg (data, out) r = Some (data, out ++ [msg])
    /\ forall rest,
         update_rings filamentKernel dt reg (r :: rest) (data, out)
         = update_rings filamentKernel dt reg rest (data, out ++ [msg]).
Proof.
  intros Hlive Hpar Hfail. unfold is_deleted in Hlive.
  assert (exists msg, (msg = fwd_failed \/ msg = bwd_failed)
            /\ update_ring filamentKernel dt reg (data, out) r
               = Some (data, out ++ [msg])) as (msg & Hmsg & Hupd).
  { unfold update_ring. rewrite Hlive, Hpar. simpl.
    destruct Hfail as [Hf|(eta & Hfwd & Hb)].
    - rewrite (darboux_power_fails _ _ _ _ _ Hf). simpl.
      exists fwd_failed. auto.
    - rewrite Hfwd. simpl. rewrite (darboux_power_fails _ _ _ _ _ Hb). simpl.
      exists bwd_failed. auto. }
  exists msg. split; [done|]. split; [done|].
  intros rest.
  change (update_rings filamentKernel dt reg (r :: rest) (data, out))
    with (update_ring filamentKernel dt reg (data, out) r
            ≫= update_rings filamentKernel dt reg rest).
  by rewrite Hupd.
Qed.


(** ** What the update moves, and where it reads *)

Implicit Types (data : list (@BasicParticleData Real)) (r : @VortexRing Real)
  (out : list string).

Lemma moved_only_refl inds data : moved_only inds data data.
Proof. split; [done|]. intros k d Hd. by exists d. Qed.

Lemma moved_only_trans inds1 inds2 inds data1 data2 data3 :
  (forall k, k ∈ inds1 -> k ∈ inds) -> (forall k, k ∈ inds2 -> k ∈ inds) ->
  moved_only inds1 data1 data2 -> moved_only inds2 data2 data3 ->
  moved_only inds data1 data3.
Proof.
  intros H1 H2 [Hl1 Hm1] [Hl2 Hm2]. split; [congruence|].
  intros k d Hd. destruct (Hm1 k d Hd) as (d1 & Hd1 & Hf1 & He1).
  destruct (Hm2 k d1 Hd1) as (d2 & Hd2 & Hf2 & He2).
  exists d2. split; [done|]. split; [congruence|].
  intros Hk. rewrite He2, He1; [done|..]; intros Hin; apply Hk; auto.
Qed.

Lemma copy_back_moved inds : forall gamma data data',
  copy_back inds gamma data = Some data' -> moved_only inds data data'.
Proof.
  induction inds as [|k inds IH]; intros gamma data data' H.
  - simpl in H. simplify_eq. apply moved_only_refl.
  - destruct gamma as [|g gamma]; [done|]. simpl in H.
    destruct (at_index data k) as [d|] eqn:Hd; [|done]. simpl in H.
    apply IH in H.
    eapply (moved_only_trans [k] inds); [| |..|exact H].
    + intros x Hx. apply list_elem_of_singleton in Hx. subst. by left.
    + intros x Hx. by right.
    + split; [by rewrite length_insert|].
      intros j x Hx. unfold at_index in Hd.
      destruct (Z.leb_spec 0 k) as [Hk|]; [|done].
      destruct (decide (j = Z.to_nat k)) as [->|Hne].
      * rewrite list_lookup_insert_eq by (by eapply lookup_lt_Some).
        rewrite Hx in Hd. simplify_eq. eexists. split; [done|]. split; [done|].
        intros Hn. exfalso. apply Hn. apply list_elem_of_singleton. lia.
      * rewrite list_lookup_insert_ne by done. exists x. done.
Qed.

Lemma update_ring_frame dt reg data out r data' out' :
  update_ring filamentKernel dt reg (data, out) r = Some (data', out') ->
  moved_only (if is_deleted (rflag r) then [] else indices r) data data'
  /\ only_failures out out'.
Proof.
  unfold update_ring. fold (is_deleted (rflag r)).
  destruct (is_deleted (rflag r)).
  - intros H. simplify_eq. split; [apply moved_only_refl|]. exists []. by rewrite app_nil_r.
  - intros H.
    destruct (ring_params _ _ _ _ _) as [[[gamma l] ra]|]; [|done]. simpl in H.
    destruct (darboux gamma _ l ra) as [[ok1 eta]|]; [|done]. simpl in H.
    destruct ok1; simpl in H.
    2: { simplify_eq. split; [apply moved_only_refl|].
         exists [fwd_failed]. split; [done|]. constructor; [by left|done]. }
    destruct (darboux eta gamma l _) as [[ok2 gamma']|]; [|done]. simpl in H.
    destruct ok2; simpl in H.
    2: { simplify_eq. split; [apply moved_only_refl|].
         exists [bwd_failed]. split; [done|]. constructor; [by right|done]. }
    destruct (copy_back _ _ _) as [d1|] eqn:Hcb; [|done]. simpl in H. simplify_eq.
    split; [by eapply copy_back_moved|]. exists []. by rewrite app_nil_r.
Qed.

Lemma update_rings_frame dt reg rings : forall data out data' out',
  update_rings filamentKernel dt reg rings (data, out) = Some (data', out') ->
  moved_only (live_indices rings) data data' /\ only_failures out out'.
Proof.
  induction rings as [|r rest IH]; intros data out data' out' H.
  - simpl in H. simplify_eq. split; [apply moved_only_refl|]. exists []. by rewrite app_nil_r.
  - change (update_rings filamentKernel dt reg (r :: rest) (data, out))
      with (update_ring filamentKernel dt reg (data, out) r
            ≫= update_rings filamentKernel dt reg rest) in H.
    destruct (update_ring filamentKernel dt reg (data, out) r) as [[d1 o1]|] eqn:Hr; [|done].
    simpl in H. apply update_ring_frame in Hr as [Hm1 (m1 & -> & Hf1)].
    apply IH in H as [Hm2 (m2 & -> & Hf2)]. split.
    + unfold live_indices. simpl.
      eapply moved_only_trans; [| |exact Hm1|exact Hm2]; intros k Hk;
        apply elem_of_app; auto.
    + exists (m1 ++ m2). rewrite app_assoc. split; [done|]. by apply Forall_app.
Qed.

(** X15. [doublyDiscreteUpdate] only moves particles of live rings: the
    segments and both counters are as before, the particle vector keeps
    its length and every flag, a particle that no ring without the delete
    flag refers to keeps its record, and the output grows by failure
    messages only. *)
Theorem doublyDiscreteUpdate_frame dt reg (s s' : @ConnectedParticleSystem Real) out out' :
  doublyDiscreteUpdate filamentKernel dt reg s out = Some (s', out') ->
  mSegments s' = mSegments s
  /\ mDeletes (psys s') = mDeletes (psys s)
  /\ mDeleteChunk (psys s') = mDeleteChunk (psys s)
  /\ moved_only (live_indices (mSegments s)) (mData (psys s)) (mData (psys s'))
  /\ only_failures out out'.
Proof.
  unfold doublyDiscreteUpdate. intros H.
  destruct (update_rings _ _ _ _ _) as [[d1 o1]|] eqn:Hu; [|done]. simpl in H.
  simplify_eq. simpl. apply update_rings_frame in Hu. tauto.
Qed.

Lemma evaluateRefU_loop_defined (pos : list (Vec3 Real)) circ reg n : forall j sum,
  (0 < length pos)%nat -> (j + n < length pos)%nat ->
  is_Some (for_loop
    (λ sum i,
       a ← pos !! i; b ← pos !! S i; x ← pos !! 0%nat;
       Some (vadd sum (filamentKernel a b circ (fint 1) (flit 10000000000 1) reg x)))
    n j sum).
Proof.
  induction n as [|n IH]; intros j sum H0 Hj; [done|].
  cbn [for_loop].
  destruct (lookup_lt_is_Some_2 pos j) as [a Ha]; [lia|].
  destruct (lookup_lt_is_Some_2 pos (S j)) as [b Hb]; [lia|].
  destruct (lookup_lt_is_Some_2 pos 0) as [x Hx]; [lia|].
  rewrite Ha at 1. cbn [mbind option_bind]. rewrite Hb at 1. cbn [mbind option_bind].
  rewrite Hx at 1. cbn [mbind option_bind]. apply IH; [done|lia].
Qed.

Lemma evaluateRefU_is_Some (N : nat) L circ reg :
  is_Some (evaluateRefU filamentKernel N L circ reg).
Proof.
  unfold evaluateRefU. destruct (decide (N <= 2)%nat) as [Hle|Hgt].
  - replace (N - 2)%nat with 0%nat by lia. done.
  - match goal with |- is_Some (?m ≫= _) => assert (is_Some m) as [sum ->] end; [|done].
    apply evaluateRefU_loop_defined; rewrite length_fmap, length_seq; lia.
Qed.

(** X17. [evaluateRefU] never indexes outside its polygon, for any
    [N] (0 included).  For [N <= 2] its loop evaluates no edge at all:
    the result is the norm of the zero vector, whatever [L], [circ] and
    [reg] are. *)
Theorem evaluateRefU_defined (N : nat) L circ reg :
  is_Some (evaluateRefU filamentKernel N L circ reg)
  /\ ((N <= 2)%nat -> evaluateRefU filamentKernel N L circ reg = Some (norm vzero)).
Proof.
  split; [apply evaluateRefU_is_Some|].
  intros Hle. unfold evaluateRefU. replace (N - 2)%nat with 0%nat by lia. done.
Qed.

Lemma pos_at_is_Some data k :
  is_Some (pos_at data k) <-> 0 <= k < Z.of_nat (length data).
Proof. unfold pos_at. rewrite fmap_is_Some. apply at_index_is_Some. Qed.

Lemma ring_params_defined dt reg data r :
  (forall k, k ∈ indices r -> 0 <= k < Z.of_nat (length data)) ->
  exists gamma l ra, ring_params filamentKernel dt reg data r = Some (gamma, l, ra)
    /\ length gamma = length (indices r).
Proof.
  intros Hrng. unfold ring_params.
  match goal with |- context [for_loop ?b ?n ?j ?u] =>
    assert (is_Some (for_loop b n j u)) as [L ->] end.
  { apply for_loop_defined. intros v j Hj.
    destruct (idx0_elem r j) as (i0 & -> & Hi0); [lia|].
    destruct (idx1_elem r j) as (i1 & -> & Hi1); [lia|].
    cbn [mbind option_bind].
    destruct (proj2 (pos_at_is_Some data i0) (Hrng _ Hi0)) as [p0 ->].
    cbn [mbind option_bind].
    destruct (proj2 (pos_at_is_Some data i1) (Hrng _ Hi1)) as [p1 ->]. done. }
  cbn [mbind option_bind].
  assert (is_Some (mapM (pos_at data) (indices r))) as [gamma Hg].
  { apply mapM_is_Some, Forall_forall. intros k Hk. by apply pos_at_is_Some, Hrng. }
  rewrite Hg. cbn [mbind option_bind].
  destruct (evaluateRefU_is_Some (length (indices r)) L (circulation r) reg) as [Ur ->].
  cbn [mbind option_bind]. eexists _, _, _. split; [done|].
  symmetry. by eapply length_mapM.
Qed.

Lemma copy_back_defined inds : forall gamma data,
  (forall k, k ∈ inds -> 0 <= k < Z.of_nat (length data)) ->
  (length inds <= length gamma)%nat ->
  is_Some (copy_back inds gamma data).
Proof.
  induction inds as [|k inds IH]; intros gamma data Hrng Hlen; [done|].
  destruct gamma as [|g gamma]; [simpl in Hlen; lia|]. simpl.
  destruct (proj2 (at_index_is_Some data k)) as [d ->]; [apply Hrng; by left|].
  simpl. apply IH; [|simpl in Hlen; lia].
  intros x Hx. rewrite length_insert. apply Hrng. by right.
Qed.

Lemma update_ring_defined dt reg data out r :
  (is_deleted (rflag r) = false ->
   forall k, k ∈ indices r -> 0 <= k < Z.of_nat (length data)) ->
  is_Some (update_ring filamentKernel dt reg (data, out) r).
Proof.
  intros Hrng. unfold update_ring. fold (is_deleted (rflag r)).
  destruct (is_deleted (rflag r)); [done|]. specialize (Hrng eq_refl).
  destruct (ring_params_defined dt reg data r Hrng) as (gamma & l & ra & -> & Hg).
  cbn [mbind option_bind].
  destruct (darboux_defined gamma (replicate (length (indices r)) vzero) l ra)
    as [[ok1 eta] H1]; [rewrite length_replicate; lia|].
  rewrite H1. cbn [mbind option_bind].
  apply darboux_shape in H1 as (Hl1 & _). rewrite length_replicate in Hl1.
  destruct ok1; [|done]. cbn [negb].
  destruct (darboux_defined eta gamma l (fneg ra)) as [[ok2 gamma'] H2]; [lia|].
  rewrite H2. cbn [mbind option_bind].
  apply darboux_shape in H2 as (Hl2 & _).
  destruct ok2; [|done]. cbn [negb].
  destruct (copy_back_defined (indices r) gamma' data Hrng) as [d' ->]; [lia|]. done.
Qed.

Lemma update_rings_defined dt reg rings : forall data out,
  (forall r, r ∈ rings -> is_deleted (rflag r) = false ->
     forall k, k ∈ indices r -> 0 <= k < Z.of_nat (length data)) ->
  is_Some (update_rings filamentKernel dt reg rings (data, out)).
Proof.
  induction rings as [|r rest IH]; intros data out Hrng; [done|].
  change (update_rings filamentKernel dt reg (r :: rest) (data, out))
    with (update_ring filamentKernel dt reg (data, out) r
          ≫= update_rings filamentKernel dt reg rest).
  destruct (update_ring_defined dt reg data out r) as [[d1 o1] H1].
  { apply Hrng. by left. }
  rewrite H1. cbn [mbind option_bind].
  apply update_ring_frame in H1 as [[Hlen _] _].
  apply IH. intros r' Hr'. rewrite Hlen. apply Hrng. by right.
Qed.

(** X16. [doublyDiscreteUpdate] stays inside its vectors: when every
    index of every ring without the delete flag names a particle, no read
    or write of the update leaves [mData], [gamma] or [eta], for rings of
    any length (0 included).  Indices of flagged rings are not looked
    at. *)
Theorem doublyDiscreteUpdate_defined dt reg (s : @ConnectedParticleSystem Real) out :
  (forall r, r ∈ mSegments s -> is_deleted (rflag r) = false ->
     forall k, k ∈ indices r -> 0 <= k < sys_size (psys s)) ->
  is_Some (doublyDiscreteUpdate filamentKernel dt reg s out).
Proof.
  intros Hrng. unfold doublyDiscreteUpdate.
  destruct (update_rings_defined dt reg (mSegments s) (mData (psys s)) out Hrng)
    as [[d o] ->]. done.
Qed.

End DarbouxFacts.

(** ** Grid advection *)

Section AdvectFacts.
Context {Real : Type} {ops : RealOps Real} {MACGrid FlagGrid : Type}.
Variable integrateMeshMAC : IntegrationMode -> Vec3 Real -> MACGrid -> Real -> Vec3 Real.
Variable isInBounds : FlagGrid -> Vec3 Real -> Z -> bool.
Variable isObstacle : FlagGrid -> Vec3 Real -> bool.

(** C10. In [KnAdvectInGrid] the delete flag of a particle is newly set
    only if the particle was active and its advected position is out of
    bounds or inside an obstacle and has x > 5; it is then set.  Whenever
    the test [x > 5] fails on the position the kernel leaves behind -- in
    particular for x <= 5 -- the flag word is left as it was, out of
    bounds or inside an obstacle notwithstanding. *)
Theorem advect_delete_only_beyond_5 mode (vel : MACGrid) (fg : FlagGrid) dt
  (d : @BasicParticleData Real) :
  let d' := KnAdvectInGrid integrateMeshMAC isInBounds isObstacle mode vel fg dt d in
  (flag d' <> flag d ->
     active d = true
     /\ (negb (isInBounds fg (pos d') 1) || isObstacle fg (pos d')) = true
     /\ fltb (fint 5) (vx (pos d')) = true)
  /\ (active d = true ->
      (negb (isInBounds fg (pos d') 1) || isObstacle fg (pos d')) = true ->
      fltb (fint 5) (vx (pos d')) = true ->
      flag d' = Z.lor (flag d) PDELETE /\ is_deleted (flag d') = true)
  /\ (fltb (fint 5) (vx (pos d')) = false -> flag d' = flag d).
Proof.
  cbv zeta. unfold KnAdvectInGrid. destruct (active d) eqn:Hact; cbn [negb].
  - set (p := vadd (pos d) (integrateMeshMAC mode (pos d) vel dt)).
    destruct (negb (isInBounds fg p 1) || isObstacle fg p) eqn:Hout;
      destruct (fltb (fint 5) (vx p)) eqn:H5; cbn [andb pos flag].
    + rewrite Hout, H5. split; [done|]. split; [|done].
      intros _ _ _. split; [done|]. apply is_deleted_lor.
    + rewrite Hout, H5. split; [done|]. split; done.
    + rewrite Hout, H5. split; [done|]. split; done.
    + rewrite Hout, H5. split; [done|]. split; done.
  - split; [done|]. split; done.
Qed.


(** X8. [advectInGrid] throws on an integration mode it does not know and
    otherwise only moves and flags: the number of records and both
    counters stay, so it never compacts and every particle index remains
    valid; a record that carries the delete flag is not touched at all; a
    flag changes at most by gaining PDELETE, so no particle is revived. *)
Theorem advectInGrid_frame (fg : FlagGrid) (vel : MACGrid) dt mode
  (s : @ParticleSystem Real) :
  advectInGrid integrateMeshMAC isInBounds isObstacle fg vel dt None s = None
  /\ exists s', advectInGrid integrateMeshMAC isInBounds isObstacle fg vel dt (Some mode) s
                = Some s'
       /\ length (mData s') = length (mData s)
       /\ mDeletes s' = mDeletes s /\ mDeleteChunk s' = mDeleteChunk s
       /\ forall i d, mData s !! i = Some d ->
            exists d', mData s' !! i = Some d'
              /\ (active d = false -> d' = d)
              /\ (flag d' = flag d \/ flag d' = Z.lor (flag d) PDELETE)
              /\ (active d' = true -> active d = true).
Proof.
  split; [done|]. eexists. split; [done|]. simpl.
  rewrite length_fmap. repeat split; try done.
  intros i d Hd. rewrite list_lookup_fmap, Hd. simpl. eexists. split; [done|].
  unfold KnAdvectInGrid. destruct (active d) eqn:Hact; simpl.
  - split; [done|]. destruct (_ && _); simpl; auto.
  - split; [done|]. split; [by left|]. by rewrite Hact.
Qed.

End AdvectFacts.

(** ** Remeshing *)

Section RemeshFacts.
Context {Real : Type} {ops : RealOps Real}.
Variable hermite : Vec3 Real -> Vec3 Real -> Vec3 Real -> Vec3 Real -> Real -> Vec3 Real.
Variable tangent : Vec3 Real -> Vec3 Real -> Vec3 Real -> Vec3 Real.
Implicit Types (sys : @ParticleSystem Real) (r : @VortexRing Real) (ins : gmap Z Z)
  (data : list (@BasicParticleData Real)) (s : @ConnectedParticleSystem Real).

Lemma pos_at_app data new k p :
  pos_at data k = Some p -> pos_at (data ++ new) k = Some p.
Proof.
  unfold pos_at, at_index. destruct (0 <=? k); [|done].
  destruct (data !! Z.to_nat k) as [d|] eqn:E; [|done].
  intros H. by rewrite (lookup_app_l_Some _ _ _ _ E).
Qed.

Lemma ring_short_app m2 data new r :
  ring_short m2 data r -> ring_short m2 (data ++ new) r.
Proof.
  intros H j Hj. destruct (H j Hj) as (i0 & p0 & i1 & p1 & H0 & Hp0 & H1 & Hp1 & Hs).
  exists i0, p0, i1, p1. eauto 10 using pos_at_app.
Qed.

Lemma map_insert_new_size k v ins : (1 <= size (map_insert_new k v ins))%nat.
Proof.
  unfold map_insert_new. destruct (ins !! k) as [x|] eqn:E.
  - destruct (decide (size ins = 0)%nat) as [Hz|]; [|lia].
    apply map_size_empty_inv in Hz. subst. by rewrite lookup_empty in E.
  - rewrite map_size_insert_None by done. lia.
Qed.

(** One step of the scan: the store only grows at its end, by records
    without flags; a non-empty map stays non-empty; a step that leaves
    the map empty found a short edge and changed nothing. *)
Lemma scan_edge_spec m2 r sys ins off j sys' ins' off' :
  scan_edge hermite tangent m2 r (sys, ins, off) j = Some (sys', ins', off') ->
  (exists new, mData sys' = mData sys ++ new /\ Forall (λ d, flag d = 0) new)
  /\ ((1 <= size ins)%nat -> (1 <= size ins')%nat)
  /\ (size ins' = 0%nat -> sys' = sys /\ edge_short m2 (mData sys) r j).
Proof.
  unfold scan_edge.
  destruct (idx0 r (Z.of_nat j)) as [i0|] eqn:H0; [|done]. simpl.
  destruct (pos_at (mData sys) i0) as [p0|] eqn:Hp0; [|done]. simpl.
  destruct (idx1 r (Z.of_nat j)) as [i1|] eqn:H1; [|done]. simpl.
  destruct (pos_at (mData sys) i1) as [p1|] eqn:Hp1; [|done]. simpl.
  destruct (fltb m2 (normSquare (vsub p1 p0))) eqn:Hl.
  - destruct (idx r (Z.of_nat j - 1)) as [im|]; [|done]. simpl.
    destruct (pos_at (mData sys) im) as [p_1|]; [|done]. simpl.
    destruct (idx r (Z.of_nat j + 2)) as [i2|]; [|done]. simpl.
    destruct (pos_at (mData sys) i2) as [p2|]; [|done]. simpl.
    intros [= <- <- <-]. simpl. split; [|split].
    + eexists. split; [done|]. by repeat constructor.
    + intros _. apply map_insert_new_size.
    + intros Hz. pose proof (map_insert_new_size (Z.of_nat j + off)
        (Z.of_nat (length (mData sys ++ [mkParticle (hermite p0 p1 (tangent p_1 p0 p1) (tangent p0 p1 p2) (flit 5 10)) 0])) - 1) ins). lia.
  - intros [= <- <- <-]. split; [|split].
    + exists []. by rewrite app_nil_r.
    + done.
    + intros _. split; [done|]. exists i0, p0, i1, p1. done.
Qed.

Lemma scan_loop_spec m2 r n : forall j sys ins off sys' ins' off',
  for_loop (scan_edge hermite tangent m2 r) n j (sys, ins, off) = Some (sys', ins', off') ->
  (exists new, mData sys' = mData sys ++ new /\ Forall (λ d, flag d = 0) new)
  /\ ((1 <= size ins)%nat -> (1 <= size ins')%nat)
  /\ (size ins' = 0%nat ->
      sys' = sys /\ forall k, (j <= k < j + n)%nat -> edge_short m2 (mData sys) r k).
Proof.
  induction n as [|n IH]; intros j sys ins off sys' ins' off'.
  - simpl. intros [= <- <- <-]. split; [|split].
    + exists []. by rewrite app_nil_r.
    + done.
    + intros _. split; [done|]. intros k Hk. lia.
  - change (for_loop (scan_edge hermite tangent m2 r) (S n) j (sys, ins, off))
      with (scan_edge hermite tangent m2 r (sys, ins, off) j
              ≫= for_loop (scan_edge hermite tangent m2 r) n (S j)).
    destruct (scan_edge hermite tangent m2 r (sys, ins, off) j) as [[[sys1 ins1] off1]|] eqn:Hstep;
      simpl; [|done]. intros Hrest.
    destruct (scan_edge_spec _ _ _ _ _ _ _ _ _ Hstep) as ((new1 & Hn1 & Hf1) & Hmono1 & Hz1).
    destruct (IH _ _ _ _ _ _ _ Hrest) as ((new2 & Hn2 & Hf2) & Hmono2 & Hz2).
    split; [|split].
    + exists (new1 ++ new2). rewrite Hn2, Hn1, app_assoc. split; [done|].
      by apply Forall_app.
    + auto.
    + intros Hz. destruct (decide (size ins1 = 0)%nat) as [Hz0|Hnz].
      * destruct (Hz1 Hz0) as [-> He]. destruct (Hz2 Hz) as [-> Hes].
        split; [done|]. intros k Hk. destruct (decide (k = j)) as [->|]; [done|].
        apply Hes. lia.
      * specialize (Hmono2 ltac:(lia)). lia.
Qed.

(** [remesh] on one ring: when it returns, the old particle records are
    an unchanged prefix of the store, the new ones carry no flag, the
    ring keeps its flag and circulation, and none of its edges is longer
    than the threshold. *)
Lemma remesh_ring_spec m2 fuel : forall sys r sys' r',
  remesh_ring hermite tangent fuel m2 sys r = Some (sys', r') ->
  (exists new, mData sys' = mData sys ++ new /\ Forall (λ d, flag d = 0) new)
  /\ rflag r' = rflag r /\ circulation r' = circulation r
  /\ ring_short m2 (mData sys') r'.
Proof.
  induction fuel as [|fuel IH]; intros sys r sys' r'; simpl; [done|].
  destruct (for_loop _ _ _ _) as [[[sys1 ins1] off1]|] eqn:Hscan; [|done]. simpl.
  destruct (scan_loop_spec _ _ _ _ _ _ _ _ _ _ Hscan) as ((new1 & Hn1 & Hf1) & _ & Hz).
  destruct (decide (size ins1 = 0)%nat) as [Hz0|Hnz].
  - intros [= <- <-]. destruct (Hz Hz0) as [-> Hes].
    split; [exists []; by rewrite app_nil_r|]. split; [done|]. split; [done|].
    intros j Hj. apply Hes. lia.
  - destruct (splice _ _ _ _) as [inds|]; [|done]. simpl. intros Hrec.
    destruct (IH _ _ _ _ Hrec) as ((new2 & Hn2 & Hf2) & Hfl & Hc & Hs).
    split; [|done].
    exists (new1 ++ new2). rewrite Hn2, Hn1, app_assoc. split; [done|].
    by apply Forall_app.
Qed.

Lemma remesh_loop_spec m2 fuel todo : forall i s s',
  (i + todo = length (mSegments s))%nat ->
  remesh_loop hermite tangent fuel m2 todo i s = Some s' ->
  (forall k r, (k < i)%nat -> mSegments s !! k = Some r ->
     ring_short m2 (mData (psys s)) r) ->
  (exists new, mData (psys s') = mData (psys s) ++ new /\ Forall (λ d, flag d = 0) new)
  /\ length (mSegments s') = length (mSegments s)
  /\ (forall k r, mSegments s !! k = Some r ->
        exists r', mSegments s' !! k = Some r' /\ rflag r' = rflag r
                   /\ circulation r' = circulation r)
  /\ forall k r, mSegments s' !! k = Some r -> ring_short m2 (mData (psys s')) r.
Proof.
  induction todo as [|todo IH]; intros i s s' Hsum; simpl.
  - intros [= <-] Hdone. split; [exists []; by rewrite app_nil_r|].
    split; [done|]. split; [eauto|].
    intros k r Hk. apply (Hdone k); [|done]. apply lookup_lt_Some in Hk. lia.
  - destruct (mSegments s !! i) as [r|] eqn:Hi; [|done]. simpl.
    destruct (remesh_ring _ _ _ _ _ _) as [[sys1 r1]|] eqn:Hring; [|done]. simpl.
    intros Hrest Hdone.
    destruct (remesh_ring_spec _ _ _ _ _ _ Hring) as ((new1 & Hn1 & Hf1) & Hfl & Hc & Hs).
    apply IH in Hrest.
    + destruct Hrest as ((new2 & Hn2 & Hf2) & Hlen & Hkeep & Hall). simpl in *.
      split; [|split; [|split]].
      * exists (new1 ++ new2). rewrite Hn2, Hn1, app_assoc. split; [done|].
        by apply Forall_app.
      * by rewrite Hlen, length_insert.
      * intros k r0 Hk. destruct (decide (k = i)) as [->|Hne].
        -- destruct (Hkeep i r1) as (r' & Hr' & Hf' & Hc').
           { apply list_lookup_insert_eq. by eapply lookup_lt_Some. }
           exists r'. simplify_eq. split; [done|]. split; congruence.
        -- apply Hkeep. by rewrite list_lookup_insert_ne.
      * done.
    + simpl. rewrite length_insert. lia.
    + simpl. intros k r0 Hk Hr0. destruct (decide (k = i)) as [->|Hne].
      * rewrite list_lookup_insert_eq in Hr0 by (by eapply lookup_lt_Some).
        by simplify_eq.
      * rewrite list_lookup_insert_ne in Hr0 by done.
        rewrite Hn1. apply ring_short_app. apply (Hdone k); [lia|done].
Qed.

(** X20. After [remesh] returns: the old particle records are an
    unchanged prefix of the store and the new ones carry no flag; the
    segments keep their number, flags and circulation; and no edge of any
    ring (live or not) compares longer than [maxLen] squared. *)
Lemma remesh_spec fuel maxLen s s' :
  remesh hermite tangent fuel maxLen s = Some s' ->
  (exists new, mData (psys s') = mData (psys s) ++ new /\ Forall (λ d, flag d = 0) new)
  /\ length (mSegments s') = length (mSegments s)
  /\ (forall k r, mSegments s !! k = Some r ->
        exists r', mSegments s' !! k = Some r' /\ rflag r' = rflag r
                   /\ circulation r' = circulation r)
  /\ forall k r, mSegments s' !! k = Some r ->
       ring_short (fmul maxLen maxLen) (mData (psys s')) r.
Proof.
  intros H. eapply remesh_loop_spec in H; [done|done|]. intros k r Hk. lia.
Qed.

Lemma olds_app L e : olds (L ++ [e]) = olds L ++ (if fst e then [] else [snd e]).
Proof.
  unfold olds. rewrite filter_app, fmap_app. f_equal.
  by destruct e as [[] v].
Qed.

Lemma olds_length L : (length (olds L) <= length L)%nat.
Proof. unfold olds. rewrite length_fmap. apply length_filter. Qed.

Lemma drop_insert_here {A} (arr : list A) n v :
  (n < length arr)%nat -> drop n (<[n:=v]> arr) = v :: drop (S n) arr.
Proof.
  intros Hn. destruct (lookup_lt_is_Some_2 arr n Hn) as [x Hx].
  rewrite drop_insert_ge, Nat.sub_diag by lia.
  by rewrite (drop_S arr x n Hx).
Qed.

Lemma splice_layout (L : list (bool * Z)) : forall ins arr,
  agrees ins L ->
  (length L <= length arr)%nat ->
  take (length (olds L)) arr = olds L ->
  splice ins (length L) (Z.of_nat (length (olds L)) - 1) arr
  = Some ((snd <$> L) ++ drop (length L) arr).
Proof.
  induction L as [|[tag v] L IH] using rev_ind; intros ins arr Hmap Hlen Htake.
  - simpl. by rewrite drop_0.
  - rewrite length_app in Hlen. simpl in Hlen.
    pose proof (olds_length L) as Hol.
    assert (agrees ins L) as Hmap'.
    { intros q Hq. rewrite (Hmap q) by (rewrite length_app; simpl; lia).
      by rewrite lookup_app_l by lia. }
    pose proof (Hmap (length L)) as Hq.
    rewrite length_app, lookup_app_r, Nat.sub_diag in Hq by lia.
    specialize (Hq ltac:(simpl; lia)). simpl in Hq.
    rewrite olds_app in Htake |- *. rewrite length_app.
    replace (length L + length [(tag, v)])%nat with (S (length L)) by (simpl; lia).
    cbn [splice]. rewrite Hq. rewrite fmap_app. simpl.
    destruct tag; simpl in *.
    + rewrite app_nil_r in *.
      rewrite IH; [|done|by rewrite length_insert; lia|by rewrite take_insert_ge by lia].
      f_equal. rewrite <- app_assoc. f_equal. simpl.
      apply drop_insert_here. lia.
    + rewrite length_app in Htake |- *. simpl in Htake |- *.
      assert (arr !! length (olds L) = Some v) as Hv.
      { apply (f_equal (λ l, l !! length (olds L))) in Htake.
        rewrite lookup_take_lt in Htake by lia.
        rewrite Htake, lookup_app_r, Nat.sub_diag by lia. done. }
      unfold at_index.
      replace (0 <=? Z.of_nat (length (olds L) + 1) - 1) with true
        by (symmetry; apply Z.leb_le; lia).
      replace (Z.to_nat (Z.of_nat (length (olds L) + 1) - 1)) with (length (olds L)) by lia.
      rewrite Hv. simpl.
      replace (Z.of_nat (length (olds L) + 1) - 1 - 1) with (Z.of_nat (length (olds L)) - 1) by lia.
      rewrite IH; [|done|by rewrite length_insert; lia|].
      * f_equal. rewrite <- app_assoc. f_equal. simpl.
        apply drop_insert_here. lia.
      * rewrite take_insert_ge by lia.
        apply (f_equal (take (length (olds L)))) in Htake.
        rewrite take_take, take_app_length in Htake.
        by rewrite Nat.min_l in Htake by lia.
Qed.

Lemma layout_cons x inds m mids :
  layout (x :: inds) (m :: mids)
  = ((false, x) :: match m with Some v => [(true, v)] | None => [] end) ++ layout inds mids.
Proof. reflexivity. Qed.

Lemma layout_snoc inds mids x m :
  length inds = length mids ->
  layout (inds ++ [x]) (mids ++ [m])
  = layout inds mids ++ (false, x) :: match m with Some v => [(true, v)] | None => [] end.
Proof.
  intros Hlen. unfold layout. rewrite zip_with_app by done.
  rewrite concat_app. simpl. by rewrite app_nil_r.
Qed.

Lemma layout_length inds mids :
  length inds = length mids ->
  length (layout inds mids) = (length inds + length (omap (λ o : option Z, o) mids))%nat.
Proof.
  revert mids. induction inds as [|x inds IH]; intros [|m mids] Hlen; try done.
  simpl in Hlen. rewrite layout_cons, length_app, IH by lia.
  destruct m; simpl; change (list_omap (option Z) Z (λ o : option Z, o) mids) with (omap (λ o : option Z, o) mids); lia.
Qed.

Lemma olds_app_list L1 L2 : olds (L1 ++ L2) = olds L1 ++ olds L2.
Proof. unfold olds. by rewrite filter_app, fmap_app. Qed.

Lemma olds_layout inds mids :
  length inds = length mids -> olds (layout inds mids) = inds.
Proof.
  revert mids. induction inds as [|x inds IH]; intros [|m mids] Hlen; try done.
  simpl in Hlen. rewrite layout_cons, olds_app_list, IH by lia. by destruct m.
Qed.

Lemma interleave_sublist inds mids :
  length inds = length mids -> inds `sublist_of` interleave inds mids.
Proof.
  revert mids. induction inds as [|x inds IH]; intros [|m mids] Hlen; try done.
  simpl in Hlen. unfold interleave in *. rewrite layout_cons, fmap_app.
  destruct m; simpl.
  - apply sublist_skip, sublist_cons. apply IH. lia.
  - apply sublist_skip. apply IH. lia.
Qed.

Lemma map_of_layout_agrees ins L : map_of_layout ins L -> agrees ins L.
Proof.
  intros H q Hq. rewrite (H (Z.of_nat q)).
  replace (0 <=? Z.of_nat q) with true by (symmetry; apply Z.leb_le; lia).
  by rewrite Nat2Z.id.
Qed.

Lemma map_of_layout_fresh ins L (k : nat) :
  map_of_layout ins L -> (length L <= k)%nat -> ins !! Z.of_nat k = None.
Proof.
  intros H Hk. rewrite (H (Z.of_nat k)).
  replace (0 <=? Z.of_nat k) with true by (symmetry; apply Z.leb_le; lia).
  by rewrite Nat2Z.id, lookup_ge_None_2.
Qed.

Lemma map_of_layout_old ins L x :
  map_of_layout ins L -> map_of_layout ins (L ++ [(false, x)]).
Proof.
  intros H q. rewrite (H q). destruct (0 <=? q) eqn:Hq; [|done].
  apply Z.leb_le in Hq.
  destruct (decide (Z.to_nat q < length L)%nat).
  - by rewrite lookup_app_l.
  - rewrite lookup_ge_None_2 by lia. rewrite lookup_app_r by lia.
    destruct (Z.to_nat q - length L)%nat as [|[|k]]; done.
Qed.

Lemma map_of_layout_new ins L v :
  map_of_layout ins L ->
  map_of_layout (<[Z.of_nat (length L) := v]> ins) (L ++ [(true, v)]).
Proof.
  intros H q. destruct (decide (q = Z.of_nat (length L))) as [->|Hne].
  - rewrite lookup_insert_eq.
    replace (0 <=? Z.of_nat (length L)) with true by (symmetry; apply Z.leb_le; lia).
    by rewrite Nat2Z.id, lookup_app_r, Nat.sub_diag by lia.
  - rewrite lookup_insert_ne by done. rewrite (H q).
    destruct (0 <=? q) eqn:Hq; [|done]. apply Z.leb_le in Hq.
    destruct (decide (Z.to_nat q < length L)%nat).
    + by rewrite lookup_app_l.
    + rewrite lookup_ge_None_2 by lia. rewrite lookup_app_r by lia.
      destruct (Z.to_nat q - length L)%nat as [|[|k]] eqn:E; [lia|done..].
Qed.


Lemma scan_edge_layout m2 r sys ins off j mids x sys' ins' off' :
  indices r !! j = Some x -> length mids = j ->
  map_of_layout ins (layout (take j (indices r)) mids) ->
  off = 1 + Z.of_nat (length (omap (λ o : option Z, o) mids)) ->
  size ins = length (omap (λ o : option Z, o) mids) ->
  scan_edge hermite tangent m2 r (sys, ins, off) j = Some (sys', ins', off') ->
  exists m,
    map_of_layout ins' (layout (take (S j) (indices r)) (mids ++ [m]))
    /\ off' = 1 + Z.of_nat (length (omap (λ o : option Z, o) (mids ++ [m])))
    /\ size ins' = length (omap (λ o : option Z, o) (mids ++ [m]))
    /\ match m with
       | Some v => edge_split hermite tangent m2 (mData sys) r j v (mData sys')
       | None => sys' = sys /\ edge_short m2 (mData sys) r j
       end.
Proof.
  intros Hx Hmids Hmap Hoff Hsize.
  pose proof (lookup_lt_Some _ _ _ Hx) as Hj.
  assert (length (take j (indices r)) = length mids) as Hlen
    by (rewrite length_take; lia).
  pose proof (layout_length _ _ Hlen) as HL. rewrite length_take, Nat.min_l in HL by lia.
  rewrite (take_S_r _ _ _ Hx).
  unfold scan_edge.
  destruct (idx0 r (Z.of_nat j)) as [i0|] eqn:H0; [|done]. simpl.
  destruct (pos_at (mData sys) i0) as [p0|] eqn:Hp0; [|done]. simpl.
  destruct (idx1 r (Z.of_nat j)) as [i1|] eqn:H1; [|done]. simpl.
  destruct (pos_at (mData sys) i1) as [p1|] eqn:Hp1; [|done]. simpl.
  destruct (fltb m2 (normSquare (vsub p1 p0))) eqn:Hl.
  - destruct (idx r (Z.of_nat j - 1)) as [im|] eqn:Hm; [|done]. simpl.
    destruct (pos_at (mData sys) im) as [p_1|] eqn:Hpm; [|done]. simpl.
    destruct (idx r (Z.of_nat j + 2)) as [i2|] eqn:H2; [|done]. simpl.
    destruct (pos_at (mData sys) i2) as [p2|] eqn:Hp2; [|done]. simpl.
    intros [= <- <- <-].
    set (num := Z.of_nat (length (mData sys ++ _)) - 1).
    exists (Some num). rewrite layout_snoc by done. rewrite omap_app, length_app. simpl.
    assert (Z.of_nat j + off = Z.of_nat (length (layout (take j (indices r)) mids ++ [(false, x)])))
      as Hkey by (rewrite length_app; simpl; lia).
    assert (ins !! (Z.of_nat j + off) = None) as Hfresh.
    { rewrite Hkey. eapply map_of_layout_fresh; [done|]. rewrite length_app. lia. }
    unfold map_insert_new. rewrite Hfresh. split; [|split; [|split]].
    + rewrite Hkey.
      change (layout (take j (indices r)) mids ++ [(false, x); (true, num)])
        with (layout (take j (indices r)) mids ++ [(false, x)] ++ [(true, num)]).
      rewrite app_assoc. apply map_of_layout_new. by apply map_of_layout_old.
    + lia.
    + rewrite map_size_insert_None by done. lia.
    + exists i0, p0, i1, p1, im, p_1, i2, p2. repeat (split; [done|]).
      split; [|done]. subst num. rewrite length_app. simpl. lia.
  - intros [= <- <- <-]. exists None.
    rewrite layout_snoc by done. rewrite omap_app, length_app. simpl.
    split; [by apply map_of_layout_old|]. split; [lia|]. split; [lia|].
    split; [done|]. exists i0, p0, i1, p1. done.
Qed.


Lemma scan_loop_layout m2 r n : forall j sys ins off mids sys' ins' off',
  (j + n = length (indices r))%nat -> length mids = j ->
  map_of_layout ins (layout (take j (indices r)) mids) ->
  off = 1 + Z.of_nat (length (omap (λ o : option Z, o) mids)) ->
  size ins = length (omap (λ o : option Z, o) mids) ->
  for_loop (scan_edge hermite tangent m2 r) n j (sys, ins, off) = Some (sys', ins', off') ->
  exists mids', length mids' = n
    /\ map_of_layout ins' (layout (take (j + n) (indices r)) (mids ++ mids'))
    /\ size ins' = length (omap (λ o : option Z, o) (mids ++ mids'))
    /\ scan_steps hermite tangent m2 r j (mData sys) mids' (mData sys').
Proof.
  induction n as [|n IH]; intros j sys ins off mids sys' ins' off' Hsum Hmids Hmap Hoff Hsize.
  - simpl. intros [= <- <- <-]. exists []. rewrite app_nil_r, Nat.add_0_r. done.
  - change (for_loop (scan_edge hermite tangent m2 r) (S n) j (sys, ins, off))
      with (scan_edge hermite tangent m2 r (sys, ins, off) j
              ≫= for_loop (scan_edge hermite tangent m2 r) n (S j)).
    destruct (scan_edge hermite tangent m2 r (sys, ins, off) j) as [[[sys1 ins1] off1]|] eqn:Hstep;
      simpl; [|done]. intros Hrest.
    destruct (lookup_lt_is_Some_2 (indices r) j) as [x Hx]; [lia|].
    destruct (scan_edge_layout _ _ _ _ _ _ _ _ _ _ _ Hx Hmids Hmap Hoff Hsize Hstep)
      as (m & Hmap1 & Hoff1 & Hsize1 & Hm).
    destruct (IH (S j) sys1 ins1 off1 (mids ++ [m]) sys' ins' off') as (mids' & Hl & Hmap' & Hsize' & Hsteps);
      try done; [lia|rewrite length_app; simpl; lia|].
    exists (m :: mids'). rewrite <- app_assoc in Hmap', Hsize'. simpl in Hmap', Hsize'.
    replace (j + S n)%nat with (S j + n)%nat by lia.
    split; [simpl; lia|]. split; [done|]. split; [done|].
    simpl. exists (mData sys1). split; [|done].
    destruct m; [done|]. destruct Hm as [-> ?]. done.
Qed.

(** One pass of [remesh] over a ring: the scan decides edge by edge, and
    the renumbering writes the index list with every new midpoint right
    after the first endpoint of its edge (so between the two endpoints,
    cyclically for the last edge). *)
Lemma remesh_pass m2 r sys sys1 ins1 off1 :
  for_loop (scan_edge hermite tangent m2 r) (length (indices r)) 0 (sys, ∅, 1)
    = Some (sys1, ins1, off1) ->
  exists mids, length mids = length (indices r)
    /\ size ins1 = length (omap (λ o : option Z, o) mids)
    /\ scan_steps hermite tangent m2 r 0 (mData sys) mids (mData sys1)
    /\ splice ins1 (length (indices r) + size ins1) (Z.of_nat (length (indices r)) - 1)
              (indices r ++ replicate (size ins1) 0)
       = Some (interleave (indices r) mids).
Proof.
  intros Hscan.
  destruct (scan_loop_layout m2 r (length (indices r)) 0 sys ∅ 1 [] sys1 ins1 off1)
    as (mids & Hl & Hmap & Hsize & Hsteps); try done.
  { intros q. rewrite lookup_empty. simpl. by destruct (0 <=? q). }
  simpl in Hmap, Hsize. rewrite firstn_all in Hmap.
  exists mids. split; [done|]. split; [done|]. split; [done|].
  pose proof (layout_length (indices r) mids (eq_sym Hl)) as HL.
  pose proof (olds_layout (indices r) mids (eq_sym Hl)) as HO.
  pose proof (splice_layout (layout (indices r) mids) ins1
                (indices r ++ replicate (size ins1) 0)
                (map_of_layout_agrees _ _ Hmap)) as Hsp.
  rewrite HO, HL, <- Hsize in Hsp. rewrite Hsp.
  - f_equal. unfold interleave. rewrite drop_ge, app_nil_r; [done|].
    rewrite length_app, length_replicate. lia.
  - rewrite length_app, length_replicate. lia.
  - by rewrite take_app_length.
Qed.

(** Over all passes on one ring, the old index list is a subsequence of
    the new one: the ring's points keep their cyclic order. *)
Lemma remesh_ring_order m2 fuel : forall sys r sys' r',
  remesh_ring hermite tangent fuel m2 sys r = Some (sys', r') ->
  indices r `sublist_of` indices r'.
Proof.
  induction fuel as [|fuel IH]; intros sys r sys' r'; simpl; [done|].
  destruct (for_loop _ _ _ _) as [[[sys1 ins1] off1]|] eqn:Hscan; [|done]. simpl.
  destruct (remesh_pass _ _ _ _ _ _ Hscan) as (mids & Hl & Hsize & Hsteps & Hsp).
  destruct (decide (size ins1 = 0)%nat) as [Hz0|Hnz].
  - by intros [= <- <-].
  - rewrite Hsp. simpl. intros Hrec. apply IH in Hrec. simpl in Hrec.
    etrans; [|exact Hrec]. by apply interleave_sublist.
Qed.

Lemma remesh_loop_order m2 fuel todo : forall i s s',
  remesh_loop hermite tangent fuel m2 todo i s = Some s' ->
  forall k r, mSegments s !! k = Some r ->
    exists r', mSegments s' !! k = Some r' /\ indices r `sublist_of` indices r'.
Proof.
  induction todo as [|todo IH]; intros i s s'; simpl.
  - intros [= <-] k r Hk. by exists r.
  - destruct (mSegments s !! i) as [r0|] eqn:Hi; [|done]. simpl.
    destruct (remesh_ring _ _ _ _ _ _) as [[sys1 r1]|] eqn:Hring; [|done]. simpl.
    intros Hrest k r Hk. apply remesh_ring_order in Hring.
    destruct (decide (k = i)) as [->|Hne].
    + destruct (IH _ _ _ Hrest i r1) as (r' & Hr' & Hsub).
      { simpl. apply list_lookup_insert_eq. by eapply lookup_lt_Some. }
      exists r'. split; [done|]. simplify_eq. by etrans.
    + apply (IH _ _ _ Hrest). simpl. by rewrite list_lookup_insert_ne.
Qed.

(** X21. After [remesh] returns, the old index list of every ring is a
    subsequence of its new one: no index is dropped or reordered, new
    ones are only inserted between old ones. *)
Lemma remesh_keeps_order fuel maxLen s s' :
  remesh hermite tangent fuel maxLen s = Some s' ->
  forall k r, mSegments s !! k = Some r ->
    exists r', mSegments s' !! k = Some r' /\ indices r `sublist_of` indices r'.
Proof. apply remesh_loop_order. Qed.


(** ** Remeshing: fixed points and index bookkeeping *)

Lemma scan_edge_short m2 r sys ins off j :
  edge_short m2 (mData sys) r j ->
  scan_edge hermite tangent m2 r (sys, ins, off) j = Some (sys, ins, off).
Proof.
  intros (i0 & p0 & i1 & p1 & H0 & Hp0 & H1 & Hp1 & Hs).
  unfold scan_edge. rewrite H0. simpl. rewrite Hp0. simpl. rewrite H1. simpl.
  rewrite Hp1. simpl. by rewrite Hs.
Qed.

Lemma remesh_ring_short m2 fuel sys r :
  ring_short m2 (mData sys) r ->
  remesh_ring hermite tangent (S fuel) m2 sys r = Some (sys, r).
Proof.
  intros Hs. simpl.
  rewrite (for_loop_id (scan_edge hermite tangent m2 r)).
  - simpl. by rewrite decide_True by apply map_size_empty.
  - intros k Hk. apply scan_edge_short, Hs. lia.
Qed.

Lemma remesh_loop_short m2 fuel s todo : forall i,
  (forall r, r ∈ mSegments s -> ring_short m2 (mData (psys s)) r) ->
  (i + todo <= length (mSegments s))%nat ->
  remesh_loop hermite tangent (S fuel) m2 todo i s = Some s.
Proof.
  induction todo as [|todo IH]; intros i Hall Hle; [done|].
  cbn [remesh_loop].
  destruct (lookup_lt_is_Some_2 (mSegments s) i) as [r Hr]; [lia|]. rewrite Hr.
  cbn [mbind option_bind].
  rewrite remesh_ring_short by (apply Hall; by eapply list_elem_of_lookup_2).
  cbn [mbind option_bind]. rewrite list_insert_id by done.
  replace {| psys := psys s; mSegments := mSegments s |} with s by (by destruct s).
  apply IH; [done|lia].
Qed.

(** X22. [remesh] changes nothing on a store whose rings have no edge
    that compares longer than [maxLen] squared: one pass per ring finds
    the insert map empty and leaves the loop.  In particular, remeshing
    the result of a remesh with the same threshold is the identity. *)
Theorem remesh_fixpoint fuel maxLen s :
  (forall r, r ∈ mSegments s -> ring_short (fmul maxLen maxLen) (mData (psys s)) r) ->
  remesh hermite tangent (S fuel) maxLen s = Some s.
Proof. intros H. unfold remesh. by apply remesh_loop_short. Qed.

Lemma scan_steps_grow m2 r mids : forall j data data',
  scan_steps hermite tangent m2 r j data mids data' ->
  length data' = (length data + length (omap (λ o : option Z, o) mids))%nat
  /\ forall v, Some v ∈ mids -> Z.of_nat (length data) <= v < Z.of_nat (length data').
Proof.
  induction mids as [|m mids IH]; intros j data data' H.
  - simpl in H. subst. split; [simpl; lia|]. intros v Hv. by apply elem_of_nil in Hv.
  - simpl in H. destruct H as (data1 & Hm & Hrest). apply IH in Hrest as [Hlen Hv].
    destruct m as [v|].
    + destruct Hm as (i0 & p0 & i1 & p1 & im & p_1 & i2 & p2 & _ & _ & _ & _ & _ & _ & _ & _ & _
                      & -> & ->).
      rewrite length_app in Hlen, Hv. simpl in Hlen, Hv.
      change (omap (λ o : option Z, o) (Some (Z.of_nat (length data)) :: mids))
        with (Z.of_nat (length data) :: omap (λ o : option Z, o) mids).
      simpl. split; [lia|].
      intros v' [Heq|Hin]%elem_of_cons.
      * injection Heq as ->. lia.
      * apply Hv in Hin. lia.
    + destruct Hm as [-> _]. split; [done|].
      intros v' [Heq|Hin]%elem_of_cons; [done|by apply Hv].
Qed.

Lemma interleave_elem inds : forall mids x,
  x ∈ interleave inds mids -> x ∈ inds \/ Some x ∈ mids.
Proof.
  induction inds as [|i inds IH]; intros [|m mids] x Hx;
    try (by apply elem_of_nil in Hx).
  unfold interleave in *. rewrite layout_cons, fmap_app in Hx.
  apply elem_of_app in Hx as [Hx|Hx].
  - destruct m as [v|]; simpl in Hx.
    + apply elem_of_cons in Hx as [->|Hx]; [left; by left|].
      apply list_elem_of_singleton in Hx. subst. right. by left.
    + apply list_elem_of_singleton in Hx. subst. left. by left.
  - apply IH in Hx as [Hx|Hx]; [left|right]; by right.
Qed.

Lemma interleave_length inds mids :
  length inds = length mids ->
  length (interleave inds mids) = (length inds + length (omap (λ o : option Z, o) mids))%nat.
Proof. intros H. unfold interleave. rewrite length_fmap. by apply layout_length. Qed.

Lemma remesh_ring_indices m2 fuel : forall sys r sys' r',
  remesh_ring hermite tangent fuel m2 sys r = Some (sys', r') ->
  (length (mData sys) <= length (mData sys'))%nat
  /\ (length (indices r') + length (mData sys) = length (indices r) + length (mData sys'))%nat
  /\ forall x, x ∈ indices r' ->
       x ∈ indices r \/ Z.of_nat (length (mData sys)) <= x < Z.of_nat (length (mData sys')).
Proof.
  induction fuel as [|fuel IH]; intros sys r sys' r'; simpl; [done|].
  destruct (for_loop _ _ _ _) as [[[sys1 ins1] off1]|] eqn:Hscan; [|done]. simpl.
  destruct (remesh_pass _ _ _ _ _ _ Hscan) as (mids & Hl & Hsize & Hsteps & Hsp).
  apply scan_steps_grow in Hsteps as [Hgrow Hv].
  destruct (decide (size ins1 = 0)%nat) as [Hz0|Hnz].
  - intros [= <- <-]. split; [lia|]. split; [lia|]. auto.
  - rewrite Hsp. simpl. intros Hrec. apply IH in Hrec as (Hle & Hcount & Hin). simpl in *.
    rewrite interleave_length in Hcount by done. split; [lia|]. split; [lia|].
    intros x Hx. apply Hin in Hx as [Hx|Hx]; [|right; lia].
    apply interleave_elem in Hx as [Hx|Hx]; [by left|]. apply Hv in Hx. right. lia.
Qed.

Lemma sum_list_insert (l : list nat) i x y :
  l !! i = Some x -> (sum_list (<[i:=y]> l) + x = sum_list l + y)%nat.
Proof.
  revert i. induction l as [|a l IH]; intros [|i] H; simplify_eq/=; [lia|].
  specialize (IH i H). lia.
Qed.

Lemma remesh_loop_indices m2 fuel todo : forall i s s',
  remesh_loop hermite tangent fuel m2 todo i s = Some s' ->
  (length (mData (psys s)) <= length (mData (psys s')))%nat
  /\ (total_indices s' + length (mData (psys s))
      = total_indices s + length (mData (psys s')))%nat
  /\ forall k r r', mSegments s !! k = Some r -> mSegments s' !! k = Some r' ->
       forall x, x ∈ indices r' -> x ∈ indices r \/ fresh_in s s' x.
Proof.
  induction todo as [|todo IH]; intros i s s'; simpl.
  - intros [= <-]. split; [done|]. split; [done|]. intros k r r' Hr Hr' x Hx.
    left. by simplify_eq.
  - destruct (mSegments s !! i) as [r0|] eqn:Hi; [|done]. simpl.
    destruct (remesh_ring _ _ _ _ _ _) as [[sys1 r1]|] eqn:Hring; [|done]. simpl.
    intros Hrest. apply IH in Hrest as (Hle & Hcount & Hin). simpl in *.
    apply remesh_ring_indices in Hring as (Hle1 & Hc1 & Hin1).
    split; [lia|]. split.
    + unfold total_indices in *. simpl in Hcount.
      rewrite list_fmap_insert in Hcount.
      pose proof (sum_list_insert ((λ r, length (indices r)) <$> mSegments s) i
                    (length (indices r0)) (length (indices r1))) as Hs.
      rewrite list_lookup_fmap, Hi in Hs. specialize (Hs eq_refl). lia.
    + intros k r r' Hr Hr' x Hx. unfold fresh_in, sys_size in *. simpl in *.
      destruct (decide (k = i)) as [->|Hne].
      * assert (<[i:=r1]> (mSegments s) !! i = Some r1) as Hi1
          by (apply list_lookup_insert_eq; by eapply lookup_lt_Some).
        destruct (Hin i r1 r' Hi1 Hr' x Hx) as [H1|H1]; [|right; lia].
        simplify_eq. apply Hin1 in H1 as [H1|H1]; [by left|right; lia].
      * assert (<[i:=r1]> (mSegments s) !! k = Some r) as Hk1
          by (by rewrite list_lookup_insert_ne).
        destruct (Hin k r r' Hk1 Hr' x Hx) as [H1|H1]; [by left|right; lia].
Qed.

(** X23. [remesh] keeps the index lists consistent with the store: the
    rings gain exactly as many indices as the store gains particles;
    every index of a ring afterwards is one of its old indices or names
    one of the new particles; so if all indices were in range before,
    they are in range afterwards. *)
Theorem remesh_indices fuel maxLen s s' :
  remesh hermite tangent fuel maxLen s = Some s' ->
  (total_indices s' + length (mData (psys s))
   = total_indices s + length (mData (psys s')))%nat
  /\ (forall k r r', mSegments s !! k = Some r -> mSegments s' !! k = Some r' ->
        forall x, x ∈ indices r' -> x ∈ indices r \/ fresh_in s s' x)
  /\ ((forall r x, r ∈ mSegments s -> x ∈ indices r -> 0 <= x < sys_size (psys s)) ->
      forall r' x, r' ∈ mSegments s' -> x ∈ indices r' -> 0 <= x < sys_size (psys s')).
Proof.
  intros H.
  assert (length (mSegments s') = length (mSegments s)) as Hlen.
  { eapply remesh_loop_spec in H as (_ & Hlen & _); [done|done|]. intros k r Hk. lia. }
  apply remesh_loop_indices in H as (Hle & Hcount & Hin).
  split; [done|]. split; [done|].
  intros Hrng r' x Hr' Hx. apply list_elem_of_lookup in Hr' as [k Hk].
  destruct (lookup_lt_is_Some_2 (mSegments s) k) as [r Hr].
  { rewrite <- Hlen. by eapply lookup_lt_Some. }
  destruct (Hin k r r' Hr Hk x Hx) as [H1|H1].
  - apply Hrng in H1; [|by eapply list_elem_of_lookup_2]. unfold sys_size in *. lia.
  - unfold fresh_in, sys_size in *. lia.
Qed.

(** X25. [remesh] keeps the store well formed: if every index of every
    ring without the delete flag names a live particle before, then so it
    is when [remesh] returns (the old particles keep their records and
    the inserted ones carry no flag). *)
Theorem remesh_keeps_live_rings fuel maxLen s s' :
  remesh hermite tangent fuel maxLen s = Some s' ->
  live_rings_ok s -> live_rings_ok s'.
Proof.
  intros H Hok.
  pose proof H as Hspec.
  eapply remesh_loop_spec in Hspec as ((new & Hnew & Hflags) & Hlen & Hkeep & _);
    [|done|intros k r Hk; lia].
  apply remesh_loop_indices in H as (_ & _ & Hin).
  intros r' Hr' Hlive x Hx. apply list_elem_of_lookup in Hr' as [k Hk].
  destruct (lookup_lt_is_Some_2 (mSegments s) k) as [r Hr].
  { rewrite <- Hlen. by eapply lookup_lt_Some. }
  destruct (Hkeep k r Hr) as (r2 & Hr2 & Hfl & _).
  rewrite Hk in Hr2. injection Hr2 as <-.
  destruct (Hin k r r' Hr Hk x Hx) as [Hold|Hfresh].
  - assert (r ∈ mSegments s) as Hrin by (by eapply list_elem_of_lookup_2).
    assert (is_deleted (rflag r) = false) as Hrl by congruence.
    destruct (Hok r Hrin Hrl x Hold) as (Hrng & d & Hd & Hact).
    split; [rewrite Hnew, length_app; lia|]. exists d. split; [|done].
    rewrite Hnew. by apply lookup_app_l_Some.
  - unfold fresh_in, sys_size in Hfresh. rewrite Hnew, length_app in Hfresh.
    split; [rewrite Hnew, length_app; lia|].
    destruct (lookup_lt_is_Some_2 new (Z.to_nat x - length (mData (psys s)))) as [d Hd]; [lia|].
    exists d. split.
    + rewrite Hnew, lookup_app_r by lia. done.
    + rewrite Forall_forall in Hflags. unfold active.
      rewrite (Hflags d) by (by eapply list_elem_of_lookup_2). done.
Qed.

End RemeshFacts.

(** ** Ring construction *)

Section RingFacts.
Context {Real : Type} {ops : RealOps Real} {libm : LibM Real}.

Lemma ring_loop_spec (position : Vec3 Real) radius u v number : forall todo i sys ring,
  let '(sys', ring') := ring_loop position radius u v number todo i sys ring in
  mData sys' = mData sys
     ++ ((λ k, mkParticle (ring_point position radius u v number k) 0) <$> seq i todo)
  /\ indices ring' = indices ring
     ++ ((λ k, Z.of_nat (length (mData sys) + k)) <$> seq 0 todo)
  /\ circulation ring' = circulation ring /\ rflag ring' = rflag ring
  /\ mDeletes sys' = mDeletes sys.
Proof.
  induction todo as [|todo IH]; intros i sys ring.
  - simpl. by rewrite !app_nil_r.
  - simpl.
    specialize (IH (S i)
      {| mData := mData sys ++ [mkParticle (ring_point position radius u v number i) 0];
         mDeletes := mDeletes sys;
         mDeleteChunk := Z.quot (Z.of_nat (length (mData sys ++ [mkParticle (ring_point position radius u v number i) 0]))) DELETE_PART |}
      {| circulation := circulation ring;
         indices := indices ring ++ [Z.of_nat (length (mData sys ++ [mkParticle (ring_point position radius u v number i) 0])) - 1];
         rflag := rflag ring |}).
    destruct (ring_loop _ _ _ _ _ _ _ _ _) as [sys' ring'].
    destruct IH as (Hd & Hi & Hc & Hf & Hm). simpl in *.
    rewrite Hd, Hi, <- !app_assoc. simpl. repeat split; try done.
    f_equal. rewrite length_app. simpl. f_equal; [lia|].
    rewrite <- fmap_S_seq, <- list_fmap_compose. apply list_fmap_ext.
    intros ? k ?. simpl. lia.
Qed.


Lemma addRing_shape (position : Vec3 Real) circ radius normal number
  (s : @ConnectedParticleSystem Real) :
  mData (psys (addRing position circ radius normal number s))
  = mData (psys s)
    ++ ((λ k, mkParticle (ring_point position radius (fst (ring_basis normal))
                            (snd (ring_basis normal)) number k) 0) <$> seq 0 number)
  /\ mSegments (addRing position circ radius normal number s)
     = mSegments s
       ++ [mkRing circ ((λ k, Z.of_nat (length (mData (psys s)) + k)) <$> seq 0 number) 0]
  /\ mDeletes (psys (addRing position circ radius normal number s)) = mDeletes (psys s).
Proof.
  unfold addRing. destruct (ring_basis normal) as [u v]. simpl.
  pose proof (ring_loop_spec position radius u v number number 0%nat (psys s)
                (mkRing circ [] 0)) as H.
  destruct (ring_loop _ _ _ _ _ _ _ _ _) as [sys ring].
  destruct H as (Hd & Hi & Hc & Hf & Hdel). simpl in *.
  split; [done|]. split; [|done]. f_equal. destruct ring; simpl in *. by subst.
Qed.

(** X18. [addRing] appends [number] particles without flags and one
    ring without flag that carries the given circulation and the indices
    of exactly these particles, in order; the records and rings that were
    there are untouched and nothing is compacted.  A store in which every
    index of every live ring names a live particle stays one. *)
Theorem addRing_well_formed (position : Vec3 Real) circ radius normal number
  (s : @ConnectedParticleSystem Real) :
  let s' := addRing position circ radius normal number s in
  (exists new, mData (psys s') = mData (psys s) ++ new
     /\ length new = number /\ Forall (λ d, flag d = 0) new)
  /\ (exists ring, mSegments s' = mSegments s ++ [ring]
        /\ circulation ring = circ /\ rflag ring = 0
        /\ indices ring = (λ k, sys_size (psys s) + Z.of_nat k) <$> seq 0 number)
  /\ mDeletes (psys s') = mDeletes (psys s)
  /\ (live_rings_ok s -> live_rings_ok s').
Proof.
  intros s'. destruct (addRing_shape position circ radius normal number s)
    as (Hd & Hs & Hdel). fold s' in Hd, Hs, Hdel.
  split; [|split; [|split; [done|]]].
  - eexists. split; [exact Hd|]. split; [by rewrite length_fmap, length_seq|].
    apply Forall_fmap, Forall_forall. done.
  - eexists. split; [exact Hs|]. simpl. repeat split.
    apply list_fmap_ext. intros i k _. unfold sys_size. lia.
  - intros Hok r Hr Hlive k Hk. rewrite Hs in Hr. rewrite Hd.
    apply elem_of_app in Hr as [Hr|Hr].
    + destruct (Hok r Hr Hlive k Hk) as (Hrng & d & Hdk & Hact).
      split; [rewrite length_app; lia|]. exists d. split; [|done].
      rewrite lookup_app_l; [done|]. by eapply lookup_lt_Some.
    + apply list_elem_of_singleton in Hr. subst r. simpl in Hk.
      apply list_elem_of_fmap in Hk as (i & -> & Hi). apply elem_of_seq in Hi.
      split; [rewrite length_app, length_fmap, length_seq; lia|].
      exists (mkParticle (ring_point position radius (fst (ring_basis normal))
                            (snd (ring_basis normal)) number i) 0).
      split; [|reflexivity].
      rewrite Nat2Z.id, lookup_app_r by lia.
      replace (length (mData (psys s)) + i - length (mData (psys s)))%nat with i by lia.
      rewrite list_lookup_fmap, lookup_seq_lt by lia. done.
Qed.

End RingFacts.

(** ** Exact arithmetic: the Darboux transform at curvature 0 *)

Section ExactDarboux.
Local Open Scope R_scope.
Implicit Types (S lT p q : Vec3 R) (gamma eta : list (Vec3 R)).

Lemma normSquare_R p : normSquare p = vx p * vx p + vy p * vy p + vz p * vz p.
Proof. reflexivity. Qed.













Lemma norm_self_small (x : Vec3 R) : fltb (norm (vsub x x)) (flit 1 10000) = true.
Proof.
  unfold norm. rewrite normSquare_R. simpl.
  replace ((vx x - vx x) * (vx x - vx x) + (vy x - vy x) * (vy x - vy x)
           + (vz x - vz x) * (vz x - vz x)) with 0 by ring.
  rewrite sqrt_0. destruct (Rlt_dec 0 (1 / 10000)); [done|]. exfalso. lra.
Qed.

Lemma seed_normSquare l : normSquare (seed l) = l * l.
Proof. rewrite normSquare_R. unfold seed. simpl. field. Qed.












End ExactDarboux.

(** ** Exact arithmetic: the Darboux transform as an isometry *)

Section ExactIsometry.
Local Open Scope R_scope.
Implicit Types (v S lT p : Vec3 R) (gamma from to : list (Vec3 R)) (l r : R).

Lemma qnorm2_mul (a b : @Quaternion R) : qnorm2 (qmul a b) = qnorm2 a * qnorm2 b.
Proof. destruct a, b. unfold qnorm2, qmul. simpl. ring. Qed.

Lemma qnorm2_inverse (q : @Quaternion R) : qnorm2 q <> 0 -> qnorm2 (qinverse q) * qnorm2 q = 1.
Proof. destruct q. unfold qnorm2, qinverse, square, fint. simpl. intros H. field. exact H. Qed.

Lemma conj_real (q : @Quaternion R) v : qnorm2 q <> 0 -> qw (qmul (qmul q (quat v (fint 0))) (qinverse q)) = 0.
Proof.
  destruct q, v. unfold qnorm2, qmul, qinverse, quat, square, fint. simpl. intros H. field. exact H.
Qed.

Lemma conj_norm (q : @Quaternion R) v :
  qnorm2 q <> 0 ->
  normSquare (qimag (qmul (qmul q (quat v (fint 0))) (qinverse q))) = normSquare v.
Proof.
  intros H.
  assert (qnorm2 (qmul (qmul q (quat v (fint 0))) (qinverse q))
          = qnorm2 q * qnorm2 (quat v (fint 0)) * qnorm2 (qinverse q)) as H1
    by (by rewrite !qnorm2_mul).
  pose proof (conj_real q v H) as H2.
  pose proof (qnorm2_inverse q H) as H3.
  set (X := qmul (qmul q (quat v (fint 0))) (qinverse q)) in *.
  assert (normSquare (qimag X) = qnorm2 X - qw X * qw X) as ->
    by (destruct X; unfold normSquare, dot, qimag, qnorm2; simpl; ring).
  rewrite H1, H2.
  assert (qnorm2 (quat v (fint 0)) = normSquare v) as ->
    by (destruct v; unfold normSquare, dot, quat, qnorm2, fint; simpl; field).
  transitivity (normSquare v * (qnorm2 (qinverse q) * qnorm2 q)); [ring|].
  rewrite H3. ring.
Qed.

Lemma conj_fix (q : @Quaternion R) : qnorm2 q <> 0 ->
  qimag (qmul (qmul q (quat (qimag q) (fint 0))) (qinverse q)) = qimag q.
Proof.
  destruct q. unfold qnorm2, qmul, qinverse, quat, qimag, square, fint. simpl. intros H.
  f_equal; field; exact H.
Qed.

Lemma conj_sub (q : @Quaternion R) (a b : Vec3 R) :
  vsub (qimag (qmul (qmul q (quat a (fint 0))) (qinverse q)))
       (qimag (qmul (qmul q (quat b (fint 0))) (qinverse q)))
  = qimag (qmul (qmul q (quat (vsub a b) (fint 0))) (qinverse q)).
Proof.
  generalize (qinverse q). intros [ix iy iz iw].
  destruct q as [x y z w], a as [a1 a2 a3], b as [b1 b2 b3].
  unfold qmul, quat, qimag, vsub, fint. simpl. f_equal; field.
Qed.

Lemma quat_nonzero S lT r :
  r <> 0 \/ lT <> S -> qnorm2 (quat (vsub lT S) (fneg r)) <> 0.
Proof.
  destruct lT as [a b c], S as [a' b' c']. unfold qnorm2, quat, vsub. simpl.
  pose proof (Rle_0_sqr (a - a')) as Ha. pose proof (Rle_0_sqr (b - b')) as Hb.
  pose proof (Rle_0_sqr (c - c')) as Hc. pose proof (Rle_0_sqr r) as Hr0.
  unfold Rsqr in *.
  intros [Hr|Hne] H0.
  - pose proof (Rsqr_pos_lt r Hr) as Hp. unfold Rsqr in Hp. lra.
  - apply Hne.
    assert ((a - a') * (a - a') = 0) as Ha' by lra.
    assert ((b - b') * (b - b') = 0) as Hb' by lra.
    assert ((c - c') * (c - c') = 0) as Hc' by lra.
    apply Rsqr_0_uniq in Ha', Hb', Hc'.
    f_equal; lra.
Qed.

Lemma darbouxStep_norm S lT r :
  r <> 0 \/ lT <> S -> normSquare (darbouxStep S lT r) = normSquare lT.
Proof. intros H. apply conj_norm. by apply quat_nonzero. Qed.

Lemma darbouxStep_edge S lT r :
  r <> 0 \/ lT <> S ->
  normSquare (vadd S (vsub (darbouxStep S lT r) lT)) = normSquare S.
Proof.
  intros H. apply quat_nonzero in H.
  assert (vadd S (vsub (darbouxStep S lT r) lT)
          = vsub (darbouxStep S lT r) (qimag (quat (vsub lT S) (fneg r)))) as ->.
  { destruct (darbouxStep S lT r), S, lT. unfold vadd, vsub, qimag, quat. simpl.
    f_equal; ring. }
  rewrite <- (conj_fix _ H) at 1. unfold darbouxStep. rewrite conj_sub.
  rewrite conj_norm by done. f_equal.
  destruct S, lT. unfold vsub, qimag, quat. simpl. f_equal; ring.
Qed.

(** X11. In exact arithmetic, [darbouxStep] is a rotation of [lTi] (the
    conjugation by the quaternion [(lTi - Si, -r)], which is invertible
    as soon as [r <> 0] or [lTi <> Si]): it preserves the length of
    [lTi], and the edge [Si + lTnext - lTi] of the transformed curve has
    the length of [Si]. *)
Theorem darbouxStep_isometry S lT r :
  r <> 0 \/ lT <> S ->
  normSquare (darbouxStep S lT r) = normSquare lT
  /\ normSquare (vadd S (vsub (darbouxStep S lT r) lT)) = normSquare S.
Proof. intros H. split; [by apply darbouxStep_norm|by apply darbouxStep_edge]. Qed.

Lemma monodromy_loop_norm gamma r (Hr : r <> 0) n : forall j lT lT',
  for_loop (λ lT i, Si ← edge_vec gamma i; Some (darbouxStep Si lT r)) n j lT = Some lT' ->
  normSquare lT' = normSquare lT.
Proof.
  induction n as [|n IH]; intros j lT lT' H.
  - simpl in H. by simplify_eq.
  - simpl in H. destruct (edge_vec gamma j) as [Si|]; [|done]. simpl in H.
    apply IH in H. rewrite H. apply darbouxStep_norm. by left.
Qed.

Lemma power_iter_norm gamma r (Hr : r <> 0) iters : forall lT ok lT',
  power_iter gamma r iters lT = Some (ok, lT') -> normSquare lT' = normSquare lT.
Proof.
  induction iters as [|n IH]; intros lT ok lT' H.
  - simpl in H. by simplify_eq.
  - simpl in H. destruct (monodromy gamma lT r) as [lT1|] eqn:Hm; [|done]. simpl in H.
    apply monodromy_loop_norm in Hm; [|done].
    destruct (Rlt_dec _ _).
    + simplify_eq. done.
    + apply IH in H. by rewrite H.
Qed.

(** X12. In exact arithmetic and for [r <> 0], [monodromy] is defined on
    every curve and preserves the length of its vector argument; hence
    every iterate of [powerMethod] has the length of its start vector
    [(0,0,l)]: the vector it returns, converged or not, has squared
    length [l * l]. *)
Theorem powerMethod_on_sphere gamma l r :
  r <> 0 ->
  (forall lT, exists lT', monodromy gamma lT r = Some lT'
                          /\ normSquare lT' = normSquare lT)
  /\ exists ok lT, powerMethod gamma l r = Some (ok, lT) /\ normSquare lT = l * l.
Proof.
  intros Hr. split.
  - intros lT. destruct (monodromy_loop_defined gamma r (length gamma) 0 lT) as [lT' H]; [lia|].
    exists lT'. split; [done|]. by eapply monodromy_loop_norm.
  - destruct (power_iter_defined gamma r maxIter (seed l)) as [[ok lT] H].
    exists ok, lT. split; [done|].
    apply power_iter_norm in H; [|done]. by rewrite H, seed_normSquare.
Qed.

Lemma normSquare_vadd_self p lT : normSquare (vsub (vadd p lT) p) = normSquare lT.
Proof. destruct p, lT. unfold normSquare, dot, vsub, vadd. simpl. ring. Qed.

Lemma normSquare_edge_split (p p' lT lT' : Vec3 R) :
  normSquare (vsub (vadd p' lT') (vadd p lT))
  = normSquare (vadd (vsub p' p) (vsub lT' lT)).
Proof. destruct p, p', lT, lT'. unfold normSquare, dot, vsub, vadd. simpl. ring. Qed.

Lemma darboux_loop_geom from l r (Hr : r <> 0) n : forall j to lT to' lT',
  (j + n = length from)%nat ->
  for_loop
    (λ '(to, lT) i,
       p ← from !! i;
       Si ← edge_vec from i;
       if decide (i < length to)%nat
       then Some (<[i := vadd p lT]> to, darbouxStep Si lT r)
       else None)
    n j (to, lT) = Some (to', lT') ->
  normSquare lT = l * l ->
  (forall k p q, (k < j)%nat -> from !! k = Some p -> to !! k = Some q ->
     normSquare (vsub q p) = l * l) ->
  (forall k p p' q q', (Datatypes.S k < j)%nat ->
     from !! k = Some p -> from !! Datatypes.S k = Some p' ->
     to !! k = Some q -> to !! Datatypes.S k = Some q' ->
     normSquare (vsub q' q) = normSquare (vsub p' p)) ->
  (forall j', j = Datatypes.S j' ->
     exists p lTp Sp, from !! j' = Some p /\ to !! j' = Some (vadd p lTp)
       /\ edge_vec from j' = Some Sp /\ lT = darbouxStep Sp lTp r) ->
  (forall k p q, from !! k = Some p -> to' !! k = Some q ->
     normSquare (vsub q p) = l * l)
  /\ (forall k p p' q q',
     from !! k = Some p -> from !! Datatypes.S k = Some p' ->
     to' !! k = Some q -> to' !! Datatypes.S k = Some q' ->
     normSquare (vsub q' q) = normSquare (vsub p' p)).
Proof.
  induction n as [|n IH]; intros j to lT to' lT' Hsum Hloop HlT Hdist Hedge Hlink.
  - simpl in Hloop. simplify_eq. split.
    + intros k p q Hp. apply Hdist; [|done]. apply lookup_lt_Some in Hp. lia.
    + intros k p p' q q' Hp Hp'. apply Hedge; [|done..]. apply lookup_lt_Some in Hp'. lia.
  - simpl in Hloop. destruct (from !! j) as [pj|] eqn:Hpj; [|done]. simpl in Hloop.
    destruct (edge_vec from j) as [Sj|] eqn:HSj; [|done]. simpl in Hloop.
    destruct (decide (j < length to)%nat) as [Hj|]; [|done]. simpl in Hloop.
    eapply IH; [|exact Hloop| | | |]; [lia| | | |].
    + rewrite darbouxStep_norm by (by left). done.
    + intros k p q Hk Hp Hq. destruct (decide (k = j)) as [->|Hne].
      * rewrite list_lookup_insert_eq in Hq by done. simplify_eq.
        by rewrite normSquare_vadd_self.
      * rewrite list_lookup_insert_ne in Hq by done. eapply Hdist; [|done..]. lia.
    + intros k p p' q q' Hk Hp Hp' Hq Hq'. destruct (decide (Datatypes.S k = j)) as [<-|Hne].
      * rewrite list_lookup_insert_eq in Hq' by done.
        rewrite list_lookup_insert_ne in Hq by lia.
        injection Hq' as <-.
        destruct (Hlink k eq_refl) as (p0 & lTp & Sp & Hp0 & Hq0 & HSp & ->).
        rewrite Hp in Hp0. injection Hp0 as <-.
        rewrite Hq in Hq0. injection Hq0 as ->.
        rewrite Hpj in Hp'. injection Hp' as <-.
        unfold edge_vec in HSp. rewrite Hp in HSp. simpl in HSp.
        rewrite Nat.mod_small in HSp by (apply lookup_lt_Some in Hpj; lia).
        replace (k + 1)%nat with (Datatypes.S k) in HSp by lia.
        rewrite Hpj in HSp. simpl in HSp. injection HSp as <-.
        rewrite normSquare_edge_split. apply darbouxStep_edge. by left.
      * rewrite !list_lookup_insert_ne in Hq, Hq' by lia. eapply Hedge; [|done..]. lia.
    + intros j' Hj'. simplify_eq. exists pj, lT, Sj.
      rewrite list_lookup_insert_eq by done. done.
Qed.

(** X13. In exact arithmetic and for [r <> 0], a successful [darboux]
    transform puts every node of [to] at distance [l] from the
    corresponding node of [from], and keeps the length of every edge
    between consecutive nodes [i], [i+1] below [from.size()]. *)
Theorem darboux_keeps_lengths from to l r to' :
  r <> 0 -> darboux from to l r = Some (true, to') ->
  (forall k p q, from !! k = Some p -> to' !! k = Some q ->
     normSquare (vsub q p) = l * l)
  /\ (forall k p p' q q',
     from !! k = Some p -> from !! Datatypes.S k = Some p' ->
     to' !! k = Some q -> to' !! Datatypes.S k = Some q' ->
     normSquare (vsub q' q) = normSquare (vsub p' p)).
Proof.
  intros Hr H. unfold darboux in H.
  destruct (powerMethod from l r) as [[ok lT]|] eqn:Hpow; [|done]. simpl in H.
  destruct ok; simpl in H; [|by simplify_eq].
  destruct (for_loop _ _ _ _) as [[to1 lT1]|] eqn:Hloop; [|done].
  simpl in H. simplify_eq.
  eapply (darboux_loop_geom from l r Hr); [|exact Hloop| | | |]; [done| | | |].
  - apply power_iter_norm in Hpow; [|done]. rewrite Hpow. apply seed_normSquare.
  - intros; lia.
  - intros; lia.
  - intros j' Hj'. lia.
Qed.

End ExactIsometry.

(** ** Exact arithmetic: the basis of addRing *)

Section ExactRing.
Local Open Scope R_scope.
Implicit Types (a b n u v w : Vec3 R).

Lemma normalize_zero_R a :
  vx a = 0 -> vy a = 0 -> vz a = 0 -> normalize a = mkVec3 0 0 0.
Proof.
  destruct a as [x y z]. simpl. intros -> -> ->.
  unfold normalize, getNormalized, vscale. simpl. f_equal; ring.
Qed.

Lemma normalize_unit_R a : normSquare a = 1 -> normalize a = a.
Proof.
  destruct a as [x y z]. intros H.
  unfold normalize, getNormalized, norm, vscale. rewrite H.
  simpl. rewrite sqrt_1. f_equal; field.
Qed.

Lemma ring_basis_down : ring_basis down = (mkVec3 0 0 0, mkVec3 0 0 0).
Proof.
  unfold ring_basis.
  rewrite (normalize_unit_R down) by (unfold normSquare, dot, down; simpl; ring).
  assert (fltb (norm (vsub down (mkVec3 (fint 0) (fint 1) (fint 0)))) (flit 1 100000) = false) as ->.
  { unfold norm, normSquare, dot, vsub, down, fint. simpl.
    destruct (Rlt_dec _ _) as [Hlt|]; [|done]. exfalso.
    assert (1 <= sqrt ((0 - 0 / 1) * (0 - 0 / 1) + (-1 - 1 / 1) * (-1 - 1 / 1) + (0 - 0 / 1) * (0 - 0 / 1))).
    { rewrite <- sqrt_1 at 1. apply sqrt_le_1_alt. lra. }
    lra. }
  assert (normalize (cross down (mkVec3 (fint 0) (fint 1) (fint 0))) = mkVec3 0 0 0) as ->.
  { apply normalize_zero_R; unfold cross, down, fint; simpl; field. }
  f_equal. apply normalize_zero_R; unfold cross, down; simpl; ring.
Qed.

Lemma ring_point_collapsed (c : Vec3 R) radius number k :
  ring_point c radius (mkVec3 0 0 0) (mkVec3 0 0 0) number k = c.
Proof.
  destruct c as [x y z]. unfold ring_point, vadd, vscale. simpl. f_equal; ring.
Qed.

Lemma collapsed_points (c : Vec3 R) radius number m : forall i,
  (λ k, mkParticle (ring_point c radius (mkVec3 0 0 0) (mkVec3 0 0 0) number k) 0)
    <$> seq i m = replicate m (mkParticle c 0).
Proof.
  induction m as [|m IH]; intros i; [done|].
  simpl. by rewrite ring_point_collapsed, IH.
Qed.

(** C4 (defect). Exact arithmetic, unit normal (0,-1,0): [addRing] tests
    only [norm(normal - worldup) < 1e-5], so the normal opposite to
    [worldup] keeps [worldup = (0,1,0)], the cross product is the zero
    vector, [u] and [v] are zero, and all [number] new particles are put
    at the centre itself, whatever the radius; the new segment lists
    them in insertion order. *)
Theorem addRing_down_collapses (center : Vec3 R) circ radius number s :
  mData (psys (addRing center circ radius down number s))
  = mData (psys s) ++ replicate number (mkParticle center 0)
  /\ mSegments (addRing center circ radius down number s)
     = mSegments s
       ++ [mkRing circ ((λ k, Z.of_nat (length (mData (psys s)) + k)) <$> seq 0 number) 0%Z].
Proof.
  unfold addRing. rewrite ring_basis_down.
  pose proof (ring_loop_spec center radius (mkVec3 0 0 0) (mkVec3 0 0 0) number
                number 0%nat (psys s) (mkRing circ [] 0%Z)) as H.
  destruct (ring_loop _ _ _ _ _ _ _ _ _) as [sys ring].
  destruct H as (Hd & Hi & Hc & Hf & _). simpl in *. split.
  - rewrite Hd. f_equal. apply collapsed_points.
  - f_equal. destruct ring as [c inds f]. simpl in *. by subst.
Qed.

Lemma normalize_pos_R a :
  0 < normSquare a ->
  normSquare (normalize a) = 1
  /\ forall m, dot m a = 0 -> dot m (normalize a) = 0.
Proof.
  intros Hpos. pose proof (sqrt_lt_R0 _ Hpos) as Hs.
  pose proof (sqrt_sqrt (normSquare a) (Rlt_le _ _ Hpos)) as Hss.
  unfold normalize, getNormalized, norm.
  change (fdiv (fint 1) (fsqrt (normSquare a))) with (1 / 1 / sqrt (normSquare a)).
  set (q := sqrt (normSquare a)) in *.
  assert (1 / 1 / q * (1 / 1 / q) * normSquare a = 1) as Hk.
  { rewrite <- Hss. field. lra. }
  set (k := 1 / 1 / q) in *.
  split.
  - rewrite <- Hk. destruct a as [x y z]. unfold normSquare, dot, vscale. simpl. ring.
  - intros m Hm. transitivity (k * dot m a); [|rewrite Hm; ring].
    destruct a as [x y z], m as [mx my mz]. unfold dot, vscale. simpl. ring.
Qed.

Lemma cross_orth_l a b : dot a (cross a b) = 0.
Proof. destruct a, b. unfold dot, cross. simpl. ring. Qed.

Lemma cross_orth_r a b : dot b (cross a b) = 0.
Proof. destruct a, b. unfold dot, cross. simpl. ring. Qed.

Lemma lagrange a b :
  normSquare (cross a b) = normSquare a * normSquare b - dot a b * dot a b.
Proof. destruct a, b. unfold normSquare, dot, cross. simpl. ring. Qed.

Lemma sqrt_small_sq x e : 0 <= x -> 0 < e -> sqrt x < e -> x < e * e.
Proof.
  intros Hx He Hlt. rewrite <- (sqrt_sqrt x Hx).
  pose proof (sqrt_pos x). nra.
Qed.

Lemma ring_basis_frame n :
  normSquare n = 1 -> n <> down ->
  frame n (fst (ring_basis n)) (snd (ring_basis n)).
Proof.
  intros Hn Hdown. unfold ring_basis. rewrite (normalize_unit_R n Hn).
  set (w := if fltb _ _ then _ else _).
  assert (0 < normSquare (cross n w)) as Hc.
  { subst w. destruct n as [x y z]. unfold normSquare, dot in Hn. simpl in Hn.
    unfold norm, normSquare, dot, vsub, fint. simpl.
    destruct (Rlt_dec _ _) as [Hlt|Hge].
    - apply sqrt_small_sq in Hlt; [|nra|lra].
      unfold cross. simpl.
      assert (0.9 < y) by nra. nra.
    - unfold cross. simpl.
      destruct (Rle_lt_dec ((y * (0 / 1) - z * (1 / 1)) * (y * (0 / 1) - z * (1 / 1))
                            + (z * (0 / 1) - x * (0 / 1)) * (z * (0 / 1) - x * (0 / 1))
                            + (x * (1 / 1) - y * (0 / 1)) * (x * (1 / 1) - y * (0 / 1))) 0)
        as [Hle|Hlt]; [|exact Hlt].
      exfalso. assert (z = 0) by nra. assert (x = 0) by nra. subst x z.
      assert (y = 1 \/ y = -1) as [->| ->] by (assert ((y - 1) * (y + 1) = 0) by nra; nra).
      + apply Hge.
        replace ((0 - 0 / 1) * (0 - 0 / 1) + (1 - 1 / 1) * (1 - 1 / 1)
                 + (0 - 0 / 1) * (0 - 0 / 1)) with 0 by field.
        rewrite sqrt_0. lra.
      + by apply Hdown. }
  destruct (normalize_pos_R _ Hc) as [Hu Horth]. simpl.
  set (u := normalize (cross n w)) in *.
  assert (dot n u = 0) as Hnu by (apply Horth, cross_orth_l).
  assert (normSquare (cross n u) = 1) as Hv.
  { rewrite lagrange, Hn, Hu, Hnu. ring. }
  rewrite (normalize_unit_R _ Hv).
  repeat split; try done.
  - apply cross_orth_r.
  - apply cross_orth_l.
Qed.

Lemma ring_point_on_circle (c : Vec3 R) radius n u v number k :
  frame n u v ->
  let p := ring_point c radius u v number k in
  normSquare (vsub p c) = radius * radius /\ dot (vsub p c) n = 0.
Proof.
  intros (Hu & Hv & Huv & Hnu & Hnv). cbv zeta. unfold ring_point.
  set (phi := fmul _ _).
  split.
  - transitivity (radius * radius *
      (cos phi * cos phi * normSquare u + 2 * (cos phi * sin phi) * dot u v
       + sin phi * sin phi * normSquare v)).
    + destruct c, u, v. unfold normSquare, dot, vsub, vadd, vscale. simpl. ring.
    + rewrite Hu, Hv, Huv. pose proof (sin2_cos2 phi) as H. unfold Rsqr in H. nra.
  - transitivity (radius * (cos phi * dot n u + sin phi * dot n v)).
    + destruct c, u, v, n. unfold dot, vsub, vadd, vscale. simpl. ring.
    + rewrite Hnu, Hnv. ring.
Qed.


(** X19. In exact arithmetic, for every unit normal other than
    [(0,-1,0)], [addRing] builds a regular ring: the new particles lie at
    distance [radius] from the centre in the plane orthogonal to the
    normal, particle [k] at the angle [k/number * pi * 2] in an
    orthonormal frame of that plane, and the new ring lists them in
    order. *)
Lemma addRing_regular (center : Vec3 R) circ radius n number s :
  normSquare n = 1 -> n <> down ->
  exists u v, frame n u v
    /\ mData (psys (addRing center circ radius n number s))
       = mData (psys s)
         ++ ((λ k, mkParticle (ring_point center radius u v number k) 0%Z) <$> seq 0 number)
    /\ (forall k, normSquare (vsub (ring_point center radius u v number k) center)
                    = radius * radius
                  /\ dot (vsub (ring_point center radius u v number k) center) n = 0)
    /\ mSegments (addRing center circ radius n number s)
       = mSegments s
         ++ [mkRing circ ((λ k, Z.of_nat (length (mData (psys s)) + k)) <$> seq 0 number) 0%Z].
Proof.
  intros Hn Hdown. pose proof (ring_basis_frame n Hn Hdown) as Hf.
  unfold addRing. destruct (ring_basis n) as [u v]. simpl in Hf.
  exists u, v. split; [done|].
  pose proof (ring_loop_spec center radius u v number
                number 0%nat (psys s) (mkRing circ [] 0%Z)) as H.
  destruct (ring_loop _ _ _ _ _ _ _ _ _) as [sys ring].
  destruct H as (Hd & Hi & Hc & Hfl & _). simpl in *.
  split; [done|]. split.
  - intros k. by apply ring_point_on_circle.
  - f_equal. destruct ring as [c inds f]. simpl in *. by subst.
Qed.

End ExactRing.

(** ** Exact arithmetic: the kernel on planar configurations *)

Section ExactKernel.
Local Open Scope R_scope.
Implicit Types (fi : @FilamentIntegrator R) (xi p u : Vec3 R) (r : @VortexRing R)
  (y : list (Vec3 R)).





End ExactKernel.

(** ** Runs on concrete stores *)

(** C1 (defect). Twenty insertions, then [kill(0)] and [kill(19)]: the
    second kill exceeds the chunk threshold 1 and runs
    [ConnectedParticleSystem::compress].  Its reordering loop tests a slot
    once ([if], where [ParticleSystem::compress] has [while]), so the dead
    tail record 19 is copied into slot 0 and kept: 19 records remain and
    slot 0 carries PDELETE.  The plain store, on the same calls, keeps the
    18 live records only. *)
Theorem connected_compress_keeps_dead_record :
  exists s1 s2,
    connected_kill no_oob 0 (fill 20) = Some s1
    /\ connected_kill no_oob 19 s1 = Some s2
    /\ mDeletes (psys s2) = 0
    /\ length (mData (psys s2)) = 19%nat
    /\ mData (psys s2) !! 0%nat = Some (mkParticle (mkVec3 19 0 0) PDELETE)
    /\ exists p2, kill 0 (psys (fill 20)) ≫= kill 19 = Some p2
         /\ length (mData p2) = 18%nat
         /\ forallb active (mData p2) = true.
Proof.
  eexists _, _. split; [vm_compute; reflexivity|].
  split; [vm_compute; reflexivity|].
  repeat split. eexists. split; [vm_compute; reflexivity|]. done.
Qed.

Lemma connected_compress_live_rings_witness :
  live_rings_ok small_store
  /\ exists s', connected_compress no_oob small_store = Some s'
       /\ live_rings_ok s'.
Proof.
  assert (live_rings_ok small_store) as H.
  { intros r Hr _ k Hk. apply list_elem_of_singleton in Hr. subst r. simpl in Hk.
    apply elem_of_cons in Hk as [->|Hk].
    - split; [simpl; lia|]. exists (pt 0). done.
    - apply list_elem_of_singleton in Hk. subst k.
      split; [simpl; lia|]. exists (pt 2). done. }
  split; [exact H|].
  destruct (connected_compress_live_rings no_oob small_store H) as (s' & Hs & Hok & _).
  exists s'. done.
Defined.





(** Twenty-one insertions and two kills: the second kill compacts, 19
    records are left and none of them is flagged. *)
Lemma dead_share_bounded_witness :
  Forall op_clean twenty_one_two_kills
  /\ chunk_inv (psys empty_store)
  /\ exists s', sys_run twenty_one_two_kills (psys empty_store) = Some s'
       /\ length (mData s') = 19%nat
       /\ DELETE_PART * dead_count s' <= sys_size s'.
Proof.
  assert (Forall op_clean twenty_one_two_kills) as Hc.
  { apply Forall_app. split; [|repeat constructor].
    apply Forall_fmap, Forall_forall. intros i _. reflexivity. }
  assert (chunk_inv (psys empty_store)) as Hi by (repeat split; vm_compute; discriminate).
  assert (exists s', sys_run twenty_one_two_kills (psys empty_store) = Some s'
            /\ length (mData s') = 19%nat) as (s' & Hrun & Hlen)
    by (eexists; split; vm_compute; reflexivity).
  split; [exact Hc|]. split; [exact Hi|]. exists s'. split; [exact Hrun|].
  split; [exact Hlen|].
  exact (proj2 (dead_share_bounded twenty_one_two_kills _ _ Hc Hi Hrun)).
Defined.

Lemma connected_compress_nothing_to_do_witness :
  (forall d, d ∈ mData (psys clean_store) -> active d = true)
  /\ connected_compress no_oob clean_store
     = Some {| psys := {| mData := mData (psys clean_store); mDeletes := 0;
                          mDeleteChunk := Z.quot (sys_size (psys clean_store)) DELETE_PART |};
               mSegments := mSegments clean_store |}.
Proof.
  assert (forall d, d ∈ mData (psys clean_store) -> active d = true) as H1.
  { intros d Hd. vm_compute in Hd.
    repeat (apply elem_of_cons in Hd as [->|Hd]; [reflexivity|]).
    by apply elem_of_nil in Hd. }
  assert (forall r k, r ∈ mSegments clean_store -> k ∈ indices r ->
            0 <= k < sys_size (psys clean_store)) as H2.
  { intros r k Hr Hk. apply list_elem_of_singleton in Hr. subst r. simpl in Hk.
    repeat (apply elem_of_cons in Hk as [->|Hk]; [vm_compute; split; [discriminate|reflexivity]|]).
    by apply elem_of_nil in Hk. }
  split; [exact H1|]. exact (connected_compress_nothing_to_do no_oob clean_store H1 H2).
Defined.

(** ** Runs on machine floats *)

Lemma kernel_guards_witness :
  kernel square_fi square_pts (fv 10 0 0) = Some vzero
  /\ kernel_edge square_fi square_pts (fv 1 1 0) (mkRing (flit 1 1) [0; 1; 2; 3] 0)
       (flit 1 1) (fv 5 5 5) 1 = Some (fv 5 5 5).
Proof.
  destruct (kernel_guards square_fi square_pts (fv 10 0 0)) as (_ & _ & Hfar & _).
  destruct (kernel_guards square_fi square_pts (fv 1 1 0)) as (_ & _ & _ & Hat).
  split.
  - apply Hfar. intros r Hr Hlive k Hk.
    apply elem_of_cons in Hr as [->|Hr].
    + simpl in Hk. repeat (apply elem_of_cons in Hk as [->|Hk]);
        [eexists; split; [reflexivity|vm_compute; reflexivity]..|].
      by apply elem_of_nil in Hk.
    + apply list_elem_of_singleton in Hr. subst r. discriminate Hlive.
  - apply (Hat (mkRing (flit 1 1) [0; 1; 2; 3] 0) (flit 1 1) (fv 5 5 5)
               1%nat 1 (fv 1 0 0) 2 (fv 1 1 0) eq_refl eq_refl eq_refl eq_refl).
    + right. reflexivity.
    + vm_compute. reflexivity.
Defined.

(** C5 (as stated, refuted in its last clause).  The query is the first
    vertex.  Both edges at that vertex are skipped, but the edge from
    (1,0,0) to (2,0,0) lies on a line through the query: its cross
    product is zero, and with regularisation 0 the factor A is 0/0.  The
    kernel returns NaN in every component. *)
Lemma kernel_nan_at_vertex :
  line_pts !! 0%nat = Some (fv 0 0 0)
  /\ exists v, kernel line_fi line_pts (fv 0 0 0) = Some v
       /\ PrimFloat.is_nan (vx v) = true
       /\ PrimFloat.is_nan (vy v) = true
       /\ PrimFloat.is_nan (vz v) = true.
Proof.
  split; [reflexivity|]. eexists. split; [vm_compute; reflexivity|].
  repeat split; vm_compute; reflexivity.
Qed.

(** The ring of two coincident particles has length 0, so [l] is infinite
    and [ra] is not a number: the forward power method runs its 100
    iterations and gives up. *)
Lemma update_ring_not_converged_witness :
  is_deleted (rflag flat_ring) = false
  /\ ring_params no_kernel (flit 1 10) (flit 1 10) flat_data flat_ring
     = Some (flat_gamma, PrimFloat.infinity, PrimFloat.nan)
  /\ powerMethod flat_gamma PrimFloat.infinity PrimFloat.nan = Some (false, nan3)
  /\ exists msg, (msg = fwd_failed \/ msg = bwd_failed)
       /\ update_ring no_kernel (flit 1 10) (flit 1 10) (flat_data, []) flat_ring
          = Some (flat_data, [] ++ [msg])
       /\ forall rest,
            update_rings no_kernel (flit 1 10) (flit 1 10) (flat_ring :: rest)
                         (flat_data, [])
            = update_rings no_kernel (flit 1 10) (flit 1 10) rest
                           (flat_data, [] ++ [msg]).
Proof.
  assert (ring_params no_kernel (flit 1 10) (flit 1 10) flat_data flat_ring
          = Some (flat_gamma, PrimFloat.infinity, PrimFloat.nan)) as Hpar
    by (vm_compute; reflexivity).
  assert (powerMethod flat_gamma PrimFloat.infinity PrimFloat.nan = Some (false, nan3))
    as Hpow by (vm_compute; reflexivity).
  split; [reflexivity|]. split; [exact Hpar|]. split; [exact Hpow|].
  exact (update_ring_not_converged no_kernel (flit 1 10) (flit 1 10)
           flat_data [] flat_ring flat_gamma PrimFloat.infinity PrimFloat.nan nan3
           eq_refl Hpar (or_introl Hpow)).
Defined.

(** A particle that leaves the domain at x = 4.75 keeps its flag; one
    that leaves it at x = 6.25 is flagged. *)
Lemma advect_delete_only_beyond_5_witness :
  flag (KnAdvectInGrid toy_flow toy_bounds toy_obstacle EULER tt tt (flit 1 4)
          (mkParticle (mkVec3 (flit 9 2) (flit 0 1) (flit 0 1)) 0)) = 0
  /\ flag (KnAdvectInGrid toy_flow toy_bounds toy_obstacle EULER tt tt (flit 1 4)
             (mkParticle (fv 6 0 0) 0)) = Z.lor 0 PDELETE.
Proof.
  split.
  - apply (advect_delete_only_beyond_5 toy_flow toy_bounds toy_obstacle EULER tt tt
             (flit 1 4) (mkParticle (mkVec3 (flit 9 2) (flit 0 1) (flit 0 1)) 0)).
    vm_compute. reflexivity.
  - apply (advect_delete_only_beyond_5 toy_flow toy_bounds toy_obstacle EULER tt tt
             (flit 1 4) (mkParticle (fv 6 0 0) 0)); vm_compute; reflexivity.
Defined.

(** C6 (defect). [remesh] has no liveness test: with [maxLen = 3] it scans
    the dead ring, inserts a midpoint particle on each of its two edges
    and rewrites its index list from [0; 1] to [0; 2; 1; 3].  The two
    old particle records are as they were. *)
Theorem remesh_touches_dead_ring :
  remesh hermiteSpline crTangent 10 (flit 3 1) dead_pair
  = Some (mkCSys (mkSys [mkParticle (fv 0 0 0) 0; mkParticle (fv 4 0 0) 0;
                         mkParticle (fv 2 0 0) 0; mkParticle (fv 2 0 0) 0] 0 0)
                 [mkRing (flit 1 1) [0; 2; 1; 3] PDELETE]).
Proof. vm_compute. reflexivity. Qed.


Lemma square_update_run :
  doublyDiscreteUpdate no_kernel (flit 0 1) (flit 1 10) square_store []
  = Some (square_store_moved, []).
Proof. vm_compute. reflexivity. Qed.

Lemma doublyDiscreteUpdate_frame_witness :
  doublyDiscreteUpdate no_kernel (flit 0 1) (flit 1 10) square_store []
  = Some (square_store_moved, [])
  /\ moved_only (live_indices (mSegments square_store))
                (mData (psys square_store)) (mData (psys square_store_moved))
  /\ mData (psys square_store_moved) !! 4%nat = mData (psys square_store) !! 4%nat.
Proof.
  split; [exact square_update_run|]. split; [|reflexivity].
  apply (doublyDiscreteUpdate_frame no_kernel _ _ _ _ _ _ square_update_run).
Defined.

Lemma doublyDiscreteUpdate_defined_witness :
  (forall r, r ∈ mSegments square_store -> is_deleted (rflag r) = false ->
     forall k, k ∈ indices r -> 0 <= k < sys_size (psys square_store))
  /\ is_Some (doublyDiscreteUpdate no_kernel (flit 1 10) (flit 1 10) square_store []).
Proof.
  assert (forall r, r ∈ mSegments square_store -> is_deleted (rflag r) = false ->
     forall k, k ∈ indices r -> 0 <= k < sys_size (psys square_store)) as H.
  { intros r Hr Hlive k Hk. apply elem_of_cons in Hr as [->|Hr].
    - simpl in Hk.
      repeat (apply elem_of_cons in Hk as [->|Hk];
              [vm_compute; split; [discriminate|reflexivity]|]).
      by apply elem_of_nil in Hk.
    - apply list_elem_of_singleton in Hr. subst r. discriminate Hlive. }
  split; [exact H|].
  exact (doublyDiscreteUpdate_defined no_kernel (flit 1 10) (flit 1 10) square_store [] H).
Defined.

Lemma live_pair_remesh_run :
  remesh hermiteSpline crTangent 10 (flit 3 1) live_pair = Some live_pair_remeshed.
Proof. vm_compute. reflexivity. Qed.

Lemma remesh_spec_witness :
  remesh hermiteSpline crTangent 10 (flit 3 1) live_pair = Some live_pair_remeshed
  /\ forall k r, mSegments live_pair_remeshed !! k = Some r ->
       ring_short (fmul (flit 3 1) (flit 3 1)) (mData (psys live_pair_remeshed)) r.
Proof.
  split; [exact live_pair_remesh_run|].
  apply (remesh_spec hermiteSpline crTangent _ _ _ _ live_pair_remesh_run).
Defined.

Lemma remesh_keeps_order_witness :
  remesh hermiteSpline crTangent 10 (flit 3 1) live_pair = Some live_pair_remeshed
  /\ exists r', mSegments live_pair_remeshed !! 0%nat = Some r'
       /\ [0; 1] `sublist_of` indices r'.
Proof.
  split; [exact live_pair_remesh_run|].
  exact (remesh_keeps_order hermiteSpline crTangent _ _ _ _ live_pair_remesh_run
           0%nat (mkRing (flit 1 1) [0; 1] 0) eq_refl).
Defined.

Lemma remesh_fixpoint_witness :
  (forall r, r ∈ mSegments live_pair ->
     ring_short (fmul (flit 5 1) (flit 5 1)) (mData (psys live_pair)) r)
  /\ remesh hermiteSpline crTangent 1 (flit 5 1) live_pair = Some live_pair.
Proof.
  assert (forall r, r ∈ mSegments live_pair ->
     ring_short (fmul (flit 5 1) (flit 5 1)) (mData (psys live_pair)) r) as H.
  { intros r Hr. apply list_elem_of_singleton in Hr. subst r.
    intros [|[|j]] Hj; [| |simpl in Hj; lia].
    - exists 0, (fv 0 0 0), 1, (fv 4 0 0). repeat split; vm_compute; reflexivity.
    - exists 1, (fv 4 0 0), 0, (fv 0 0 0). repeat split; vm_compute; reflexivity. }
  split; [exact H|].
  exact (remesh_fixpoint hermiteSpline crTangent 0 (flit 5 1) live_pair H).
Defined.

Lemma remesh_indices_witness :
  remesh hermiteSpline crTangent 10 (flit 3 1) live_pair = Some live_pair_remeshed
  /\ (total_indices live_pair_remeshed + length (mData (psys live_pair))
      = total_indices live_pair + length (mData (psys live_pair_remeshed)))%nat.
Proof.
  split; [exact live_pair_remesh_run|].
  apply (remesh_indices hermiteSpline crTangent _ _ _ _ live_pair_remesh_run).
Defined.

Lemma remesh_keeps_live_rings_witness :
  live_rings_ok live_pair /\ live_rings_ok live_pair_remeshed.
Proof.
  assert (live_rings_ok live_pair) as H.
  { intros r Hr _ k Hk. apply list_elem_of_singleton in Hr. subst r. simpl in Hk.
    apply elem_of_cons in Hk as [->|Hk].
    - split; [simpl; lia|]. exists (mkParticle (fv 0 0 0) 0). split; reflexivity.
    - apply list_elem_of_singleton in Hk. subst k.
      split; [simpl; lia|]. exists (mkParticle (fv 4 0 0) 0). split; reflexivity. }
  split; [exact H|].
  exact (remesh_keeps_live_rings hermiteSpline crTangent _ _ _ _ live_pair_remesh_run H).
Defined.

(** ** Runs on exact reals *)

Section ExactRuns.
Local Open Scope R_scope.


Lemma darbouxStep_isometry_witness :
  (1 <> 0 \/ mkVec3 0 0 1 <> mkVec3 1 0 0)
  /\ normSquare (darbouxStep (mkVec3 1 0 0) (mkVec3 0 0 1) 1) = normSquare (mkVec3 0 0 1).
Proof.
  assert (1 <> 0 \/ mkVec3 0 0 1 <> mkVec3 1 0 0) as H by (left; exact R1_neq_R0).
  split; [exact H|].
  exact (proj1 (darbouxStep_isometry (mkVec3 1 0 0) (mkVec3 0 0 1) 1 H)).
Defined.

Lemma powerMethod_on_sphere_witness :
  1 <> 0
  /\ exists ok lT, powerMethod unit_square 1 1 = Some (ok, lT) /\ normSquare lT = 1 * 1.
Proof.
  split; [exact R1_neq_R0|].
  exact (proj2 (powerMethod_on_sphere unit_square 1 1 R1_neq_R0)).
Defined.

Lemma darbouxStep_axis (S lT : Vec3 R) r :
  vx S = 0 -> vy S = 0 -> vx lT = 0 -> vy lT = 0 -> r <> 0 ->
  darbouxStep S lT r = lT.
Proof.
  destruct S as [a b s], lT as [a' b' l]. simpl. intros -> -> -> -> Hr.
  pose proof (Rle_0_sqr (l - s)) as H1. pose proof (Rsqr_pos_lt r Hr) as H2.
  unfold Rsqr in *.
  unfold darbouxStep, qimag, qmul, qinverse, quat, vsub, square, fint. simpl.
  f_equal; field; lra.
Qed.

Lemma zaxis_monodromy : monodromy zaxis_pair (seed 1) 1 = Some (seed 1).
Proof.
  unfold monodromy. apply for_loop_id. intros k Hk.
  destruct k as [|[|k]]; [| |simpl in Hk; lia].
  - change (edge_vec zaxis_pair 0) with (Some (vsub (mkVec3 0 0 2) (mkVec3 0 0 0))).
    cbn [mbind option_bind].
    rewrite darbouxStep_axis; [done|simpl; lra..|exact R1_neq_R0].
  - change (edge_vec zaxis_pair 1) with (Some (vsub (mkVec3 0 0 0) (mkVec3 0 0 2))).
    cbn [mbind option_bind].
    rewrite darbouxStep_axis; [done|simpl; lra..|exact R1_neq_R0].
Qed.

Lemma zaxis_darboux :
  exists to', darboux zaxis_pair (replicate 2 vzero) 1 1 = Some (true, to').
Proof.
  assert (powerMethod zaxis_pair 1 1 = Some (true, seed 1)) as Hpow.
  { unfold powerMethod, maxIter. fold (seed 1).
    change (power_iter zaxis_pair 1 100 (seed 1))
      with (lT' ← monodromy zaxis_pair (seed 1) 1;
            if fltb (norm (vsub lT' (seed 1))) (flit 1 10000) then Some (true, lT')
            else power_iter zaxis_pair 1 99 lT').
    rewrite zaxis_monodromy. cbn [mbind option_bind]. by rewrite norm_self_small. }
  destruct (darboux_defined zaxis_pair (replicate 2 vzero) 1 1) as [[ok to'] H];
    [simpl; lia|].
  exists to'. rewrite H. unfold darboux in H. rewrite Hpow in H.
  cbn [mbind option_bind negb] in H.
  destruct (for_loop _ _ _ _) as [[to1 lT1]|]; [|done].
  cbn [mbind option_bind] in H. by injection H as <- <-.
Qed.

Lemma darboux_keeps_lengths_witness :
  1 <> 0
  /\ exists to', darboux zaxis_pair (replicate 2 vzero) 1 1 = Some (true, to')
       /\ forall k p q, zaxis_pair !! k = Some p -> to' !! k = Some q ->
            normSquare (vsub q p) = 1 * 1.
Proof.
  split; [exact R1_neq_R0|]. destruct zaxis_darboux as [to' H].
  exists to'. split; [exact H|].
  exact (proj1 (darboux_keeps_lengths zaxis_pair (replicate 2 vzero) 1 1 to'
                  R1_neq_R0 H)).
Defined.

Lemma addRing_regular_witness :
  normSquare ez = 1 /\ ez <> down
  /\ exists u v, frame ez u v
       /\ forall k, normSquare (vsub (ring_point vzero 1 u v 4 k) vzero) = 1 * 1.
Proof.
  assert (normSquare ez = 1) as H1 by (unfold normSquare, dot, ez; simpl; ring).
  assert (ez <> down) as H2 by (unfold ez, down; intros H; injection H; lra).
  split; [exact H1|]. split; [exact H2|].
  destruct (addRing_regular vzero 1 1 ez 4 empty_exact H1 H2) as (u & v & Hf & _ & Hc & _).
  exists u, v. split; [exact Hf|]. intros k. exact (proj1 (Hc k)).
Defined.

End ExactRuns.
